(** * compgraph: rows, generators and the operator kernel

    A shallow embedding of the computational-graph library: rows are finite
    maps from column names to dynamically typed values, generators are the
    trace of rows they yield together with the way they end, and every
    operator is a function between such traces. *)

From stdpp Require Import base gmap list strings sorting.
From Stdlib Require Import ZArith Lia Ascii.
From Stdlib Require OrderedTypeEx.

#[global] Set Warnings "-clear-no-such-hyp".

Open Scope Z_scope.

(** ** Values and rows *)

(** The dynamically typed values a column holds.  [VFloatDiv n d] is the
    float Python's true division [n / d] of two integers produces; it is
    kept symbolic.  On [None], integers and strings Python's [==] is
    structural equality of these values; a float is equal to every other
    form of the same number, which structural equality does not see, so the
    properties of the operators that compare for equality ask for key values
    without floats. *)
Inductive val : Type :=
  | VNone
  | VInt (z : Z)
  | VStr (s : string)
  | VFloatDiv (n d : Z).

#[global] Instance val_eq_dec : EqDecision val.
Proof. solve_decision. Defined.

(** [TRow = dict[str, Any]]; equality of dicts ignores insertion order. *)
Abbreviation TRow := (gmap string val).

(** ** Exceptions and generators *)

Inductive exn : Type :=
  | KeyError (k : string)
  | IndexError
  | TypeError
  | AttributeError
  | AssertionError
  | ZeroDivisionError
  | OverflowError.

#[global] Instance exn_eq_dec : EqDecision exn.
Proof. solve_decision. Defined.

Inductive result (A : Type) : Type :=
  | Ok (a : A)
  | Raise (e : exn).
Arguments Ok {A} a.
Arguments Raise {A} e.

(** What a consumer observes of an iterable: the items it hands out and how
    the iteration ends, [None] for exhaustion and [Some e] for the exception
    raised by the pull after the last item. *)
Definition stream (A : Type) : Type := (list A * option exn)%type.

(** The body of a generator function: the rows yielded so far and either the
    value computed or the exception that ended it. *)
Definition G (A : Type) : Type := (list TRow * result A)%type.

#[global] Instance G_ret : MRet G := λ A a, ([], Ok a).
#[global] Instance G_bind : MBind G := λ A B f m,
  match m.2 with
  | Ok a => (m.1 ++ (f a).1, (f a).2)
  | Raise e => (m.1, Raise e)
  end.

Definition yield (row : TRow) : G unit := ([row], Ok tt).
Definition raise {A : Type} (e : exn) : G A := ([], Raise e).

(** [yield from it] *)
Definition yield_from (it : stream TRow) : G unit :=
  (it.1, match it.2 with None => Ok tt | Some e => Raise e end).

(** The trace of a generator object made from a body. *)
Definition generator (body : G unit) : stream TRow :=
  (body.1, match body.2 with Ok _ => None | Raise e => Some e end).

(** [for x in xs: s = body(x, s)] over the items already at hand. *)
Fixpoint for_each {X S : Type} (xs : list X) (body : X → S → G S) (s : S) : G S :=
  match xs with
  | [] => mret s
  | x :: xs' => s' ← body x s; for_each xs' body s'
  end.

(** [for x in it: ...] over an iterable: the pull after the last item either
    ends the loop or raises inside it. *)
Definition for_in {X S : Type} (it : stream X) (body : X → S → G S) (s : S) : G S :=
  s' ← for_each it.1 body s;
  match it.2 with
  | None => mret s'
  | Some e => raise e
  end.

(** An operation that yields nothing: it returns a value or raises. *)
Definition lift {A : Type} (r : result A) : G A := ([], r).

#[global] Instance result_ret : MRet result := λ A a, Ok a.
#[global] Instance result_bind : MBind result := λ A B f m,
  match m with
  | Ok a => f a
  | Raise e => Raise e
  end.
#[global] Instance result_fmap : FMap result := λ A B f m,
  match m with
  | Ok a => Ok (f a)
  | Raise e => Raise e
  end.

(** [row[k]] *)
Definition row_get (row : TRow) (k : string) : result val :=
  match row !! k with
  | Some v => Ok v
  | None => Raise (KeyError k)
  end.

Definition getitem (row : TRow) (k : string) : G val := lift (row_get row k).

(** [lst[i]] for a non-negative index. *)
Definition list_getitem {A : Type} (lst : list A) (i : nat) : G A :=
  match lst !! i with
  | Some a => mret a
  | None => raise IndexError
  end.

(** [{k: row[k] for k in keys}] *)
Definition dict_of_keys (keys : list string) (row : TRow) : G TRow :=
  for_each keys (λ k d, v ← getitem row k; mret (<[k := v]> d)) ∅.

(** [{k: row[k] for k in keys if k in row}] *)
Definition dict_of_present_keys (keys : list string) (row : TRow) : G TRow :=
  for_each keys (λ k d,
    if decide (is_Some (row !! k)) then v ← getitem row k; mret (<[k := v]> d)
    else mret d) ∅.

(** [+]: integers add and strings concatenate.  The model has no float
    arithmetic; the operators below add integer counters only. *)
Definition val_add (x y : val) : result val :=
  match x, y with
  | VInt a, VInt b => Ok (VInt (a + b))
  | VStr a, VStr b => Ok (VStr (a +:+ b))
  | _, _ => Raise TypeError
  end.

(** ** Python's order on values

    [<] on two values either answers or raises [TypeError]; which pairs it
    accepts depends on the types met at run time, so it is a parameter
    [val_lt] of the operators that compare.  The data model asks that the
    values observed in a sort, group or ranking column be totally ordered:
    [total_order_on lt P] says that [lt] answers on the items satisfying [P]
    and is a strict total order there. *)
Definition total_order_on {A : Type} (lt : A → A → result bool) (P : A → Prop) : Prop :=
  (∀ x y, P x → P y → ∃ b, lt x y = Ok b) ∧
  (∀ x, P x → lt x x = Ok false) ∧
  (∀ x y z, P x → P y → P z →
     lt x y = Ok true → lt y z = Ok true → lt x z = Ok true) ∧
  (∀ x y, P x → P y → x ≠ y → lt x y = Ok true ∨ lt y x = Ok true).

(** [<] on integers and on strings, as Python defines it there; across the
    two and on [None] it raises [TypeError].  It is the instance of [val_lt]
    of the examples, whose columns hold integers and strings; floats, which
    Python orders, are outside its domain. *)
Definition py_lt (x y : val) : result bool :=
  match x, y with
  | VInt a, VInt b => Ok (a <? b)
  | VStr a, VStr b => Ok (String.ltb a b)
  | _, _ => Raise TypeError
  end.

(** [a < b] on two lists (or tuples): the first position where they differ
    decides, a proper prefix is smaller. *)
Fixpoint list_lt (val_lt : val → val → result bool) (a b : list val) : result bool :=
  match a, b with
  | x :: a', y :: b' => if decide (x = y) then list_lt val_lt a' b' else val_lt x y
  | [], _ :: _ => Ok true
  | _, [] => Ok false
  end.

(** ** reduce.py: TopN *)

Section TopN.
Context (val_lt : val → val → result bool).

  (** The heap holds tuples [(row[column], -i, row)]. *)
Definition heap_el : Type := (val * Z * TRow)%type.

  (** Tuple comparison as [heapq] performs it: the first components decide
      unless they are equal, then the second ones do.  The third components
      are never reached because the second ones differ. *)
Definition el_lt (x y : heap_el) : result bool :=
    if decide (x.1.1 = y.1.1) then Ok (x.1.2 <? y.1.2) else val_lt x.1.1 y.1.1.

  (** [heapq.heappush] and [heapq.heappop] of the standard library; the list
      they update in place is returned. *)
Context (heappush : list heap_el → heap_el → G (list heap_el)).
Context (heappop : list heap_el → G (heap_el * list heap_el)).

  (** What [heapq] documents, on tuples whose first components satisfy [P]:
      the lists it maintains, starting from the empty one, keep an invariant
      under which [heap[0]] is the smallest item; [heappush] adds an item and
      [heappop] removes and returns [heap[0]]. *)
Definition heapq_contract (P : val → Prop) : Prop :=
    ∃ inv : list heap_el → Prop,
      inv [] ∧
      (∀ h x, inv h → Forall (λ e, P e.1.1) (x :: h) →
         ∃ h', heappush h x = ([], Ok h') ∧ inv h' ∧ h' ≡ₚ x :: h) ∧
      (∀ m t, inv (m :: t) → Forall (λ e, P e.1.1) (m :: t) →
         ∃ h', heappop (m :: t) = ([], Ok (m, h')) ∧ inv h' ∧ h' ≡ₚ t) ∧
      (∀ m t, inv (m :: t) → Forall (λ e, P e.1.1) (m :: t) →
         ∀ x, x ∈ t → el_lt x m = Ok false).

Definition TopN_step (column_max : string) (n : Z)
      (row : TRow) (st : list heap_el * Z) : G (list heap_el * Z) :=
    let '(sorted_lst, i) := st in
    v ← getitem row column_max;
    let el : heap_el := (v, - i, row) in
    sorted_lst' ←
      (if Z.of_nat (length sorted_lst) <? n then
         heappush sorted_lst el
       else
         top ← list_getitem sorted_lst 0;
         gt ← lift (val_lt top.1.1 v);
         if gt : bool then
           popped ← heappop sorted_lst;
           heappush popped.2 el
         else mret sorted_lst);
    mret (sorted_lst', i + 1).

Definition TopN (column_max : string) (n : Z)
      (group_key : list string) (rows : stream TRow) : G unit :=
    st ← for_in rows (TopN_step column_max n) ([], 0);
    for_each st.1 (λ el _, yield el.2) tt.
End TopN.

(** A [heapq] that keeps the list sorted, smallest item first. *)
Fixpoint sorted_push (val_lt : val → val → result bool)
    (h : list heap_el) (x : heap_el) : G (list heap_el) :=
  match h with
  | [] => mret [x]
  | y :: h' =>
      b ← lift (el_lt val_lt x y);
      if b : bool then mret (x :: y :: h')
      else t ← sorted_push val_lt h' x; mret (y :: t)
  end.

Definition sorted_pop (h : list heap_el) : G (heap_el * list heap_el) :=
  match h with
  | [] => raise IndexError
  | m :: t => mret (m, t)
  end.


(** ** base.py: Map, Reduce and the grouping they rest on *)

Definition Mapper : Type := TRow → G unit.

(** [Map.__call__]: [for row in rows: yield from self.mapper(row)]. *)
Definition Map (mapper : Mapper) (rows : stream TRow) : G unit :=
  for_in rows (λ row _, mapper row) tt.

(** What a key function returns: [itemgetter] gives the bare value for one
    key and a tuple for several, [safe_itemgetter] an empty list for none,
    and [Join._comparator] a list. *)
Inductive pykey : Type :=
  | KVal (v : val)
  | KTuple (vs : list val)
  | KList (vs : list val).

#[global] Instance pykey_eq_dec : EqDecision pykey.
Proof. solve_decision. Defined.

Definition safe_itemgetter (keys : list string) (row : TRow) : result pykey :=
  match keys with
  | [] => Ok (KList [])
  | [k] => KVal <$> row_get row k
  | _ => KTuple <$> mapM (row_get row) keys
  end.

Section groupby.
Context {K : Type} `{EqDecision K}.

  (** The rows as [itertools.groupby] pulls them through the key function:
      the first row whose key raises ends the iteration with that
      exception. *)
Fixpoint pull_keys (keyfunc : TRow → result K)
      (rows : list TRow) (fin : option exn) : stream (K * TRow) :=
    match rows with
    | [] => ([], fin)
    | row :: rows' =>
        match keyfunc row with
        | Ok k => let kr := pull_keys keyfunc rows' fin in ((k, row) :: kr.1, kr.2)
        | Raise e => ([], Some e)
        end
    end.

  (** A new group starts every time the key changes. *)
Fixpoint group_runs (l : list (K * TRow)) : list (K * list TRow) :=
    match l with
    | [] => []
    | (k, row) :: l' =>
        match group_runs l' with
        | (k', g) :: gs =>
            if decide (k = k') then (k, row :: g) :: gs
            else (k, [row]) :: (k', g) :: gs
        | [] => [(k, [row])]
        end
    end.

  (** [itertools.groupby(rows, key=keyfunc)]: the groups in order, and the
      way the underlying iteration ends. *)
Definition groupby (keyfunc : TRow → result K) (rows : stream TRow)
      : stream (K * list TRow) :=
    let kr := pull_keys keyfunc rows.1 rows.2 in (group_runs kr.1, kr.2).

  (** The iterator of one group: only the last group can meet the end of the
      underlying iteration. *)
Definition group_items (g : list TRow) (later : list (K * list TRow))
      (fin : option exn) : stream TRow :=
    (g, match later with [] => fin | _ :: _ => None end).
End groupby.

Definition Reducer : Type := list string → stream TRow → G unit.

(** The loop of [Reduce.__call__] over the groups.  [yield from] a generator
    runs its body in place.  When the reducer returns without having met the
    exception that ends the last group, advancing [groupby] raises it.  The
    reducers of [reduce.py] handle no exception: one raised by the iteration
    of the group leaves the reducer and ends the stream, which is what the
    loop assumes of a reducer on a stream that fails. *)
Fixpoint Reduce_loop (reducer : Reducer) (keys : list string)
    (groups : list (pykey * list TRow)) (fin : option exn) : G unit :=
  match groups with
  | [] => match fin with None => mret tt | Some e => raise e end
  | (_, g) :: groups' =>
      reducer keys (group_items g groups' fin);;
      Reduce_loop reducer keys groups' fin
  end.

(** [Reduce.__call__] *)
Definition Reduce (reducer : Reducer) (keys : list string) (rows : stream TRow) : G unit :=
  let groups := groupby (safe_itemgetter keys) rows in
  Reduce_loop reducer keys groups.1 groups.2.

(** ** reduce.py: Count and TermFrequency *)

Definition Count (column : string) : Reducer := λ group_key rows,
  result_row ← for_in rows (λ row (result_row : TRow),
    if decide (result_row = ∅) then
      d ← dict_of_present_keys group_key row;
      mret (<[column := VInt 1]> d)
    else
      c ← getitem result_row column;
      c' ← lift (val_add c (VInt 1));
      mret (<[column := c']> result_row)) ∅;
  yield result_row.

(** [counts[w] += 1] on a [defaultdict(int)]: a known word keeps its place,
    a new one goes last. *)
Fixpoint counts_incr (counts : list (val * Z)) (w : val) : list (val * Z) :=
  match counts with
  | [] => [(w, 1)]
  | (k, c) :: counts' =>
      if decide (k = w) then (k, c + 1) :: counts'
      else (k, c) :: counts_incr counts' w
  end.

Definition TermFrequency (words_column result_column : string) : Reducer :=
  λ group_key rows,
  st ← for_in rows (λ row (st : list (val * Z) * Z * TRow),
    let '(counts, counter, return_row) := st in
    return_row' ← (if decide (return_row = ∅) then dict_of_keys group_key row
                   else mret return_row);
    w ← getitem row words_column;
    mret (counts_incr counts w, counter + 1, return_row')) ([], 0, ∅);
  let '(counts, counter, return_row) := st in
  for_each counts (λ kv _,
    let cur_row := return_row in
    let cur_row := <[words_column := kv.1]> cur_row in
    let cur_row := <[result_column := VFloatDiv kv.2 counter]> cur_row in
    yield cur_row) tt.

(** ** reduce.py: FirstReducer, Index, Sum and Mean *)

(** [for row in rows: yield row; break]: one pull, and the loop is left after
    the first row. *)
Definition FirstReducer : Reducer := λ group_key rows,
  match rows.1 with
  | row :: _ => yield row
  | [] => match rows.2 with
          | None => mret tt
          | Some e => raise e
          end
  end.

Definition Index (column : string) : Reducer := λ group_key rows,
  for_in rows (λ row (index : Z),
    let result_row := <[column := VInt index]> row in
    let index := index + 1 in
    yield result_row;;
    mret index) 0;;
  mret tt.

(** [result_row[column] += row[column]] reads the field of [result_row]
    before it evaluates the right-hand side. *)
Definition Sum (column : string) : Reducer := λ group_key rows,
  result_row ← for_in rows (λ row (result_row : TRow),
    if decide (result_row = ∅) then
      d ← dict_of_keys group_key row;
      v ← getitem row column;
      mret (<[column := v]> d)
    else
      c ← getitem result_row column;
      v ← getitem row column;
      c' ← lift (val_add c v);
      mret (<[column := c']> result_row)) ∅;
  yield result_row.

(** [s / n] on two integers is the float nearest to the quotient, ties to
    even.  It raises [OverflowError] when that float would be beyond the
    largest one, [2^1024 - 2^971]: from the midpoint [2^1024 - 2^970] to the
    next power of two on. *)
Definition truediv_overflows (s n : Z) : bool :=
  (2 ^ 1024 - 2 ^ 970) * Z.abs n <=? Z.abs s.

(** [x / n] for an integer [n]; the sums this development divides are
    integers. *)
Definition val_truediv (x : val) (n : Z) : result val :=
  match x with
  | VInt s =>
      if n =? 0 then Raise ZeroDivisionError
      else if truediv_overflows s n then Raise OverflowError
      else Ok (VFloatDiv s n)
  | _ => Raise TypeError
  end.

Definition Mean (column : string) : Reducer := λ group_key rows,
  st ← for_in rows (λ row (st : TRow * Z),
    let '(result_row, n) := st in
    let n := n + 1 in
    if decide (result_row = ∅) then
      d ← dict_of_keys group_key row;
      v ← getitem row column;
      mret (<[column := v]> d, n)
    else
      c ← getitem result_row column;
      v ← getitem row column;
      c' ← lift (val_add c v);
      mret (<[column := c']> result_row, n)) (∅, 0);
  let '(result_row, n) := st in
  c ← getitem result_row column;
  q ← lift (val_truediv c n);
  yield (<[column := q]> result_row).

(** ** base.py: Joiner and Join; join.py *)

(** [list(rows)] *)
Definition to_list (rows : stream TRow) : G (list TRow) :=
  match rows.2 with
  | None => mret rows.1
  | Some e => raise e
  end.

Definition Joiner : Type := list string → stream TRow → stream TRow → G unit.

Section Join.
(** The order in which Python iterates over a set of column names; it is
    not specified. *)
Context (set_order : gset string → list string).
(** [self._a_suffix] and [self._b_suffix] *)
Context (suffix_a suffix_b : string).

(** The body of the inner loop of [Joiner.prod_tables]: the row made of one
    pair. *)
Definition prod_row (keys : list string) (a b : TRow) : G TRow :=
  row ← dict_of_keys keys a;
  let inter : gset string := dom a ∩ dom b in
  let common : gset string := inter ∖ list_to_set keys in
  row ← for_each (set_order common) (λ k (row : TRow),
    va ← getitem a k;
    let row := <[k +:+ suffix_a := va]> row in
    vb ← getitem b k;
    mret (<[k +:+ suffix_b := vb]> row)) row;
  row ← for_each (set_order (dom a ∖ inter)) (λ k (row : TRow),
    v ← getitem a k; mret (<[k := v]> row)) row;
  for_each (set_order (dom b ∖ inter)) (λ k (row : TRow),
    v ← getitem b k; mret (<[k := v]> row)) row.

(** [Joiner.prod_tables]: with an empty right table it returns at once and
    leaves [rows_a] untouched. *)
Definition prod_tables (keys : list string)
    (rows_a : stream TRow) (rows_b : list TRow) : G unit :=
  if decide (rows_b = []) then mret tt
  else
    for_in rows_a (λ a _,
      for_each rows_b (λ b _, row ← prod_row keys a b; yield row) tt) tt.

Definition InnerJoiner : Joiner := λ keys rows_a rows_b,
  lb ← to_list rows_b;
  prod_tables keys rows_a lb.

Definition OuterJoiner : Joiner := λ keys rows_a rows_b,
  la ← to_list rows_a;
  lb ← to_list rows_b;
  prod_tables keys (la, None) lb;;
  (if decide (la = []) then yield_from (lb, None) else mret tt);;
  (if decide (lb = []) then yield_from (la, None) else mret tt).

Definition LeftJoiner : Joiner := λ keys rows_a rows_b,
  lb ← to_list rows_b;
  prod_tables keys rows_a lb;;
  (if decide (lb = []) then yield_from rows_a else mret tt).

(** [not rows_a] holds of the empty list [Join] passes for an unmatched
    right group; a group iterator is never empty. *)
Definition RightJoiner : Joiner := λ keys rows_a rows_b,
  lb ← to_list rows_b;
  prod_tables keys rows_a lb;;
  (if decide (rows_a.1 = []) then yield_from (lb, None) else mret tt).
End Join.

Section Join_operator.
Context (val_lt : val → val → result bool).

(** [Join._comparator] *)
Definition _comparator (keys : list string) (row : TRow) : result (list val) :=
  mapM (row_get row) keys.

(** [Join._next_iter] once the group at hand is left behind: [groups] are
    the groups still to come, the first of them becomes the group at hand;
    when there is none the iteration has stopped or raises. *)
Definition _next_iter (groups : list (list val * list TRow)) (fin : option exn) : G unit :=
  match groups, fin with
  | [], Some e => raise e
  | _, _ => mret tt
  end.

(** The three loops of [Join.__call__], on the groups of both sides; the
    first group of each list is the one at hand, an empty list stands for
    [ag is None]. *)
Fixpoint Join_loop (joiner : Joiner) (keys : list string) (fa fb : option exn)
    (ga : list (list val * list TRow)) : list (list val * list TRow) → G unit :=
  fix drain_b (gb : list (list val * list TRow)) : G unit :=
    match ga, gb with
    | (ak, ag) :: ga', (bk, bg) :: gb' =>
        a_first ← lift (list_lt val_lt ak bk);
        if a_first : bool then
          joiner keys (group_items ag ga' fa) ([], None);;
          _next_iter ga' fa;;
          Join_loop joiner keys fa fb ga' gb
        else
          b_first ← lift (list_lt val_lt bk ak);
          if b_first : bool then
            joiner keys ([], None) (group_items bg gb' fb);;
            _next_iter gb' fb;;
            drain_b gb'
          else
            joiner keys (group_items ag ga' fa) (group_items bg gb' fb);;
            _next_iter ga' fa;;
            _next_iter gb' fb;;
            Join_loop joiner keys fa fb ga' gb'
    | (ak, ag) :: ga', [] =>
        joiner keys (group_items ag ga' fa) ([], None);;
        _next_iter ga' fa;;
        Join_loop joiner keys fa fb ga' []
    | [], (bk, bg) :: gb' =>
        joiner keys ([], None) (group_items bg gb' fb);;
        _next_iter gb' fb;;
        drain_b gb'
    | [], [] => mret tt
    end.

(** [Join.__call__]: [rows] is the left table and [args[0]] the right one. *)
Definition Join (joiner : Joiner) (keys : list string)
    (rows : stream TRow) (args0 : stream TRow) : G unit :=
  let rows_a := groupby (_comparator keys) rows in
  let rows_b := groupby (_comparator keys) args0 in
  _next_iter rows_a.1 rows_a.2;;
  _next_iter rows_b.1 rows_b.2;;
  Join_loop joiner keys rows_a.2 rows_b.2 rows_a.1 rows_b.1.
End Join_operator.

(** ** map.py: mappers on row objects

    A mapper is handed a reference to a row object and may assign into it,
    so the mappers are modelled on a heap of row objects: an address is an
    index into the heap, a copy or a new dict goes to a fresh address, and a
    mapper yields addresses. *)

Abbreviation heap := (list TRow).

Definition H (A : Type) : Type := heap → (list nat * result A * heap)%type.

#[global] Instance H_ret : MRet H := λ A a σ, ([], Ok a, σ).
#[global] Instance H_bind : MBind H := λ A B f m σ,
  match m σ with
  | (ys, Ok a, σ1) =>
      match f a σ1 with
      | (ys', r, σ2) => (ys ++ ys', r, σ2)
      end
  | (ys, Raise e, σ1) => (ys, Raise e, σ1)
  end.

Definition h_lift {A : Type} (r : result A) : H A := λ σ, ([], r, σ).

(** [yield row] *)
Definition h_yield (row : nat) : H unit := λ σ, ([row], Ok tt, σ).

(** The dict at an address. *)
Definition deref (σ : heap) (row : nat) : TRow := default ∅ (σ !! row).

Definition get_row (row : nat) : H TRow := λ σ, ([], Ok (deref σ row), σ).

(** [row[k]] *)
Definition row_getitem (row : nat) (k : string) : H val :=
  λ σ, ([], row_get (deref σ row) k, σ).

(** [row[k] = v] *)
Definition row_setitem (row : nat) (k : string) (v : val) : H unit :=
  λ σ, ([], Ok tt, alter (<[k := v]>) row σ).

(** A new dict object. *)
Definition new_row (d : TRow) : H nat := λ σ, ([], Ok (length σ), σ ++ [d]).

(** [row.copy()] *)
Definition row_copy (row : nat) : H nat := λ σ, new_row (deref σ row) σ.

Fixpoint h_for_each {X S : Type} (xs : list X) (body : X → S → H S) (s : S) : H S :=
  match xs with
  | [] => mret s
  | x :: xs' => s' ← body x s; h_for_each xs' body s'
  end.

(** What the consumer of a mapper called on a lone row sees: the dicts at
    the addresses yielded. *)
Definition run_mapper (mapper : nat → H unit) : Mapper := λ row,
  match mapper 0%nat [row] with
  | (ys, r, σ) => (deref σ <$> ys, r)
  end.

(** *** Strings

    Strings are byte strings; the functions below are those of Python on
    ASCII text, and the properties of the mappers that use them are stated
    for ASCII text.  Beyond it [str.lower()] and [\s] follow the Unicode
    tables. *)

(** The characters of [string.punctuation]. *)
Definition is_punctuation (c : ascii) : bool :=
  let n := nat_of_ascii c in
  ((33 <=? n) && (n <=? 47) || (58 <=? n) && (n <=? 64) ||
   (91 <=? n) && (n <=? 96) || (123 <=? n) && (n <=? 126))%nat.

Fixpoint remove_punctuation (s : string) : string :=
  match s with
  | EmptyString => EmptyString
  | String c s' =>
      if is_punctuation c then remove_punctuation s'
      else String c (remove_punctuation s')
  end.

(** [regex.sub('', v)] for the regex of the punctuation characters. *)
Definition regex_sub_punctuation (v : val) : result val :=
  match v with
  | VStr s => Ok (VStr (remove_punctuation s))
  | _ => Raise TypeError
  end.

(** [str.lower()] on ASCII text: the letters [A] to [Z] go to [a] to [z]. *)
Definition lower_ascii (c : ascii) : ascii :=
  let n := nat_of_ascii c in
  if ((65 <=? n) && (n <=? 90))%nat then ascii_of_nat (n + 32) else c.

Fixpoint lower (s : string) : string :=
  match s with
  | EmptyString => EmptyString
  | String c s' => String (lower_ascii c) (lower s')
  end.

(** [LowerCase._lower_case] *)
Definition _lower_case (v : val) : result val :=
  match v with
  | VStr s => Ok (VStr (lower s))
  | _ => Raise AttributeError
  end.

(** [re.finditer] wants a string. *)
Definition as_text (v : val) : result string :=
  match v with
  | VStr s => Ok s
  | _ => Raise TypeError
  end.

(** [text[i:j]] and [text[i:]] *)
Definition slice (text : string) (i j : nat) : string := String.substring i (j - i) text.
Definition slice_from (text : string) (i : nat) : string :=
  String.substring i (String.length text - i) text.

(** The matches of the default separator [[\s+]], one character each: a
    white-space character or a plus sign.  On ASCII text the white-space
    characters are those of codes 9 to 13 and 28 to 32. *)
Definition is_separator (c : ascii) : bool :=
  let n := nat_of_ascii c in
  ((9 <=? n) && (n <=? 13) || (28 <=? n) && (n <=? 32) || (n =? 43))%nat.

Fixpoint default_separator_from (i : nat) (text : string) : list (nat * nat) :=
  match text with
  | EmptyString => []
  | String c text' =>
      if is_separator c then (i, S i) :: default_separator_from (S i) text'
      else default_separator_from (S i) text'
  end.

Definition default_separator (text : string) : list (nat * nat) :=
  default_separator_from 0 text.

(** *** The mappers *)

Definition DummyMapper (row : nat) : H unit := h_yield row.

Definition FilterPunctuation (column : string) (row : nat) : H unit :=
  v ← row_getitem row column;
  v' ← h_lift (regex_sub_punctuation v);
  row_setitem row column v';;
  h_yield row.

Definition LowerCase (column : string) (row : nat) : H unit :=
  v ← row_getitem row column;
  v' ← h_lift (_lower_case v);
  row_setitem row column v';;
  h_yield row.

(** [separator] gives the spans [(cur.start(), cur.end())] of the matches
    [re.finditer(self.separator, text)] finds, in order. *)
Definition Split (column : string) (separator : string → list (nat * nat))
    (row : nat) : H unit :=
  v ← row_getitem row column;
  let prev := 0%nat in
  row ← row_copy row;
  text ← h_lift (as_text v);
  st ← h_for_each (separator text) (λ cur (st : nat * nat),
    let '(prev, row) := st in
    row_setitem row column (VStr (slice text prev cur.1));;
    h_yield row;;
    let prev := cur.2 in
    row ← row_copy row;
    mret (prev, row)) (prev, row);
  let '(prev, row) := st in
  if decide (String.length text ≠ prev) then
    row_setitem row column (VStr (slice_from text prev));;
    h_yield row
  else mret tt.

Section mappers.
(** Python's [*], the user's callables, and the library functions behind
    [StringToDateTime._make_datetime] and [HaversineDist._haversine_dist];
    the callables do not touch the row objects. *)
Context (val_mul : val → val → result val).
Context (condition : TRow → result bool).
Context (func : list val → result val).
Context (_make_datetime : val → result val).
Context (_haversine_dist : val → val → result val).

Definition Product (columns : list string) (result_column : string) (row : nat) : H unit :=
  row ← row_copy row;
  prod_val ← h_for_each columns (λ col prod_val,
    v ← row_getitem row col;
    h_lift (val_mul prod_val v)) (VInt 1);
  row_setitem row result_column prod_val;;
  h_yield row.

Definition Filter (row : nat) : H unit :=
  d ← get_row row;
  keep ← h_lift (condition d);
  if keep : bool then h_yield row else mret tt.

Definition Project (columns : list string) (row : nat) : H unit :=
  d ← h_for_each columns (λ k (d : TRow),
    v ← row_getitem row k; mret (<[k := v]> d)) ∅;
  new ← new_row d;
  h_yield new.

Definition Apply (columns : list string) (result_column : string) (row : nat) : H unit :=
  args ← h_for_each columns (λ column args,
    v ← row_getitem row column; mret (args ++ [v])) [];
  result_row ← row_copy row;
  v ← h_lift (func args);
  row_setitem result_row result_column v;;
  h_yield result_row.

Definition StringToDateTime (columns : list string) (row : nat) : H unit :=
  row ← row_copy row;
  h_for_each columns (λ column (_ : unit),
    v ← row_getitem row column;
    d ← h_lift (_make_datetime v);
    row_setitem row column d) tt;;
  h_yield row.

Definition HaversineDist (start_column end_column column : string) (row : nat) : H unit :=
  row ← row_copy row;
  s ← row_getitem row start_column;
  e ← row_getitem row end_column;
  d ← h_lift (_haversine_dist s e);
  row_setitem row column d;;
  h_yield row.

Definition Remove (columns : list string) (row : nat) : H unit :=
  d ← get_row row;
  new ← new_row (filter (λ kv, kv.1 ∉ columns) d);
  h_yield new.
End mappers.

(** ** read.py *)

Section Read.
(** The lines of the file of a name, or the exception [open] raises. *)
Context (open_file : string → result (list string)).

(** [Read.__call__] *)
Definition Read (filename : string) (parser : string → result TRow) : G unit :=
  f ← lift (open_file filename);
  for_each f (λ line _, row ← lift (parser line); yield row) tt.
End Read.

(** [ReadIterFactory.__call__].  A keyword argument is a callable that gives
    an iterable; [kwargs] maps its name to what iterating over that iterable
    gives. *)
Definition ReadIterFactory (name : string) (kwargs : gmap string (stream TRow)) : G unit :=
  it ← lift (match kwargs !! name with
             | Some it => Ok it
             | None => Raise (KeyError name)
             end);
  for_in it (λ row _, yield row) tt.

(** ** graph.py *)

Module graph.

Inductive Operation : Type :=
  | OpReadIterFactory (name : string)
  | OpRead (filename : string) (parser : string → result TRow)
  | OpMap (mapper : Mapper)
  | OpReduce (reducer : Reducer) (keys : list string)
  | OpJoin (joiner : Joiner) (keys : list string)
  | OpExternalSort (keys : list string).

(** The three attributes of a [Graph] object: [_op], [_prev] and [_next]. *)
#[local] Unset Elimination Schemes.
Inductive Graph : Type :=
  | Build_Graph (_op : option Operation) (_prev _next : option Graph).
#[local] Set Elimination Schemes.

Definition _op (self : Graph) : option Operation :=
  match self with Build_Graph op _ _ => op end.
Definition _prev (self : Graph) : option Graph :=
  match self with Build_Graph _ prev _ => prev end.
Definition _next (self : Graph) : option Graph :=
  match self with Build_Graph _ _ next => next end.

(** [Graph()] *)
Definition __init__ : Graph := Build_Graph None None None.

Definition graph_from_iter (name : string) : Graph :=
  Build_Graph (Some (OpReadIterFactory name)) None None.

Definition graph_from_file (filename : string) (parser : string → result TRow) : Graph :=
  Build_Graph (Some (OpRead filename parser)) None None.

Definition map (self : Graph) (mapper : Mapper) : Graph :=
  Build_Graph (Some (OpMap mapper)) (Some self) None.

Definition reduce (self : Graph) (reducer : Reducer) (keys : list string) : Graph :=
  Build_Graph (Some (OpReduce reducer keys)) (Some self) None.

Definition sort (self : Graph) (keys : list string) : Graph :=
  Build_Graph (Some (OpExternalSort keys)) (Some self) None.

Definition join (self : Graph) (joiner : Joiner) (join_graph : Graph)
    (keys : list string) : Graph :=
  Build_Graph (Some (OpJoin joiner keys)) (Some self) (Some join_graph).

Section run.
Context (val_lt : val → val → result bool).
Context (open_file : string → result (list string)).
(** [external_sort.ExternalSort.__call__]: the module is not among the
    sources at hand. *)
Context (ExternalSort : list string → stream TRow → G unit).

(** [Graph.run].  It is a generator function: a failed [assert] is raised
    when the consumer asks for the first row, as any other exception of the
    body.  A [match] on [_prev] and [_next] stands for the [assert] on them
    and the use of them that follows. *)
Fixpoint run (self : Graph) (kwargs : gmap string (stream TRow)) : G unit :=
  match self with
  | Build_Graph op prev next =>
      match op with
      | Some (OpReadIterFactory name) =>
          match prev, next with
          | None, None => yield_from (generator (ReadIterFactory name kwargs))
          | _, _ => raise AssertionError
          end
      | Some (OpRead filename parser) =>
          match prev, next with
          | None, None => yield_from (generator (Read open_file filename parser))
          | _, _ => raise AssertionError
          end
      | Some (OpJoin joiner keys) =>
          match next, prev with
          | Some next, Some prev =>
              yield_from (generator (Join val_lt joiner keys
                (generator (run prev kwargs)) (generator (run next kwargs))))
          | _, _ => raise AssertionError
          end
      | Some (OpMap mapper) =>
          match next, prev with
          | None, Some prev =>
              yield_from (generator (Map mapper (generator (run prev kwargs))))
          | _, _ => raise AssertionError
          end
      | Some (OpReduce reducer keys) =>
          match next, prev with
          | None, Some prev =>
              yield_from (generator (Reduce reducer keys (generator (run prev kwargs))))
          | _, _ => raise AssertionError
          end
      | Some (OpExternalSort keys) =>
          match next, prev with
          | None, Some prev =>
              yield_from (generator (ExternalSort keys (generator (run prev kwargs))))
          | _, _ => raise AssertionError
          end
      | None => raise AssertionError
      end
  end.
End run.

End graph.

(** ** algorithms.py *)

(** [word_count_graph]; [Split(text_column)] has the default separator. *)
Definition word_count_graph (input_stream_name text_column count_column : string)
    : graph.Graph :=
  graph.sort
    (graph.reduce
       (graph.sort
          (graph.map
             (graph.map
                (graph.map (graph.graph_from_iter input_stream_name)
                   (run_mapper (FilterPunctuation text_column)))
                (run_mapper (LowerCase text_column)))
             (run_mapper (Split text_column default_separator)))
          [text_column])
       (Count count_column) [text_column])
    [count_column; text_column].

(** * Vocabulary of the specification *)

(** The tuple of values a row has at the keys. *)
Definition key_tuple (keys : list string) (row : TRow) : list val :=
  (λ k, default VNone (row !! k)) <$> keys.

(** The row has every column of [keys]. *)
Definition has_keys (keys : list string) (row : TRow) : Prop :=
  Forall (λ k, is_Some (row !! k)) keys.

(** The values whose [==] is the structural equality of [val]: [None],
    integers and strings.  A float is equal to every other form of the same
    number, [1 / 2] to [2 / 4] and [2 / 2] to [1]. *)
Definition exact_val (v : val) : Prop :=
  match v with
  | VFloatDiv _ _ => False
  | _ => True
  end.

(** The rows hold no float in the columns [keys]. *)
Definition exact_keys (keys : list string) (rows : list TRow) : Prop :=
  Forall (λ r, Forall exact_val (key_tuple keys r)) rows.

(** The values the rows hold in one column. *)
Definition column_values (col : string) (rows : list TRow) (v : val) : Prop :=
  ∃ r, r ∈ rows ∧ r !! col = Some v.

(** Every key column of the rows is totally ordered by [val_lt]. *)
Definition columns_ordered (val_lt : val → val → result bool)
    (keys : list string) (rows : list TRow) : Prop :=
  Forall (λ k, total_order_on val_lt (column_values k rows)) keys.

(** The rows carry the keys and are in ascending order of their key tuples. *)
Definition key_le (val_lt : val → val → result bool)
    (keys : list string) (r r' : TRow) : Prop :=
  list_lt val_lt (key_tuple keys r') (key_tuple keys r) = Ok false.

Definition sorted_by (val_lt : val → val → result bool)
    (keys : list string) (rows : list TRow) : Prop :=
  Forall (has_keys keys) rows ∧ StronglySorted (key_le val_lt keys) rows.

(** A tuple with one value out of each of the sets [Ps]. *)
Definition tuple_in (Ps : list (val → Prop)) (t : list val) : Prop :=
  Forall2 (λ (P : val → Prop) v, P v) Ps t.

(** A non-empty run of rows that agree on the key tuple. *)
Definition uniform_run (keys : list string) (g : list TRow) : Prop :=
  g ≠ [] ∧ ∀ r r', r ∈ g → r' ∈ g → key_tuple keys r = key_tuple keys r'.

(** [gs] cuts [rows] into its maximal contiguous runs of equal key tuple:
    the runs make up the stream, and where one run ends and the next begins
    the key tuple changes. *)
Definition maximal_runs (keys : list string) (rows : list TRow) (gs : list (list TRow)) : Prop :=
  concat gs = rows ∧
  Forall (uniform_run keys) gs ∧
  ∀ (i : nat) g g' r r', gs !! i = Some g → gs !! S i = Some g' →
    last g = Some r → head g' = Some r' → key_tuple keys r ≠ key_tuple keys r'.

(** The key columns of a row. *)
Definition project (keys : list string) (row : TRow) : TRow :=
  filter (λ kv, kv.1 ∈ keys) row.

(** The integer a row holds in a column, [0] when there is none. *)
Definition int_at (col : string) (row : TRow) : Z :=
  match row !! col with
  | Some (VInt c) => c
  | _ => 0
  end.

(** ** Auxiliary definitions of the proofs *)

(** The key [safe_itemgetter] computes on a row that has the keys. *)
Definition key_of (keys : list string) (row : TRow) : pykey :=
  match safe_itemgetter keys row with
  | Ok k => k
  | Raise _ => KList []
  end.

Definition keyed {K : Type} (f : TRow → K) (rows : list TRow) : list (K * TRow) :=
  (λ r, (f r, r)) <$> rows.

(** The heap entry [TopN] builds for the row that arrives [i]-th. *)
Definition TopN_el (col : string) (i : nat) (row : TRow) : heap_el :=
  (default VNone (row !! col), - Z.of_nat i, row).

Definition okel (P : val → Prop) (x : heap_el) : Prop := P x.1.1.

Definition has_col (col : string) (P : val → Prop) (r : TRow) : Prop :=
  ∃ v, r !! col = Some v ∧ P v.

(** The invariant of the loop of [TopN]: the heap holds the [n] best of the
    rows seen, every rejected row is below every kept one. *)
Definition topn_inv (val_lt : val → val → result bool) (col : string) (n : Z)
    (inv : list heap_el → Prop) (seen : list TRow) (h : list heap_el) : Prop :=
  inv h ∧
  ∃ rest, h ++ rest ≡ₚ imap (TopN_el col) seen ∧
    length h = Nat.min (Z.to_nat n) (length seen) ∧
    ∀ x y, x ∈ h → y ∈ rest → el_lt val_lt y x = Ok true.

Definition el_le (val_lt : val → val → result bool) (x y : heap_el) : Prop :=
  el_lt val_lt y x = Ok false.

(** ** Sample data *)

Definition tie_group : list TRow :=
  [ {["x" := VInt 5]}; {["x" := VInt 5]}; {["x" := VInt 3]} ].

Definition sample_rows : list TRow :=
  [ {["a" := VInt 1; "b" := VInt 5]};
    {["a" := VInt 1; "b" := VInt 6]};
    {["a" := VInt 2; "b" := VInt 5]} ].

(** The key tuple of a group, read on its first row, and the row [Count]
    makes of the group. *)
Definition group_tuple (keys : list string) (g : list TRow) : list val :=
  key_tuple keys (default ∅ (head g)).

Definition count_row (col : string) (keys : list string) (g : list TRow) : TRow :=
  <[col := VInt (Z.of_nat (length g))]> (project keys (default ∅ (head g))).

(** ** Joins *)

(** [set_order] lists every set without repetition. *)
Definition set_order_ok (set_order : gset string → list string) : Prop :=
  ∀ s : gset string, set_order s ≡ₚ elements s.

(** The key columns are present on both sides and agree. *)
Definition keys_agree (keys : list string) (a b : TRow) : Prop :=
  Forall (λ k, is_Some (a !! k) ∧ a !! k = b !! k) keys.

(** A non-key column present in both rows; a column present in [a] only. *)
Definition common_column (keys : list string) (a b : TRow) (k : string) : Prop :=
  (k ∉ keys) ∧ is_Some (a !! k) ∧ is_Some (b !! k).

Definition only_in (a b : TRow) (k : string) : Prop :=
  is_Some (a !! k) ∧ b !! k = None.

(** The fields the specification gives the row of a matched pair. *)
Definition prod_row_spec (suffix_a suffix_b : string) (keys : list string)
    (a b row : TRow) : Prop :=
  (∀ k, k ∈ keys → row !! k = a !! k) ∧
  (∀ k, common_column keys a b k →
     row !! (k +:+ suffix_a) = a !! k ∧ row !! (k +:+ suffix_b) = b !! k) ∧
  (∀ k, k ∉ keys → only_in a b k → row !! k = a !! k) ∧
  (∀ k, k ∉ keys → only_in b a k → row !! k = b !! k).

(** No suffixed name of a common column is the name of a key or of a
    one-sided column, and no left-suffixed name is a right-suffixed one. *)
Definition no_collision (suffix_a suffix_b : string) (keys : list string)
    (a b : TRow) : Prop :=
  ∀ k, common_column keys a b k →
    (∀ j, j ∈ keys ∨ only_in a b j ∨ only_in b a j →
       k +:+ suffix_a ≠ j ∧ k +:+ suffix_b ≠ j) ∧
    (∀ k', common_column keys a b k' → k +:+ suffix_a ≠ k' +:+ suffix_b).

(** The row [prod_tables] makes of a pair, [∅] if making it raises. *)
Definition prod_row_of (set_order : gset string → list string)
    (suffix_a suffix_b : string) (keys : list string) (a b : TRow) : TRow :=
  match (prod_row set_order suffix_a suffix_b keys a b).2 with
  | Ok row => row
  | Raise _ => ∅
  end.

(** A pair whose left row has a column named like a suffixed common one. *)
Definition clash_a : TRow := {["x" := VInt 1; "x_1" := VInt 5]}.
Definition clash_b : TRow := {["x" := VInt 2]}.

(** The dict the four loops of [prod_tables] fill for a pair, written as
    folds over the columns in the order they are visited. *)
Definition prod_row_fold (set_order : gset string → list string)
    (sa sb : string) (keys : list string) (a b : TRow) : TRow :=
  foldl (λ row k, <[k := default VNone (b !! k)]> row)
    (foldl (λ row k, <[k := default VNone (a !! k)]> row)
       (foldl (λ row k, <[k +:+ sb := default VNone (b !! k)]>
                          (<[k +:+ sa := default VNone (a !! k)]> row))
          (foldl (λ row k, <[k := default VNone (a !! k)]> row) ∅ keys)
          (set_order ((dom a ∩ dom b) ∖ list_to_set keys)))
       (set_order (dom a ∖ (dom a ∩ dom b))))
    (set_order (dom b ∖ (dom a ∩ dom b))).

Definition join_left : list TRow :=
  [ {["k" := VInt 1; "v" := VStr "a"]}; {["k" := VInt 2; "v" := VStr "b"]} ].
Definition join_right : list TRow :=
  [ {["k" := VInt 1; "w" := VInt 10]}; {["k" := VInt 1; "w" := VInt 20]};
    {["k" := VInt 3; "w" := VInt 9]} ].

Definition pair_a : TRow := {["k" := VInt 1; "c" := VInt 7]}.
Definition pair_b : TRow := {["k" := VInt 1; "c" := VInt 8; "w" := VInt 10]}.

(** The rows of [rows_a] whose key tuple does not occur in [rows_b]. *)
Definition unmatched_rows (keys : list string) (rows_a rows_b : list TRow) : list TRow :=
  filter (λ r, key_tuple keys r ∉ key_tuple keys <$> rows_b) rows_a.

(** The same on groups: the rows of the groups of [ga] whose key is the key
    of no group of [gb]. *)
Definition unmatched_groups (ga gb : list (list val * list TRow)) : list TRow :=
  concat (filter (λ kg, kg.1 ∉ gb.*1) ga).*2.

(** Groups as [groupby] makes them of a sorted table: non-empty, their rows
    carry the keys and have the key tuple of the group, and the keys of the
    groups increase strictly. *)
Definition sorted_groups (val_lt : val → val → result bool) (keys : list string)
    (P : list val → Prop) (gs : list (list val * list TRow)) : Prop :=
  Forall (λ kg, P kg.1 ∧ kg.2 ≠ [] ∧
                Forall (λ r, has_keys keys r ∧ key_tuple keys r = kg.1) kg.2) gs ∧
  StronglySorted (λ k k', list_lt val_lt k k' = Ok true) gs.*1.

(** ** TermFrequency *)

(** The distinct values of a list, in the order they are first seen. *)
Fixpoint first_seen (vs : list val) : list val :=
  match vs with
  | [] => []
  | v :: vs' => v :: filter (λ x, x ≠ v) (first_seen vs')
  end.

Definition occurrences (v : val) (vs : list val) : Z :=
  Z.of_nat (length (filter (λ x, x = v) vs)).

(** The values of a column, row by row. *)
Definition column (col : string) (rows : list TRow) : list val :=
  (λ r, default VNone (r !! col)) <$> rows.

(** The fields of the row [TermFrequency] yields for the value [v]: the
    group-key columns of the first row, the word and its frequency, and no
    other column. *)
Definition tf_row_spec (words_column result_column : string) (keys : list string)
    (first : TRow) (v : val) (count size : Z) (row : TRow) : Prop :=
  (∀ k, k ∈ keys → row !! k = first !! k) ∧
  row !! words_column = Some v ∧
  row !! result_column = Some (VFloatDiv count size) ∧
  dom row = list_to_set keys ∪ {[words_column; result_column]}.

(** One row per distinct word, in first-seen order. *)
Definition term_frequency_spec (words_column result_column : string)
    (keys : list string) (rows out : list TRow) : Prop :=
  let words := column words_column rows in
  Forall2 (λ v row,
      tf_row_spec words_column result_column keys (default ∅ (head rows))
        v (occurrences v words) (Z.of_nat (length rows)) row)
    (first_seen words) out.

(** The counting dict of [TermFrequency] after the words [vs]. *)
Definition tally (vs : list val) : list (val * Z) :=
  (λ v, (v, occurrences v vs)) <$> first_seen vs.

Definition tf_group : list TRow :=
  [ {["d" := VInt 1; "w" := VStr "a"]}; {["d" := VInt 1; "w" := VStr "b"]};
    {["d" := VInt 1; "w" := VStr "a"]} ].


(** ** Split *)

(** The tokens before each separator match, the end of the last match, and
    the tail after it when it is not empty. *)
Definition separator_tokens (text : string) (prev : nat) (spans : list (nat * nat))
    : list string :=
  zip_with (λ p cur, slice text p cur.1) (prev :: spans.*2) spans.

Definition last_end (prev : nat) (spans : list (nat * nat)) : nat :=
  default prev (last spans.*2).

Definition tail_token (text : string) (spans : list (nat * nat)) : list string :=
  if decide (String.length text = last_end 0 spans) then []
  else [slice_from text (last_end 0 spans)].

Definition split_tokens (text : string) (spans : list (nat * nat)) : list string :=
  separator_tokens text 0 spans ++ tail_token text spans.

(** What the specification says of the rows [Split] yields for [row], whose
    column holds [text]: a copy per token, and exactly one row, with the
    full string, when nothing matches. *)
Definition split_claim (column : string) (row : TRow) (text : string)
    (spans : list (nat * nat)) (out : list TRow) : Prop :=
  out = (λ tok, <[column := VStr tok]> row) <$> split_tokens text spans ∧
  (spans = [] → out = [<[column := VStr text]> row]).

(** The row agrees with [row] outside the column. *)
Definition same_off (column : string) (row d : TRow) : Prop :=
  ∀ v, <[column := v]> d = <[column := v]> row.

(** A store of one row object, with a text of two words. *)
Definition split_heap : heap := [ {["text" := VStr "a b"; "doc" := VInt 1]} ].

(** A graph whose root source is [graph_from_iter name]: the source itself,
    or what a builder makes of such a graph; for [join] the root is the one
    of the left side. *)
Inductive rooted_at (name : string) : graph.Graph → Prop :=
  | rooted_source : rooted_at name (graph.graph_from_iter name)
  | rooted_map g mapper :
      rooted_at name g → rooted_at name (graph.map g mapper)
  | rooted_reduce g reducer keys :
      rooted_at name g → rooted_at name (graph.reduce g reducer keys)
  | rooted_sort g keys :
      rooted_at name g → rooted_at name (graph.sort g keys)
  | rooted_join g joiner join_graph keys :
      rooted_at name g → rooted_at name (graph.join g joiner join_graph keys).

(** A sort that reads its input to the end before it yields passes on the
    exception of an input that fails at once. *)
Definition consumes_input (ExternalSort : list string → stream TRow → G unit) : Prop :=
  ∀ keys e, ExternalSort keys ([], Some e) = ([], Raise e).

Section ExternalSort_model.
Context (val_lt : val → val → result bool).

(** The place of a row among the rows already sorted: after the rows whose
    key is not greater. *)
Fixpoint sort_insert (k : list val) (row : TRow) (sorted : list (list val * TRow))
    : result (list (list val * TRow)) :=
  match sorted with
  | [] => Ok [(k, row)]
  | (k', row') :: rest =>
      lt ← list_lt val_lt k k';
      if lt : bool then Ok ((k, row) :: sorted)
      else rest' ← sort_insert k row rest; Ok ((k', row') :: rest')
  end.

(** Modelled from the spec: [external_sort.ExternalSort], which is not among
    the sources.  [Sort(keys)] consumes a row stream and yields the rows
    sorted ascending lexicographically by the tuple [(row[k] for k in keys)],
    rows of equal key in the order of the input. *)
Definition ExternalSort_model (keys : list string) (rows : stream TRow) : G unit :=
  sorted ← for_in rows (λ row sorted,
    k ← lift (_comparator keys row);
    lift (sort_insert k row sorted)) [];
  for_each sorted (λ kr _, yield kr.2) tt.
End ExternalSort_model.

(** A graph of every builder and the inputs of a run that lacks [docs]. *)
Definition sample_graph : graph.Graph :=
  graph.join
    (graph.reduce
       (graph.sort (graph.map (graph.graph_from_iter "docs") yield) ["doc"])
       (Count "n") ["doc"])
    (InnerJoiner elements "_1" "_2")
    (graph.graph_from_iter "other") ["doc"].

Definition sample_kwargs : gmap string (stream TRow) :=
  {[ "other" := ([ {["doc" := VInt 1]} ], None) ]}.

(** A step of a mapper that leaves the first [n] row objects as they are and
    in place, and whose value satisfies [Q]. *)
Definition keeps {A : Type} (n : nat) (m : H A) (Q : A → Prop) : Prop :=
  ∀ σ, (n ≤ length σ)%nat →
    take n (m σ).2 = take n σ ∧ (n ≤ length (m σ).2)%nat ∧
    ∀ a, (m σ).1.2 = Ok a → Q a.

(** A mapper that, run to its end, leaves every row object there was, the
    one it is given among them, as it was. *)
Definition read_only (mapper : nat → H unit) : Prop :=
  ∀ σ row, take (length σ) (mapper row σ).2 = σ.

(** A store of one row object, with punctuation and upper case. *)
Definition punct_heap : heap := [ {["text" := VStr "Hello, World!"]} ].


(** ** Reducers on integer columns *)

(** Every row holds an integer in the column. *)
Definition int_column (col : string) (rows : list TRow) : Prop :=
  Forall (λ r, ∃ z, r !! col = Some (VInt z)) rows.

(** The sum of the integers the rows hold in the column. *)
Definition column_total (col : string) (rows : list TRow) : Z :=
  foldr Z.add 0 (int_at col <$> rows).

(** How a loop over a stream ends once its items are used up. *)
Definition fin_result (fin : option exn) : result unit :=
  match fin with None => Ok tt | Some e => Raise e end.

(** The row [Sum] makes of a group. *)
Definition sum_row (col : string) (keys : list string) (g : list TRow) : TRow :=
  <[col := VInt (column_total col g)]> (project keys (default ∅ (head g))).

(** The first row of each group. *)
Definition first_rows (gs : list (list TRow)) : list TRow := gs ≫= take 1.

(** The first of the keys that the row lacks. *)
Definition first_missing (keys : list string) (row : TRow) : option string :=
  head (filter (λ k, row !! k = None) keys).

(** The reducers of [reduce.py] modelled here.  Each reads its group with a
    plain [for] loop and has no [try] statement, so an exception raised by
    the iteration of the group is not handled by the reducer. *)
Inductive library_reducer : Reducer → Prop :=
  | library_FirstReducer : library_reducer FirstReducer
  | library_TopN val_lt heappush heappop column_max n :
      library_reducer (TopN val_lt heappush heappop column_max n)
  | library_TermFrequency words_column result_column :
      library_reducer (TermFrequency words_column result_column)
  | library_Count column : library_reducer (Count column)
  | library_Index column : library_reducer (Index column)
  | library_Sum column : library_reducer (Sum column)
  | library_Mean column : library_reducer (Mean column).

(** ** Mappers *)

(** [str.isascii()]: every character of the string is below 128. *)
Fixpoint isascii (s : string) : bool :=
  match s with
  | EmptyString => true
  | String c s' => (nat_of_ascii c <? 128)%nat && isascii s'
  end.

(** The columns of a row outside [columns]. *)
Definition remove_columns (columns : list string) (row : TRow) : TRow :=
  filter (λ kv, kv.1 ∉ columns) row.

(** The row holds an integer in each of the columns. *)
Definition int_column_of (row : TRow) (columns : list string) : Prop :=
  Forall (λ c, ∃ z, row !! c = Some (VInt z)) columns.

(** An instance of [*]: the product of two integers. *)
Definition int_mul (x y : val) : result val :=
  match x, y with
  | VInt a, VInt b => Ok (VInt (a * b))
  | _, _ => Raise TypeError
  end.

(** A store of one row object with three integer columns. *)
Definition product_heap : heap := [ {["a" := VInt 2; "b" := VInt 3; "c" := VInt 7]} ].

(** ** Split with the default separator *)

(** The tokens of a text, read off its characters: a white-space character
    or a plus sign closes the token at hand, which may be empty, and what
    follows the last of them is a token unless it is empty. *)
Fixpoint default_tokens (text : string) : list string :=
  match text with
  | EmptyString => []
  | String c text' =>
      if is_separator c then EmptyString :: default_tokens text'
      else match default_tokens text' with
           | [] => [String c EmptyString]
           | tok :: toks => String c tok :: toks
           end
  end.

Fixpoint has_separator (s : string) : bool :=
  match s with
  | EmptyString => false
  | String c s' => is_separator c || has_separator s'
  end.

(** A span moved one character to the right. *)
Definition shift_span (p : nat * nat) : nat * nat := (S p.1, S p.2).

(** ** Map *)

(** Two mappers in a row: the second is run on what the first yields for a
    row, as the rows come. *)
Definition compose_mappers (f g : Mapper) : Mapper := λ row, Map g (generator (f row)).

(** The condition answers [True] on the row. *)
Definition holds (condition : TRow → result bool) (row : TRow) : Prop :=
  condition row = Ok true.

#[global] Instance holds_dec condition row : Decision (holds condition row).
Proof.
  unfold holds. destruct (condition row) as [[]|e].
  - by left.
  - by right.
  - by right.
Defined.

(** ** Graphs *)

(** The names of the inputs a graph reads: those of its [ReadIterFactory]
    nodes. *)
Fixpoint sources (g : graph.Graph) : list string :=
  match g with
  | graph.Build_Graph op prev next =>
      match op with
      | Some (graph.OpReadIterFactory name) => [name]
      | _ => []
      end
      ++ match prev with Some p => sources p | None => [] end
      ++ match next with Some n => sources n | None => [] end
  end.

(** ** Word count *)

(** What the graphs need of the sort, which is not among the sources: on
    rows that carry the keys, with totally ordered key columns, it ends
    normally and yields the rows in ascending order of their key tuples. *)
Definition sorts (val_lt : val → val → result bool)
    (ExternalSort : list string → stream TRow → G unit) : Prop :=
  ∀ keys rows, Forall (has_keys keys) rows → columns_ordered val_lt keys rows →
    ∃ out, ExternalSort keys (rows, None) = (out, Ok tt) ∧
           out ≡ₚ rows ∧ sorted_by val_lt keys out.

(** Every row holds a string in the column. *)
Definition string_column (column : string) (rows : list TRow) : Prop :=
  Forall (λ d, ∃ s, d !! column = Some (VStr s)) rows.

(** The string a row holds in a column, empty when there is none. *)
Definition text_of (column : string) (row : TRow) : string :=
  match row !! column with
  | Some (VStr s) => s
  | _ => EmptyString
  end.

(** The texts of the column are ASCII text. *)
Definition ascii_column (column : string) (rows : list TRow) : Prop :=
  Forall (λ d, isascii (text_of column d) = true) rows.

(** The words of the documents: the tokens of each text once its
    punctuation is removed and it is put in lower case. *)
Definition words_of (text_column : string) (docs : list TRow) : list string :=
  docs ≫= λ d, default_tokens (lower (remove_punctuation (text_of text_column d))).

(** The row of a word: the word and how many times it occurs. *)
Definition word_row (text_column count_column : string) (words : list string)
    (w : string) : TRow :=
  <[count_column := VInt (Z.of_nat (length (filter (λ x, x = w) words)))]>
    {[text_column := VStr w]}.

(** Pairs of a key tuple and a row in ascending order of the tuples. *)
Definition pairs_sorted (val_lt : val → val → result bool)
    (L : list (list val * TRow)) : Prop :=
  StronglySorted (λ x y, list_lt val_lt y.1 x.1 = Ok false) L.

(** Two documents and the inputs that name them [docs]. *)
Definition word_docs : list TRow :=
  [ {["doc" := VInt 1; "text" := VStr "Hello, hello world!"]};
    {["doc" := VInt 2; "text" := VStr "World."]} ].

Definition word_kwargs : gmap string (stream TRow) :=
  {[ "docs" := (word_docs, None) ]}.

(** ** The inner join as a nested loop *)

(** The rows of [rows_b] that have the key tuple of [a]. *)
Definition matches (keys : list string) (a : TRow) (rows_b : list TRow) : list TRow :=
  filter (λ b, key_tuple keys b = key_tuple keys a) rows_b.

(** For each left row in turn, the rows it makes with its matches. *)
Definition nested_loop_join (set_order : gset string → list string)
    (suffix_a suffix_b : string) (keys : list string) (rows_a rows_b : list TRow)
    : list TRow :=
  rows_a ≫= λ a, prod_row_of set_order suffix_a suffix_b keys a <$> matches keys a rows_b.
(** * Properties *)

(** ** Generators *)

Lemma G_bind_pure {A B : Type} (a : A) (f : A → G B) : (([], Ok a) : G A) ≫= f = f a.
Proof. unfold mbind, G_bind. simpl. by destruct (f a). Qed.

Lemma G_bind_ret {A B : Type} (a : A) (f : A → G B) : mret a ≫= f = f a.
Proof. apply G_bind_pure. Qed.

Lemma G_bind_lift_ok {A B : Type} (a : A) (f : A → G B) : lift (Ok a) ≫= f = f a.
Proof. apply G_bind_pure. Qed.

Lemma getitem_Some (row : TRow) k v : row !! k = Some v → getitem row k = ([], Ok v).
Proof. intros H. unfold getitem, row_get. by rewrite H. Qed.


Lemma G_bind_ret_r {A : Type} (m : G A) : m ≫= (λ a, mret a) = m.
Proof.
  destruct m as [l [a|e]]; unfold mbind, G_bind; simpl; [|done].
  by rewrite app_nil_r.
Qed.

Lemma G_bind_yields {A B : Type} (l : list TRow) (a : A) (f : A → G B) :
  ((l, Ok a) : G A) ≫= f = (l ++ (f a).1, (f a).2).
Proof. done. Qed.

Lemma G_bind_ext {A B : Type} (m : G A) (f g : A → G B) :
  (∀ a, f a = g a) → m ≫= f = m ≫= g.
Proof. intros H. unfold mbind, G_bind. destruct m.2; [|done]. by rewrite H. Qed.

Lemma G_bind_unit_r (m : G unit) : m ≫= (λ _, mret tt) = m.
Proof.
  destruct m as [l [[]|e]]; unfold mbind, G_bind; simpl; [|done].
  by rewrite app_nil_r.
Qed.

Lemma row_get_Some (row : TRow) k v : row !! k = Some v → row_get row k = Ok v.
Proof. intros H. unfold row_get. by rewrite H. Qed.
(** ** Orders *)

Section total_order.
Context {A : Type} `{EqDecision A} (lt : A → A → result bool) (P : A → Prop).
Context (Hord : total_order_on lt P).

Lemma ord_asym x y : P x → P y → lt x y = Ok true → lt y x = Ok false.
  Proof.
    intros Hx Hy H. destruct Hord as (Hd & Hi & Ht & _).
    destruct (Hd y x Hy Hx) as [[] Hb]; [|done].
    pose proof (Ht x y x Hx Hy Hx H Hb) as Hxx. rewrite Hi in Hxx; congruence.
  Qed.

Lemma ord_antisym x y : P x → P y → lt x y = Ok false → lt y x = Ok false → x = y.
  Proof.
    intros Hx Hy H1 H2. destruct Hord as (_ & _ & _ & Htot).
    destruct (decide (x = y)) as [|Hne]; [done|].
    destruct (Htot x y Hx Hy Hne); congruence.
  Qed.

Lemma ord_le_trans x y z : P x → P y → P z →
    lt y x = Ok false → lt z y = Ok false → lt z x = Ok false.
  Proof.
    intros Hx Hy Hz H1 H2. pose proof Hord as (Hd & Hi & Ht & Htot).
    destruct (Hd z x Hz Hx) as [[] Hb]; [|done]. exfalso.
    destruct (decide (x = y)) as [->|Hne]; [congruence|].
    destruct (Htot x y Hx Hy Hne) as [H|H]; [|congruence].
    pose proof (Ht z x y Hz Hx Hy Hb H). congruence.
  Qed.
End total_order.

Section list_order.
Context (val_lt : val → val → result bool).

Lemma list_lt_total_order (Ps : list (val → Prop)) :
    Forall (total_order_on val_lt) Ps →
    total_order_on (list_lt val_lt) (tuple_in Ps).
  Proof.
    induction 1 as [|P Ps HP _ IH].
    - split_and!.
      + intros x y ->%Forall2_nil_inv_l ->%Forall2_nil_inv_l. by eexists.
      + by intros x ->%Forall2_nil_inv_l.
      + by intros x y z ->%Forall2_nil_inv_l ->%Forall2_nil_inv_l.
      + by intros x y ->%Forall2_nil_inv_l ->%Forall2_nil_inv_l.
    - destruct IH as (Hd & Hi & Ht & Htot).
      pose proof HP as (Pd & Pi & Pt & Ptot).
      split_and!.
      + intros x y (a & x' & Ha & Hx & ->)%Forall2_cons_inv_l
                   (b & y' & Hb & Hy & ->)%Forall2_cons_inv_l.
        simpl. case_decide; [by apply Hd|by apply Pd].
      + intros x (a & x' & Ha & Hx & ->)%Forall2_cons_inv_l.
        simpl. rewrite decide_True by done. by apply Hi.
      + intros x y z (a & x' & Ha & Hx & ->)%Forall2_cons_inv_l
                     (b & y' & Hb & Hy & ->)%Forall2_cons_inv_l
                     (c & z' & Hc & Hz & ->)%Forall2_cons_inv_l.
        simpl.
        destruct (decide (a = b)) as [->|Hab], (decide (b = c)) as [->|Hbc];
          try (destruct (decide (a = c)) as [->|Hac]); try done.
        * by apply Ht.
        * intros H1 H2. pose proof (Pt _ _ _ Hc Hb Hc H1 H2) as Hcc.
          rewrite Pi in Hcc; congruence.
        * by apply Pt.
      + intros x y (a & x' & Ha & Hx & ->)%Forall2_cons_inv_l
                   (b & y' & Hb & Hy & ->)%Forall2_cons_inv_l Hne.
        simpl. destruct (decide (a = b)) as [->|Hab].
        * rewrite decide_True by done. apply Htot; [done|done|congruence].
        * rewrite (decide_False (P := b = a)) by congruence. by apply Ptot.
  Qed.
End list_order.

Lemma key_tuple_in keys rows r :
  r ∈ rows → has_keys keys r →
  tuple_in ((λ k, column_values k rows) <$> keys) (key_tuple keys r).
Proof.
  intros Hr Hk. unfold tuple_in, key_tuple.
  induction Hk as [|k keys [v Hv] _ IH]; [constructor|].
  cbn. constructor; [|done]. rewrite Hv. by exists r.
Qed.

Lemma columns_ordered_tuples val_lt keys rows :
  columns_ordered val_lt keys rows →
  total_order_on (list_lt val_lt) (tuple_in ((λ k, column_values k rows) <$> keys)).
Proof.
  intros H. apply list_lt_total_order. by apply Forall_fmap.
Qed.


Lemma py_lt_total_order_int (P : val → Prop) :
  (∀ v, P v → ∃ z, v = VInt z) → total_order_on py_lt P.
Proof.
  intros Hint. split_and!.
  - intros x y [a ->]%Hint [b ->]%Hint. simpl. eauto.
  - intros x [a ->]%Hint. simpl. f_equal. lia.
  - intros x y z [a ->]%Hint [b ->]%Hint [c ->]%Hint. simpl. intros ??; simplify_eq. f_equal. lia.
  - intros x y [a ->]%Hint [b ->]%Hint Hne. simpl.
    destruct (Z.lt_trichotomy a b) as [?|[->|?]]; [left|done|right]; f_equal; lia.
Qed.
(** ** TopN *)

(** C10: on a non-empty group whose first row carries the ranked column,
    [TopN(col, 0)] yields nothing and raises [IndexError] while it handles
    the first row: the heap is empty, so it is not shorter than [n = 0], and
    [sorted_lst[0]] is out of range. *)
Theorem TopN_zero_raises_IndexError
    (val_lt : val → val → result bool)
    (heappush : list heap_el → heap_el → G (list heap_el))
    (heappop : list heap_el → G (heap_el * list heap_el))
    (col : string) (group_key : list string)
    (row : TRow) (rows : list TRow) (fin : option exn) :
  is_Some (row !! col) →
  TopN val_lt heappush heappop col 0 group_key (row :: rows, fin) = ([], Raise IndexError).
Proof.
  intros [v Hv]. unfold TopN, for_in. cbn [fst snd for_each].
  unfold TopN_step. rewrite (getitem_Some _ _ _ Hv). reflexivity.
Qed.

Lemma TopN_zero_raises_IndexError_witness :
  TopN py_lt (sorted_push py_lt) sorted_pop "x" 0 [] (tie_group, None)
  = ([], Raise IndexError).
Proof.
  apply TopN_zero_raises_IndexError. rewrite lookup_singleton_eq. by eexists.
Defined.

Section order.
Context (val_lt : val → val → result bool) (P : val → Prop).
Context (Hord : total_order_on val_lt P).

Lemma el_lt_defined x y : okel P x → okel P y → ∃ b, el_lt val_lt x y = Ok b.
  Proof.
    intros Hx Hy. unfold el_lt. case_decide; [eauto|]. by apply Hord.
  Qed.

Lemma el_lt_irrefl x : el_lt val_lt x x = Ok false.
  Proof. unfold el_lt. rewrite decide_True by done. f_equal. lia. Qed.

Lemma val_lt_asym x y : P x → P y → val_lt x y = Ok true → val_lt y x = Ok false.
  Proof.
    intros Hx Hy H. destruct Hord as (Hd & Hi & Ht & Htot).
    destruct (Hd y x Hy Hx) as [[] Hb]; [|done].
    pose proof (Ht x y x Hx Hy Hx H Hb) as Hxx. rewrite Hi in Hxx; congruence.
  Qed.

Lemma el_lt_trans x y z : okel P x → okel P y → okel P z →
    el_lt val_lt x y = Ok true → el_lt val_lt y z = Ok true → el_lt val_lt x z = Ok true.
  Proof.
    intros Hx Hy Hz. destruct Hord as (Hd & Hi & Ht & Htot). unfold el_lt.
    destruct x as [[xv xi] xr], y as [[yv yi] yr], z as [[zv zi] zr]; simpl in *.
    unfold okel in *; simpl in *.
    intros Hxy Hyz.
    destruct (decide (xv = yv)) as [->|Hxy'], (decide (yv = zv)) as [->|Hyz'];
      try (destruct (decide (xv = zv)) as [->|Hxz']); simplify_eq; try done.
    - f_equal. lia.
    - pose proof (Ht _ _ _ Hz Hy Hz Hxy Hyz) as Hzz. rewrite Hi in Hzz; congruence.
    - eauto.
  Qed.

Lemma el_lt_total x y : okel P x → okel P y →
    el_lt val_lt x y = Ok true ∨ el_lt val_lt y x = Ok true ∨ x.1 = y.1.
  Proof.
    intros Hx Hy. destruct Hord as (Hd & Hi & Ht & Htot). unfold el_lt.
    destruct x as [[xv xi] xr], y as [[yv yi] yr]; simpl in *.
    unfold okel in *; simpl in *.
    destruct (decide (xv = yv)) as [->|Hne].
    - rewrite decide_True by done.
      destruct (Z.lt_trichotomy xi yi) as [?|[->|?]].
      + left. f_equal. lia.
      + right; right. done.
      + right; left. f_equal. lia.
    - rewrite (decide_False (P:=yv = xv)) by congruence.
      destruct (Htot xv yv Hx Hy Hne); auto.
  Qed.

Lemma el_lt_asym x y : okel P x → okel P y →
    el_lt val_lt x y = Ok true → el_lt val_lt y x = Ok false.
  Proof.
    intros Hx Hy H. destruct (el_lt_defined y x Hy Hx) as [[] Hb]; [|done].
    pose proof (el_lt_trans _ _ _ Hx Hy Hx H Hb) as Hxx.
    rewrite el_lt_irrefl in Hxx. congruence.
  Qed.

Lemma el_lt_key x x' y : x.1 = x'.1 → el_lt val_lt x y = el_lt val_lt x' y.
  Proof. unfold el_lt. by intros ->. Qed.

Lemma el_lt_key_r x y y' : y.1 = y'.1 → el_lt val_lt x y = el_lt val_lt x y'.
  Proof. unfold el_lt. by intros ->. Qed.

  (** [≤] is transitive *)
Lemma el_le_trans x y z : okel P x → okel P y → okel P z →
    el_lt val_lt y x = Ok false → el_lt val_lt z y = Ok false → el_lt val_lt z x = Ok false.
  Proof.
    intros Hx Hy Hz H1 H2.
    destruct (el_lt_defined z x Hz Hx) as [[] Hb]; [|done]. exfalso.
    destruct (el_lt_total x y Hx Hy) as [H|[H|H]].
    - pose proof (el_lt_trans _ _ _ Hz Hx Hy Hb H). congruence.
    - congruence.
    - rewrite (el_lt_key_r z x y H) in Hb. congruence.
  Qed.

Lemma el_lt_le_trans x y z : okel P x → okel P y → okel P z →
    el_lt val_lt x y = Ok true → el_lt val_lt z y = Ok false → el_lt val_lt x z = Ok true.
  Proof.
    intros Hx Hy Hz H1 H2.
    destruct (el_lt_total y z Hy Hz) as [H|[H|H]].
    - by apply (el_lt_trans x y z).
    - congruence.
    - by rewrite <-(el_lt_key_r x y z H).
  Qed.

End order.

Lemma for_each_yield_all {A : Type} (f : A → TRow) (l : list A) :
  for_each l (λ a _, yield (f a)) tt = (f <$> l, Ok tt).
Proof.
  induction l as [|a l IH]; [done|]. cbn [for_each].
  unfold mbind, G_bind, yield in *. cbn [fst snd]. rewrite IH. reflexivity.
Qed.

Section topn.
Context (val_lt : val → val → result bool).
Context (heappush : list heap_el → heap_el → G (list heap_el)).
Context (heappop : list heap_el → G (heap_el * list heap_el)).
Context (col : string) (n : Z) (P : val → Prop).
Context (Hn : 1 ≤ n).
Context (Hord : total_order_on val_lt P).
Context (inv : list heap_el → Prop).
Context (Hnil : inv []).
Context (Hpush : ∀ h x, inv h → Forall (λ e, P e.1.1) (x :: h) →
         ∃ h', heappush h x = ([], Ok h') ∧ inv h' ∧ h' ≡ₚ x :: h).
Context (Hpop : ∀ m t, inv (m :: t) → Forall (λ e, P e.1.1) (m :: t) →
         ∃ h', heappop (m :: t) = ([], Ok (m, h')) ∧ inv h' ∧ h' ≡ₚ t).
Context (Hfirst : ∀ m t, inv (m :: t) → Forall (λ e, P e.1.1) (m :: t) →
         ∀ x, x ∈ t → el_lt val_lt x m = Ok false).

Lemma TopN_el_elem seen e :
    e ∈ imap (TopN_el col) seen → ∃ j r, seen !! j = Some r ∧ e = TopN_el col j r.
  Proof.
    intros He. apply list_elem_of_lookup in He as [j Hj].
    rewrite list_lookup_imap in Hj.
    destruct (seen !! j) as [r|] eqn:Hr; simplify_eq/=. eauto.
  Qed.

Lemma TopN_el_okel seen e :
    Forall (has_col col P) seen → e ∈ imap (TopN_el col) seen → okel P e.
  Proof.
    intros Hs He. apply TopN_el_elem in He as (j & r & Hr & ->).
    eapply Forall_lookup_1 in Hs as (v & Hv & HP); [|done].
    unfold okel, TopN_el. simpl. by rewrite Hv.
  Qed.

Lemma TopN_el_idx_lt seen e :
    e ∈ imap (TopN_el col) seen → - Z.of_nat (length seen) < e.1.2.
  Proof.
    intros He. apply TopN_el_elem in He as (j & r & Hr & ->).
    apply lookup_lt_Some in Hr. simpl. lia.
  Qed.

Lemma TopN_el_NoDup seen : NoDup ((λ e : heap_el, e.1.2) <$> imap (TopN_el col) seen).
  Proof.
    apply NoDup_alt. intros i j z Hi Hj.
    rewrite list_lookup_fmap, list_lookup_imap in Hi, Hj.
    destruct (seen !! i) eqn:?, (seen !! j) eqn:?; simplify_eq/=. lia.
  Qed.

Lemma topn_inv_facts seen h rest :
    Forall (has_col col P) seen → h ++ rest ≡ₚ imap (TopN_el col) seen →
    Forall (okel P) h ∧ Forall (okel P) rest ∧
    NoDup ((λ e : heap_el, e.1.2) <$> h) ∧
    (∀ x, x ∈ h ++ rest → - Z.of_nat (length seen) < x.1.2) ∧
    (length h + length rest = length seen)%nat.
  Proof.
    intros Hs Hp.
    assert (∀ x, x ∈ h ++ rest → x ∈ imap (TopN_el col) seen) as Hin.
    { intros x Hx. by rewrite <-Hp. }
    split_and!.
    - apply Forall_forall. intros x Hx. eapply TopN_el_okel; [done|]. apply Hin. set_solver.
    - apply Forall_forall. intros x Hx. eapply TopN_el_okel; [done|]. apply Hin. set_solver.
    - pose proof (TopN_el_NoDup seen) as Hnd. rewrite <-Hp, fmap_app in Hnd.
      by apply NoDup_app in Hnd as [? _].
    - intros x Hx. apply TopN_el_idx_lt. by apply Hin.
    - apply Permutation_length in Hp. rewrite length_app, length_imap in Hp. done.
  Qed.

Lemma TopN_step_inv seen h r :
    Forall (has_col col P) seen → has_col col P r → topn_inv val_lt col n inv seen h →
    ∃ h', TopN_step val_lt heappush heappop col n r (h, Z.of_nat (length seen))
            = ([], Ok (h', Z.of_nat (length (seen ++ [r])))) ∧
          topn_inv val_lt col n inv (seen ++ [r]) h'.
  Proof.
    intros Hs (v & Hv & HPv) (Hheap & rest & Hperm & Hlen & Hdom).
    destruct (topn_inv_facts seen h rest Hs Hperm) as (Hokh & Hokr & Hnd & Hidx & Hlens).
    set (e := TopN_el col (length seen) r).
    assert (e = (v, - Z.of_nat (length seen), r)) as He.
    { unfold e, TopN_el. by rewrite Hv. }
    assert (okel P e) as Hoke by (rewrite He; done).
    assert (imap (TopN_el col) (seen ++ [r]) = imap (TopN_el col) seen ++ [e]) as Himap.
    { rewrite imap_app. simpl. unfold e. by rewrite Nat.add_0_r. }
    assert (Z.of_nat (length (seen ++ [r])) = Z.of_nat (length seen) + 1) as Hl1.
    { rewrite length_app. simpl. lia. }
    unfold TopN_step. rewrite (getitem_Some _ _ _ Hv), G_bind_pure. rewrite <-He.
    destruct (Z.ltb_spec (Z.of_nat (length h)) n) as [Hlt|Hge].
    - (* the heap is not full *)
      destruct (Hpush h e Hheap) as (h' & -> & Hheap' & Hperm').
      { by constructor. }
      rewrite G_bind_pure. exists h'. split; [by rewrite Hl1|].
      assert (rest = []) as ->.
      { apply length_zero_iff_nil. lia. }
      split; [done|]. exists []. split_and!.
      + rewrite Himap, app_nil_r, Hperm', <-Hperm, app_nil_r. apply Permutation_cons_append.
      + rewrite Hperm'. rewrite length_app. simpl. lia.
      + intros x y _ Hy. by apply elem_of_nil in Hy.
    - (* the heap is full *)
      destruct h as [|m t]; [simpl in Hge; lia|].
      change (list_getitem (m :: t) 0) with (([], Ok m) : G heap_el). rewrite G_bind_pure.
      assert (okel P m) as Hokm by (by inversion Hokh).
      assert (∀ x, x ∈ t → el_lt val_lt m x = Ok true) as Hmin.
      { intros x Hx.
        assert (okel P x) as Hokx.
        { eapply Forall_forall; [exact Hokh|]. by right. }
        pose proof (Hfirst m t Hheap Hokh x Hx) as Hxm.
        destruct (el_lt_total val_lt P Hord m x Hokm Hokx) as [H|[H|H]]; [done|congruence|].
        exfalso. simpl in Hnd. apply NoDup_cons in Hnd as [Hnotin _].
        apply Hnotin. apply list_elem_of_fmap. exists x. split; [by rewrite H|done]. }
      assert (∀ x, x ∈ m :: t ++ rest → el_lt val_lt e x = Ok true ∨ val_lt x.1.1 v = Ok true)
        as Hnew.
      { intros x Hx. pose proof (Hidx x Hx) as Hix.
        assert (okel P x) as Hokx.
        { eapply TopN_el_okel; [done|]. by rewrite <-Hperm. }
        destruct (decide (v = x.1.1)) as [Heq|Hne].
        - left. unfold el_lt. rewrite He. simpl. rewrite decide_True by done.
          f_equal. lia.
        - destruct Hord as (_ & _ & _ & Htot).
          destruct (Htot v x.1.1 HPv Hokx Hne) as [H|H]; [|by right].
          left. unfold el_lt. rewrite He. simpl. by rewrite decide_False. }
      pose proof Hord as (Hdef & Hirr & _ & _).
      destruct (Hdef m.1.1 v Hokm HPv) as [gt Hgt]. rewrite Hgt, G_bind_lift_ok.
      assert (length (m :: t) = Z.to_nat n) as Hfull.
      { simpl in *. lia. }
      destruct gt.
      + (* the new row beats the smallest one *)
        destruct (Hpop m t Hheap Hokh) as (h1 & -> & Hheap1 & Hperm1).
        rewrite G_bind_pure. simpl snd.
        destruct (Hpush h1 e Hheap1) as (h2 & -> & Hheap2 & Hperm2).
        { constructor; [done|]. rewrite Hperm1. by inversion Hokh. }
        rewrite G_bind_pure. exists h2. split; [by rewrite Hl1|].
        split; [done|]. exists (m :: rest). split_and!.
        * rewrite Himap, Hperm2, Hperm1, <-Hperm. simpl.
          trans (e :: m :: t ++ rest).
          -- apply perm_skip. symmetry. apply Permutation_middle.
          -- apply (Permutation_cons_append (m :: t ++ rest) e).
        * rewrite Hperm2, length_app. simpl in *. rewrite Hperm1. lia.
        * assert (el_lt val_lt m e = Ok true) as Hme.
          { unfold el_lt. rewrite He. simpl. rewrite decide_False; [done|].
            intros Heq. rewrite Heq, Hirr in Hgt; [congruence|done]. }
          intros x y Hx Hy. rewrite Hperm2 in Hx.
          apply elem_of_cons in Hx as [->|Hx], Hy as [->|Hy].
          -- done.
          -- apply (el_lt_trans val_lt P Hord y m e); try done.
             ++ eapply Forall_forall; [exact Hokr|done].
             ++ apply Hdom; [by left|done].
          -- apply Hmin. by rewrite <-Hperm1.
          -- apply Hdom; [|done]. right. by rewrite <-Hperm1.
      + (* the new row is rejected *)
        rewrite G_bind_ret. exists (m :: t). split; [by rewrite Hl1|].
        split; [done|]. exists (rest ++ [e]). split_and!.
        * rewrite Himap, <-Hperm. by rewrite app_assoc.
        * rewrite length_app. simpl in *. lia.
        * assert (el_lt val_lt e m = Ok true) as Hem.
          { destruct (Hnew m) as [H|H]; [by left|done|]. simpl in *. congruence. }
          intros x y Hx Hy. apply elem_of_app in Hy as [Hy|Hy]; [by apply Hdom|].
          apply list_elem_of_singleton in Hy as ->.
          apply elem_of_cons in Hx as [->|Hx]; [done|].
          apply (el_lt_trans val_lt P Hord e m x); try done.
          -- eapply Forall_forall; [exact Hokh|by right].
          -- by apply Hmin.
  Qed.

Lemma TopN_loop_inv rows : ∀ seen h,
    Forall (has_col col P) seen → Forall (has_col col P) rows → topn_inv val_lt col n inv seen h →
    ∃ h', for_each rows (TopN_step val_lt heappush heappop col n) (h, Z.of_nat (length seen))
            = ([], Ok (h', Z.of_nat (length (seen ++ rows)))) ∧
          topn_inv val_lt col n inv (seen ++ rows) h'.
  Proof.
    induction rows as [|r rows IH]; intros seen h Hs Hr Hinv.
    - exists h. by rewrite app_nil_r.
    - apply Forall_cons in Hr as [Hr Hrows].
      destruct (TopN_step_inv seen h r Hs Hr Hinv) as (h1 & Hstep & Hinv1).
      destruct (IH (seen ++ [r]) h1) as (h' & Hloop & Hinv'); [|done|done|].
      { apply Forall_app. split; [done|]. by constructor. }
      rewrite <-app_assoc in Hloop, Hinv'. simpl in Hloop, Hinv'.
      exists h'. cbn [for_each]. by rewrite Hstep, G_bind_pure, Hloop.
  Qed.

Lemma topn_inv_nil : topn_inv val_lt col n inv [] [].
  Proof.
    split; [done|].
    exists []. split_and!; [done|simpl; lia|]. intros x y Hx. by apply elem_of_nil in Hx.
  Qed.
End topn.

(** C5: for [n >= 1], on a group whose rows carry the ranked column with
    totally ordered values, [TopN(col, n)] ends normally and yields the rows
    [sel] out of a split [sel ++ rest] of the rows numbered by arrival: there
    are [min n |group|] of them, so at most [n], and every row left out is
    below every row kept, by a smaller value or, at equal values, by a later
    arrival. *)
Theorem TopN_selects_largest
    (val_lt : val → val → result bool)
    (heappush : list heap_el → heap_el → G (list heap_el))
    (heappop : list heap_el → G (heap_el * list heap_el))
    (col : string) (n : Z) (group_key : list string) (rows : list TRow) :
  1 ≤ n →
  Forall (λ r, is_Some (r !! col)) rows →
  total_order_on val_lt (column_values col rows) →
  heapq_contract val_lt heappush heappop (column_values col rows) →
  ∃ sel rest : list (nat * TRow),
    TopN val_lt heappush heappop col n group_key (rows, None) = (sel.*2, Ok tt) ∧
    sel ++ rest ≡ₚ imap pair rows ∧
    length sel = Nat.min (Z.to_nat n) (length rows) ∧
    Z.of_nat (length sel) ≤ n ∧
    ∀ i r j r', (i, r) ∈ sel → (j, r') ∈ rest →
      ∃ v v', r !! col = Some v ∧ r' !! col = Some v' ∧
        (val_lt v' v = Ok true ∨ (v' = v ∧ (i < j)%nat)).
Proof.
  intros Hn Hcol Hord (inv & Hnil & Hpush & Hpop & Hfirst).
  assert (Forall (has_col col (column_values col rows)) rows) as Hrows.
  { apply Forall_forall. intros r Hr.
    eapply Forall_forall in Hcol as [v Hv]; [|done].
    exists v. split; [done|]. by exists r. }
  destruct (TopN_loop_inv val_lt heappush heappop col n _ Hn Hord inv Hnil Hpush Hpop Hfirst
              rows [] [] (Forall_nil_2 _) Hrows (topn_inv_nil val_lt col n Hn inv Hnil))
    as (h & Hloop & Hheap & resth & Hperm & Hlen & Hdom).
  change (Z.of_nat (length (@nil TRow))) with 0 in Hloop. simpl in Hloop, Hperm, Hlen.
  set (conv := λ e : heap_el, (Z.to_nat (- e.1.2), e.2)).
  assert (conv <$> imap (TopN_el col) rows = imap pair rows) as Hconv.
  { rewrite fmap_imap. apply imap_ext. intros i r _. unfold conv. simpl. f_equal. lia. }
  exists (conv <$> h), (conv <$> resth). split_and!.
  - unfold TopN, for_in. simpl fst. simpl snd. rewrite Hloop, G_bind_pure, G_bind_ret.
    cbn [fst]. rewrite (for_each_yield_all (λ e : heap_el, e.2)). f_equal.
    rewrite <-list_fmap_compose. done.
  - by rewrite <-fmap_app, Hperm, Hconv.
  - by rewrite length_fmap.
  - rewrite length_fmap. lia.
  - intros i r j r' Hsel Hrest.
    apply list_elem_of_fmap in Hsel as (x & Hx & Hxh).
    apply list_elem_of_fmap in Hrest as (y & Hy & Hyr).
    pose proof (Hdom x y Hxh Hyr) as Hlt.
    assert (x ∈ imap (TopN_el col) rows) as Hxi by (rewrite <-Hperm; set_solver).
    assert (y ∈ imap (TopN_el col) rows) as Hyi by (rewrite <-Hperm; set_solver).
    apply TopN_el_elem in Hxi as (i0 & r0 & Hr0 & ->).
    apply TopN_el_elem in Hyi as (j0 & r1 & Hr1 & ->).
    unfold conv in Hx, Hy. simpl in Hx, Hy. simplify_eq.
    rewrite !Z.opp_involutive, !Nat2Z.id in *.
    pose proof (Forall_lookup_1 _ _ _ _ Hcol Hr0) as [v Hv].
    pose proof (Forall_lookup_1 _ _ _ _ Hcol Hr1) as [v' Hv'].
    exists v, v'. split_and!; [done|done|].
    unfold el_lt, TopN_el in Hlt. simpl in Hlt. rewrite Hv, Hv' in Hlt. simpl in Hlt.
    case_decide; [right|by left]. split; [done|]. simplify_eq. lia.
Qed.


Section sorted_heapq.
Context (val_lt : val → val → result bool) (P : val → Prop).
Context (Hord : total_order_on val_lt P).

Lemma sorted_push_spec h x :
    StronglySorted (el_le val_lt) h → Forall (okel P) (x :: h) →
    ∃ h', sorted_push val_lt h x = ([], Ok h') ∧ StronglySorted (el_le val_lt) h' ∧ h' ≡ₚ x :: h.
  Proof.
    intros Hs Hok. apply Forall_cons in Hok as [Hx Hok].
    induction Hs as [|y h Hs IH Hy]; cbn [sorted_push].
    - exists [x]. split_and!; [done|repeat constructor|done].
    - apply Forall_cons in Hok as [Hoky Hok].
      destruct (el_lt_defined val_lt P Hord x y Hx Hoky) as [b Hb].
      rewrite Hb, G_bind_lift_ok. destruct b.
      + exists (x :: y :: h). split_and!; [done| |done].
        constructor; [by constructor|].
        pose proof (el_lt_asym val_lt P Hord x y Hx Hoky Hb) as Hyx.
        constructor; [done|].
        apply Forall_forall. intros z Hz.
        assert (okel P z) by (eapply Forall_forall; [exact Hok|done]).
        eapply Forall_forall in Hy; [|done].
        by apply (el_le_trans val_lt P Hord x y z).
      + destruct (IH Hok) as (h' & -> & Hs' & Hp'). rewrite G_bind_pure.
        exists (y :: h'). split_and!; [done| |].
        * constructor; [done|]. rewrite Hp'. by constructor.
        * rewrite Hp'. apply perm_swap.
  Qed.

Lemma sorted_heapq_contract :
    heapq_contract val_lt (sorted_push val_lt) sorted_pop P.
  Proof.
    exists (StronglySorted (el_le val_lt)). split_and!.
    - constructor.
    - apply sorted_push_spec.
    - intros m t Hs _. exists t. split_and!; [done| |done]. by inversion Hs.
    - intros m t Hs _ x Hx. inversion Hs as [|?? _ Hm]; subst.
      by eapply Forall_forall in Hm.
  Qed.
End sorted_heapq.

Lemma tie_group_ints v : column_values "x" tie_group v → ∃ z, v = VInt z.
Proof.
  intros (r & Hr & Hv). unfold tie_group in Hr.
  repeat (apply elem_of_cons in Hr as [->|Hr]; [rewrite lookup_singleton_eq in Hv; simplify_eq; eauto|]).
  by apply elem_of_nil in Hr.
Qed.

Lemma TopN_selects_largest_witness :
  ∃ sel rest : list (nat * TRow),
    TopN py_lt (sorted_push py_lt) sorted_pop "x" 2 [] (tie_group, None) = (sel.*2, Ok tt) ∧
    sel ++ rest ≡ₚ imap pair tie_group ∧
    length sel = Nat.min (Z.to_nat 2) (length tie_group) ∧
    Z.of_nat (length sel) ≤ 2 ∧
    ∀ i r j r', (i, r) ∈ sel → (j, r') ∈ rest →
      ∃ v v', r !! "x" = Some v ∧ r' !! "x" = Some v' ∧
        (py_lt v' v = Ok true ∨ (v' = v ∧ (i < j)%nat)).
Proof.
  apply TopN_selects_largest.
  - lia.
  - unfold tie_group. repeat constructor; rewrite lookup_singleton_eq; eauto.
  - apply py_lt_total_order_int, tie_group_ints.
  - apply sorted_heapq_contract, py_lt_total_order_int, tie_group_ints.
Defined.
(** ** Reduce *)




Lemma mapM_row_get keys row :
  has_keys keys row → mapM (row_get row) keys = Ok (key_tuple keys row).
Proof.
  induction 1 as [|k keys [v Hv] _ IH]; [done|].
  cbn. rewrite (row_get_Some _ _ _ Hv). cbn. rewrite IH. cbn.
  unfold key_tuple. cbn. by rewrite Hv.
Qed.

Lemma safe_itemgetter_key_of keys row :
  has_keys keys row → safe_itemgetter keys row = Ok (key_of keys row).
Proof.
  intros Hk. unfold key_of.
  destruct keys as [|k [|k' keys]]; [done| |].
  - apply Forall_cons in Hk as [[v Hv] _]. simpl. by rewrite (row_get_Some _ _ _ Hv).
  - unfold safe_itemgetter. by rewrite (mapM_row_get _ _ Hk).
Qed.

Lemma key_of_eq_iff keys r r' :
  has_keys keys r → has_keys keys r' →
  key_of keys r = key_of keys r' ↔ key_tuple keys r = key_tuple keys r'.
Proof.
  intros Hr Hr'. unfold key_of.
  destruct keys as [|k [|k' keys]]; [done| |].
  - apply Forall_cons in Hr as [[v Hv] _]. apply Forall_cons in Hr' as [[v' Hv'] _].
    simpl. rewrite (row_get_Some _ _ _ Hv), (row_get_Some _ _ _ Hv'). cbn.
    unfold key_tuple. cbn. rewrite Hv, Hv'. simpl. split; intros; simplify_eq; done.
  - unfold safe_itemgetter. rewrite (mapM_row_get _ _ Hr), (mapM_row_get _ _ Hr'). cbn.
    split; intros H; congruence.
Qed.

Section group_runs.
Context {K : Type} `{EqDecision K} (f : TRow → K).

Lemma pull_keys_keyed (keyfunc : TRow → result K) rows fin :
    Forall (λ r, keyfunc r = Ok (f r)) rows →
    pull_keys keyfunc rows fin = (keyed f rows, fin).
  Proof.
    induction 1 as [|r rows Hr _ IH]; [done|]. cbn. by rewrite Hr, IH.
  Qed.

Lemma group_runs_spec rows :
    let gs := group_runs (keyed f rows) in
    concat gs.*2 = rows ∧
    Forall (λ kg, kg.2 ≠ [] ∧ Forall (λ r, f r = kg.1) kg.2) gs ∧
    (∀ k g, head gs = Some (k, g) → ∃ r, head rows = Some r ∧ head g = Some r) ∧
    (∀ i kg kg', gs !! i = Some kg → gs !! S i = Some kg' → kg.1 ≠ kg'.1).
  Proof.
    induction rows as [|r rows IH]; simpl.
    - split_and!; [done|done|done|]. intros i ??. by rewrite lookup_nil.
    - destruct IH as (Hcat & Hall & Hhd & Hadj).
      destruct (group_runs (keyed f rows)) as [|[k' g] gs] eqn:Hgs.
      + simpl in Hcat. subst rows. split_and!; [done| |naive_solver|].
        * repeat constructor; done.
        * intros [|i] ??; by rewrite ?lookup_nil.
      + case_decide as Hk.
        * subst k'. apply Forall_cons in Hall as [[Hne Hg] Hall]. simpl in *.
          split_and!.
          -- by rewrite <-Hcat.
          -- constructor; [|done]. simpl. split; [done|]. by constructor.
          -- intros ?? [= <- <-]. eauto.
          -- intros [|i] kg kg' H1 H2; simplify_eq/=.
             ++ by apply (Hadj 0%nat (f r, g) kg').
             ++ by apply (Hadj (S i) kg kg').
        * simpl in *. split_and!.
          -- by rewrite <-Hcat.
          -- constructor; [|done]. simpl. split; [done|]. by repeat constructor.
          -- intros ?? [= <- <-]. eauto.
          -- intros [|i] kg kg' H1 H2; simplify_eq/=; [done|].
             by apply (Hadj i kg kg').
  Qed.
End group_runs.

Lemma Reduce_loop_normal (reducer : Reducer) keys (gs : list (pykey * list TRow)) :
  Reduce_loop reducer keys gs None = for_each gs.*2 (λ g _, reducer keys (g, None)) tt.
Proof.
  induction gs as [|[k g] gs IH]; [done|]. cbn [Reduce_loop fmap list_fmap for_each snd].
  rewrite IH. unfold group_items.
  replace (match gs with [] => None | _ :: _ => None end) with (@None exn) by (by destruct gs).
  apply G_bind_ext. by intros [].
Qed.

Lemma Forall_has_keys_pull keys rows fin :
  Forall (has_keys keys) rows →
  pull_keys (safe_itemgetter keys) rows fin = (keyed (key_of keys) rows, fin).
Proof.
  intros H. apply pull_keys_keyed. eapply Forall_impl; [exact H|].
  intros r Hr. by apply safe_itemgetter_key_of.
Qed.

Lemma group_runs_maximal keys rows :
  Forall (has_keys keys) rows →
  maximal_runs keys rows (group_runs (keyed (key_of keys) rows)).*2.
Proof.
  intros Hk.
  destruct (group_runs_spec (key_of keys) rows) as (Hcat & Hall & _ & Hadj).
  set (gs := group_runs (keyed (key_of keys) rows)) in *.
  assert (∀ g r, g ∈ gs.*2 → r ∈ g → has_keys keys r) as Hin.
  { intros g r Hg Hr. rewrite Forall_forall in Hk. apply Hk.
    rewrite <-Hcat. apply list_elem_of_In, in_concat. exists g.
    by rewrite <-!list_elem_of_In. }
  split_and!; [done| |].
  - apply Forall_forall. intros g Hg.
    pose proof Hg as Hg'.
    apply list_elem_of_fmap in Hg as ([k g0] & -> & Hkg).
    eapply Forall_forall in Hall as [Hne Hsame]; [|done]. simpl in *.
    split; [done|]. intros r r' Hr Hr'.
    apply (key_of_eq_iff keys r r' (Hin _ _ Hg' Hr) (Hin _ _ Hg' Hr')).
    rewrite Forall_forall in Hsame. by rewrite (Hsame r), (Hsame r').
  - intros i g g' r r' Hg Hg' Hr Hr'.
    rewrite list_lookup_fmap in Hg, Hg'.
    destruct (gs !! i) as [[k g0]|] eqn:Hi; simplify_eq/=.
    destruct (gs !! S i) as [[k' g1]|] eqn:Hi'; simplify_eq/=.
    pose proof (Hadj i _ _ Hi Hi') as Hne. simpl in Hne.
    assert (g ∈ gs.*2) as Hg0.
    { apply list_elem_of_fmap. exists (k, g). split; [done|]. by eapply list_elem_of_lookup_2. }
    assert (g' ∈ gs.*2) as Hg1.
    { apply list_elem_of_fmap. exists (k', g'). split; [done|]. by eapply list_elem_of_lookup_2. }
    assert (r ∈ g) as Hrg.
    { by apply last_Some_elem_of. }
    assert (r' ∈ g') as Hrg'.
    { destruct g'; simplify_eq/=. by left. }
    intros Heq. apply (key_of_eq_iff keys r r' (Hin _ _ Hg0 Hrg) (Hin _ _ Hg1 Hrg')) in Heq.
    apply Hne.
    pose proof (Forall_lookup_1 _ _ _ _ Hall Hi) as [_ H0].
    pose proof (Forall_lookup_1 _ _ _ _ Hall Hi') as [_ H1]. simpl in *.
    rewrite Forall_forall in H0, H1. by rewrite <-(H0 r), <-(H1 r').
Qed.

Lemma maximal_runs_no_keys rows gs :
  maximal_runs [] rows gs → rows ≠ [] → gs = [rows].
Proof.
  intros (Hcat & Hall & Hadj) Hne.
  destruct gs as [|g [|g' gs]]; simpl in *.
  - by subst.
  - by rewrite app_nil_r in Hcat; subst.
  - exfalso. apply Forall_cons in Hall as [[Hg _] Hall].
    apply Forall_cons in Hall as [[Hg' _] _].
    destruct (last g) as [r|] eqn:Hr; [|by apply last_None in Hr].
    destruct g' as [|r' g']; [done|].
    by apply (Hadj 0%nat g (r' :: g') r r').
Qed.

(** [Reduce] on a stream that ends normally and whose rows carry the keys:
    the reducer runs on the groups of [groupby], one after the other. *)
Lemma Reduce_normal_groups (reducer : Reducer) keys rows :
  Forall (has_keys keys) rows →
  Reduce reducer keys (rows, None)
  = for_each (group_runs (keyed (key_of keys) rows)).*2 (λ g _, reducer keys (g, None)) tt.
Proof.
  intros Hk. unfold Reduce, groupby. simpl fst. simpl snd.
  rewrite (Forall_has_keys_pull keys rows None Hk). simpl fst. simpl snd.
  apply Reduce_loop_normal.
Qed.

(** C2: on a stream whose rows carry the group keys, with [None], integers
    or strings for key values, [Reduce] cuts the stream into its maximal
    contiguous runs of equal key tuple and runs the reducer once on each
    run, in order, yielding what the reducers yield one after the other.
    With no group key a non-empty stream is one run and the reducer runs
    once, on the whole stream. *)
Theorem Reduce_groups_maximal_runs (reducer : Reducer) (keys : list string) (rows : list TRow) :
  Forall (has_keys keys) rows →
  exact_keys keys rows →
  ∃ gs : list (list TRow),
    maximal_runs keys rows gs ∧
    Reduce reducer keys (rows, None) = for_each gs (λ g _, reducer keys (g, None)) tt ∧
    (keys = [] → rows ≠ [] →
       gs = [rows] ∧ Reduce reducer keys (rows, None) = reducer keys (rows, None)).
Proof.
  intros Hk _. exists (group_runs (keyed (key_of keys) rows)).*2.
  pose proof (group_runs_maximal keys rows Hk) as Hmax.
  pose proof (Reduce_normal_groups reducer keys rows Hk) as Hred.
  split_and!; [done|done|].
  intros -> Hne. pose proof (maximal_runs_no_keys _ _ Hmax Hne) as Hgs.
  split; [done|]. rewrite Hred, Hgs. cbn [for_each]. rewrite G_bind_ext with (g := λ _, mret tt).
  - apply G_bind_unit_r.
  - by intros [].
Qed.

Lemma sample_rows_have_a : Forall (has_keys ["a"]) sample_rows.
Proof. repeat constructor; by eexists. Qed.

Lemma sample_rows_a_exact : exact_keys ["a"] sample_rows.
Proof. repeat constructor. Qed.

Lemma Reduce_groups_maximal_runs_witness :
  ∃ gs : list (list TRow),
    maximal_runs ["a"] sample_rows gs ∧
    Reduce (Count "n") ["a"] (sample_rows, None)
      = for_each gs (λ g _, Count "n" ["a"] (g, None)) tt ∧
    (["a"] = [] → sample_rows ≠ [] →
       gs = [sample_rows] ∧
       Reduce (Count "n") ["a"] (sample_rows, None) = Count "n" ["a"] (sample_rows, None)).
Proof.
  apply Reduce_groups_maximal_runs; [exact sample_rows_have_a|exact sample_rows_a_exact].
Defined.
(** *** Count on one group *)

Lemma project_lookup keys (row : TRow) k :
  project keys row !! k = if decide (k ∈ keys) then row !! k else None.
Proof.
  unfold project. case_decide as Hk.
  - destruct (row !! k) as [v|] eqn:Hv.
    + by apply map_lookup_filter_Some.
    + apply map_lookup_filter_None. by left.
  - apply map_lookup_filter_None. right. intros v _. done.
Qed.

Lemma dict_of_present_keys_loop keys (row d : TRow) :
  for_each keys (λ k d,
    if decide (is_Some (row !! k)) then v ← getitem row k; mret (<[k := v]> d)
    else mret d) d = ([], Ok (project keys row ∪ d)).
Proof.
  revert d. induction keys as [|k keys IH]; intros d.
  - cbn [for_each]. unfold mret, G_ret. do 2 f_equal. symmetry.
    apply (map_eq (M := gmap string)). intros j.
    rewrite lookup_union, project_lookup. rewrite decide_False by apply not_elem_of_nil.
    by rewrite (left_id None _).
  - cbn [for_each]. case_decide as Hk.
    + destruct Hk as [v Hv]. rewrite (getitem_Some _ _ _ Hv), G_bind_pure, G_bind_ret, IH.
      do 2 f_equal. apply (map_eq (M := gmap string)). intros j.
      rewrite !lookup_union, !project_lookup.
      destruct (decide (j = k)) as [->|Hne].
      * rewrite lookup_insert_eq, Hv. rewrite (decide_True (P := k ∈ k :: keys)) by left.
        case_decide; by destruct (d !! k).
      * rewrite lookup_insert_ne by done.
        destruct (decide (j ∈ keys)) as [Hj|Hj].
        -- by rewrite decide_True by (by right).
        -- rewrite decide_False; [done|]. by intros [?|?]%elem_of_cons.
    + rewrite G_bind_ret, IH. do 2 f_equal. apply (map_eq (M := gmap string)). intros j.
      rewrite !lookup_union, !project_lookup.
      destruct (decide (j = k)) as [->|Hne].
      * apply eq_None_not_Some in Hk. rewrite Hk.
        rewrite (decide_True (P := k ∈ k :: keys)) by left.
        by case_decide.
      * destruct (decide (j ∈ keys)) as [Hj|Hj].
        -- by rewrite decide_True by (by right).
        -- rewrite decide_False; [done|]. by intros [?|?]%elem_of_cons.
Qed.

Lemma dict_of_present_keys_project keys (row : TRow) :
  dict_of_present_keys keys row = ([], Ok (project keys row)).
Proof.
  unfold dict_of_present_keys. rewrite dict_of_present_keys_loop.
  by rewrite (right_id ∅ _).
Qed.

Lemma Count_loop col keys g : ∀ (d : TRow) (j : Z),
  for_each g (λ row (result_row : TRow),
    if decide (result_row = ∅) then
      d ← dict_of_present_keys keys row;
      mret (<[col := VInt 1]> d)
    else
      c ← getitem result_row col;
      c' ← lift (val_add c (VInt 1));
      mret (<[col := c']> result_row)) (<[col := VInt j]> d)
  = ([], Ok (<[col := VInt (j + Z.of_nat (length g))]> d)).
Proof.
  induction g as [|r g IH]; intros d j.
  - cbn. by rewrite Z.add_0_r.
  - cbn [for_each]. rewrite decide_False by apply insert_non_empty.
    rewrite (getitem_Some _ _ (VInt j)) by apply lookup_insert_eq.
    rewrite G_bind_pure. cbn [val_add]. rewrite G_bind_lift_ok, G_bind_ret.
    rewrite insert_insert_eq, IH.
    replace (j + 1 + Z.of_nat (length g)) with (j + Z.of_nat (length (r :: g)))
      by (cbn [length]; lia). done.
Qed.

Lemma Count_group col keys r g :
  Count col keys (r :: g, None)
  = ([<[col := VInt (Z.of_nat (length (r :: g)))]> (project keys r)], Ok tt).
Proof.
  unfold Count, for_in. cbn [fst snd for_each].
  rewrite decide_True by done.
  rewrite dict_of_present_keys_project, G_bind_pure, G_bind_ret, Count_loop.
  rewrite !G_bind_pure. unfold yield.
  replace (1 + Z.of_nat (length g)) with (Z.of_nat (length (r :: g)))
    by (cbn [length]; lia). done.
Qed.

Lemma for_each_single_yields {A : Type} (body : A → G unit) (f : A → TRow) (l : list A) :
  Forall (λ a, body a = ([f a], Ok tt)) l →
  for_each l (λ a _, body a) tt = (f <$> l, Ok tt).
Proof.
  induction 1 as [|a l Ha _ IH]; [done|]. cbn [for_each].
  rewrite Ha. unfold mbind, G_bind. cbn [fst snd]. by rewrite IH.
Qed.

(** *** Runs of a sorted stream *)

Lemma uniform_run_tuple keys g r :
  uniform_run keys g → r ∈ g → key_tuple keys r = group_tuple keys g.
Proof.
  intros [Hne Hu] Hr. unfold group_tuple. destruct g as [|r0 g]; [done|].
  simpl. apply Hu; [done|by left].
Qed.

Lemma filter_all {A : Type} (P : A → Prop) `{∀ x, Decision (P x)} (l : list A) :
  (∀ x, x ∈ l → P x) → filter P l = l.
Proof.
  induction l as [|x l IH]; intros Hl; [done|].
  rewrite filter_cons_True by (apply Hl; by left). f_equal. apply IH.
  intros y Hy. apply Hl. by right.
Qed.

Lemma filter_none {A : Type} (P : A → Prop) `{∀ x, Decision (P x)} (l : list A) :
  (∀ x, x ∈ l → ¬ P x) → filter P l = [].
Proof.
  induction l as [|x l IH]; intros Hl; [done|].
  rewrite filter_cons_False by (apply Hl; by left). apply IH.
  intros y Hy. apply Hl. by right.
Qed.

Lemma elem_of_concat {A : Type} (x : A) (ls : list (list A)) :
  x ∈ concat ls ↔ ∃ l, l ∈ ls ∧ x ∈ l.
Proof.
  rewrite list_elem_of_In, in_concat. split.
  - intros (l & Hl & Hx). exists l. by rewrite !list_elem_of_In.
  - intros (l & Hl & Hx). exists l. by rewrite <-!list_elem_of_In.
Qed.

Lemma filter_group_tuple keys gs :
  Forall (uniform_run keys) gs → NoDup (group_tuple keys <$> gs) →
  ∀ g, g ∈ gs →
    filter (λ r, key_tuple keys r = group_tuple keys g) (concat gs) = g.
Proof.
  induction gs as [|g0 gs IH]; intros Hu Hnd g Hg; [by apply elem_of_nil in Hg|].
  apply Forall_cons in Hu as [Hu0 Hu]. cbn in Hnd. apply NoDup_cons in Hnd as [Hnotin Hnd].
  cbn [concat]. rewrite filter_app.
  apply elem_of_cons in Hg as [->|Hg].
  - rewrite filter_all by (intros r Hr; by apply uniform_run_tuple).
    rewrite filter_none; [by rewrite app_nil_r|].
    intros r (g' & Hg' & Hr)%elem_of_concat Heq.
    apply Hnotin. apply list_elem_of_fmap. exists g'. split; [|done].
    rewrite <-Heq. apply uniform_run_tuple; [|done].
    by eapply Forall_forall in Hu.
  - rewrite filter_none; [by rewrite IH|].
    intros r Hr Heq. apply Hnotin. apply list_elem_of_fmap. exists g. split; [|done].
    rewrite <-Heq. symmetry. by apply uniform_run_tuple.
Qed.

Lemma runs_tuples_NoDup val_lt keys Ps gs :
  total_order_on (list_lt val_lt) (tuple_in Ps) →
  (∀ r, r ∈ concat gs → tuple_in Ps (key_tuple keys r)) →
  StronglySorted (key_le val_lt keys) (concat gs) →
  Forall (uniform_run keys) gs →
  (∀ (i : nat) g g' r r', gs !! i = Some g → gs !! S i = Some g' →
     last g = Some r → head g' = Some r' → key_tuple keys r ≠ key_tuple keys r') →
  NoDup (group_tuple keys <$> gs).
Proof.
  intros Hord. induction gs as [|g gs IH]; intros Hin Hs Hu Hadj; [constructor|].
  apply Forall_cons in Hu as [Hug Hu]. cbn [concat] in Hs, Hin.
  cbn. apply NoDup_cons. split.
  - intros (g'' & Heq & Hg'')%list_elem_of_fmap.
    destruct gs as [|g1 gs]; [by apply elem_of_nil in Hg''|].
    pose proof Hu as [Hug1 Hu']%Forall_cons.
    destruct (last g) as [rl|] eqn:Hrl; [|apply last_None in Hrl; by destruct Hug].
    destruct g1 as [|r1 g1]; [by destruct Hug1|].
    pose proof (Hadj 0%nat g (r1 :: g1) rl r1 eq_refl eq_refl Hrl eq_refl) as Hne.
    assert (rl ∈ g) as Hrlg by (by apply last_Some_elem_of).
    assert (key_tuple keys rl = group_tuple keys g) as Hkl by (by apply uniform_run_tuple).
    assert (r1 ∈ concat ((r1 :: g1) :: gs)) as Hr1 by (cbn; by left).
    pose proof (StronglySorted_app_1_elem_of _ _ _ rl r1 Hs Hrlg Hr1) as Hle1.
    apply elem_of_cons in Hg'' as [->|Hg''].
    + apply Hne. rewrite Hkl, Heq. done.
    + destruct g'' as [|r'' g'']; [eapply Forall_forall in Hu' as [? _]; done|].
      assert (r'' ∈ concat gs) as Hr''.
      { apply elem_of_concat. exists (r'' :: g''). split; [done|by left]. }
      apply StronglySorted_app_1_r in Hs. cbn [concat] in Hs.
      assert (r1 ∈ r1 :: g1) as Hr1' by (by left).
      pose proof (StronglySorted_app_1_elem_of _ _ _ r1 r'' Hs Hr1' Hr'') as Hle2.
      unfold key_le in Hle1, Hle2.
      change (key_tuple keys r'') with (group_tuple keys (r'' :: g'')) in Hle2.
      rewrite <-Heq, <-Hkl in Hle2.
      apply Hne. eapply (ord_antisym _ _ Hord); [| |done|done].
      * apply Hin. apply elem_of_app. by left.
      * apply Hin. apply elem_of_app. by right.
  - apply IH; [| |done|].
    + intros r Hr. apply Hin. apply elem_of_app. by right.
    + by apply StronglySorted_app_1_r in Hs.
    + intros i g1 g2 r r' H1 H2. by apply (Hadj (S i)).
Qed.

Lemma count_rows_sum col keys gs :
  foldr Z.add 0 (int_at col <$> (count_row col keys <$> gs)) = Z.of_nat (length (concat gs)).
Proof.
  induction gs as [|g gs IH]; [done|]. cbn. rewrite IH, length_app.
  unfold int_at, count_row. rewrite lookup_insert_eq. lia.
Qed.

(** C4: on a stream sorted by [keys], with every key column totally
    ordered, [Reduce] with [Count(col)] ends normally and its output matches,
    row for row, a duplicate-free list [ts] of exactly the key tuples that
    occur in the input: the row for [t] is the key columns of a row with
    tuple [t] together with [col] set to the number of input rows with that
    tuple.  The counts add up to the number of input rows. *)
Theorem Reduce_Count_group_coverage
    (val_lt : val → val → result bool) (col : string) (keys : list string) (rows : list TRow) :
  sorted_by val_lt keys rows →
  columns_ordered val_lt keys rows →
  ∃ (ts : list (list val)) (out : list TRow),
    Reduce (Count col) keys (rows, None) = (out, Ok tt) ∧
    NoDup ts ∧
    (∀ t, t ∈ ts ↔ t ∈ key_tuple keys <$> rows) ∧
    Forall2 (λ t row, ∃ r, r ∈ rows ∧ key_tuple keys r = t ∧
       row = <[col := VInt (Z.of_nat (length (filter (λ r', key_tuple keys r' = t) rows)))]>
               (project keys r)) ts out ∧
    foldr Z.add 0 (int_at col <$> out) = Z.of_nat (length rows).
Proof.
  intros [Hk Hs] Hcols.
  pose proof (group_runs_maximal keys rows Hk) as (Hcat & Hu & Hadj).
  set (gs := (group_runs (keyed (key_of keys) rows)).*2) in *.
  assert (NoDup (group_tuple keys <$> gs)) as Hnd.
  { eapply runs_tuples_NoDup; [by apply columns_ordered_tuples| |by rewrite Hcat|done|done].
    intros r Hr. rewrite Hcat in Hr. apply key_tuple_in; [done|].
    by eapply Forall_forall in Hk. }
  exists (group_tuple keys <$> gs), (count_row col keys <$> gs). split_and!.
  - rewrite (Reduce_normal_groups _ _ _ Hk). fold gs.
    apply (for_each_single_yields (λ g, Count col keys (g, None))).
    eapply Forall_impl; [exact Hu|]. intros [|r g] [Hne _]; [done|].
    apply Count_group.
  - done.
  - intros t. rewrite !list_elem_of_fmap. split.
    + intros (g & -> & Hg).
      eapply Forall_forall in Hu as [Hne _]; [|done].
      destruct g as [|r g]; [done|]. exists r. split; [done|].
      rewrite <-Hcat. apply elem_of_concat. exists (r :: g). split; [done|by left].
    + intros (r & -> & Hr). rewrite <-Hcat in Hr.
      apply elem_of_concat in Hr as (g & Hg & Hr). exists g. split; [|done].
      apply uniform_run_tuple; [|done]. by eapply Forall_forall in Hu.
  - apply Forall2_fmap, Forall_Forall2_diag, Forall_forall. intros g Hg.
    pose proof Hg as Hug. eapply Forall_forall in Hug; [|exact Hu].
    destruct g as [|r g]; [by destruct Hug|].
    exists r. split_and!.
    + rewrite <-Hcat. apply elem_of_concat. exists (r :: g). split; [done|by left].
    + done.
    + unfold count_row. rewrite <-Hcat.
      by rewrite (filter_group_tuple keys gs Hu Hnd (r :: g) Hg).
  - by rewrite count_rows_sum, Hcat.
Qed.

Lemma sample_rows_a_ints v : column_values "a" sample_rows v → ∃ z, v = VInt z.
Proof.
  intros (r & Hr & Hv). unfold sample_rows in Hr.
  repeat (apply elem_of_cons in Hr as [->|Hr]; [vm_compute in Hv; simplify_eq; eauto|]).
  by apply elem_of_nil in Hr.
Qed.

Lemma sample_rows_sorted_by_a : sorted_by py_lt ["a"] sample_rows.
Proof.
  split; [exact sample_rows_have_a|].
  unfold sample_rows. repeat (constructor; [|repeat constructor]); constructor.
Qed.

Lemma Reduce_Count_group_coverage_witness :
  ∃ (ts : list (list val)) (out : list TRow),
    Reduce (Count "n") ["a"] (sample_rows, None) = (out, Ok tt) ∧
    NoDup ts ∧
    (∀ t, t ∈ ts ↔ t ∈ key_tuple ["a"] <$> sample_rows) ∧
    Forall2 (λ t row, ∃ r, r ∈ sample_rows ∧ key_tuple ["a"] r = t ∧
       row = <["n" := VInt (Z.of_nat (length
                 (filter (λ r', key_tuple ["a"] r' = t) sample_rows)))]>
               (project ["a"] r)) ts out ∧
    foldr Z.add 0 (int_at "n" <$> out) = Z.of_nat (length sample_rows).
Proof.
  apply (Reduce_Count_group_coverage py_lt).
  - exact sample_rows_sorted_by_a.
  - constructor; [apply py_lt_total_order_int, sample_rows_a_ints|constructor].
Defined.
(** ** Joiners *)

Lemma string_length_append (s1 s2 : string) :
  String.length (s1 +:+ s2) = (String.length s1 + String.length s2)%nat.
Proof. induction s1 as [|c s1 IH]; [done|]. simpl. by rewrite IH. Qed.

Lemma append_inj_l (s k k' : string) : k +:+ s = k' +:+ s → k = k'.
Proof.
  intros H.
  assert (String.length k = String.length k') as Hlen.
  { apply (f_equal String.length) in H. rewrite !string_length_append in H. lia. }
  revert k' H Hlen. induction k as [|c k IH]; intros [|c' k'] H Hlen; simplify_eq/=; [done|].
  f_equal. apply IH; [done|lia].
Qed.

(** Loops that fill a dict *)
Lemma for_each_inserts (m : TRow) (l : list string) : ∀ row0 : TRow,
  (∀ k, k ∈ l → is_Some (m !! k)) →
  for_each l (λ k (row : TRow), v ← getitem m k; mret (<[k := v]> row)) row0
  = ([], Ok (foldl (λ row k, <[k := default VNone (m !! k)]> row) row0 l)).
Proof.
  induction l as [|k l IH]; intros row0 Hl; [done|].
  cbn [for_each foldl]. destruct (Hl k) as [v Hv]; [by left|].
  rewrite (getitem_Some _ _ _ Hv), G_bind_pure, G_bind_ret, Hv. cbn [default].
  apply IH. intros k' Hk'. apply Hl. by right.
Qed.

Lemma for_each_suffix_inserts (a b : TRow) (sa sb : string) (l : list string) : ∀ row0 : TRow,
  (∀ k, k ∈ l → is_Some (a !! k) ∧ is_Some (b !! k)) →
  for_each l (λ k (row : TRow),
    va ← getitem a k;
    let row := <[k +:+ sa := va]> row in
    vb ← getitem b k;
    mret (<[k +:+ sb := vb]> row)) row0
  = ([], Ok (foldl (λ row k, <[k +:+ sb := default VNone (b !! k)]>
                               (<[k +:+ sa := default VNone (a !! k)]> row)) row0 l)).
Proof.
  induction l as [|k l IH]; intros row0 Hl; [done|].
  cbn [for_each foldl]. destruct (Hl k) as [[va Hva] [vb Hvb]]; [by left|].
  rewrite (getitem_Some _ _ _ Hva), G_bind_pure. cbn zeta.
  rewrite (getitem_Some _ _ _ Hvb), G_bind_pure, G_bind_ret, Hva, Hvb. cbn [default].
  apply IH. intros k' Hk'. apply Hl. by right.
Qed.

Lemma lookup_foldl_insert_notin (value : string → val) (l : list string) : ∀ (row0 : TRow) j,
  j ∉ l → foldl (λ row k, <[k := value k]> row) row0 l !! j = row0 !! j.
Proof.
  induction l as [|k l IH]; intros row0 j Hj; [done|].
  cbn [foldl]. rewrite IH by (intros ?; apply Hj; by right).
  apply lookup_insert_ne. intros ->. apply Hj. by left.
Qed.

Lemma lookup_foldl_insert_in (value : string → val) (l : list string) : ∀ (row0 : TRow) k,
  k ∈ l → foldl (λ row k, <[k := value k]> row) row0 l !! k = Some (value k).
Proof.
  induction l as [|k0 l IH]; intros row0 k Hk; [by apply elem_of_nil in Hk|].
  cbn [foldl]. destruct (decide (k ∈ l)) as [Hin|Hnotin]; [by apply IH|].
  apply elem_of_cons in Hk as [->|?]; [|done].
  rewrite lookup_foldl_insert_notin by done. apply lookup_insert_eq.
Qed.

Lemma lookup_foldl_suffix_notin (va vb : string → val) (sa sb : string) (l : list string) :
  ∀ (row0 : TRow) j,
  (∀ k, k ∈ l → k +:+ sa ≠ j ∧ k +:+ sb ≠ j) →
  foldl (λ row k, <[k +:+ sb := vb k]> (<[k +:+ sa := va k]> row)) row0 l !! j = row0 !! j.
Proof.
  induction l as [|k l IH]; intros row0 j Hj; [done|].
  cbn [foldl]. rewrite IH by (intros ??; apply Hj; by right).
  destruct (Hj k) as [Ha Hb]; [by left|].
  by rewrite !lookup_insert_ne.
Qed.

Lemma lookup_foldl_suffix_a (va vb : string → val) (sa sb : string) (l : list string) :
  ∀ (row0 : TRow) k,
  k ∈ l → (∀ k', k' ∈ l → k' +:+ sb ≠ k +:+ sa) →
  foldl (λ row k, <[k +:+ sb := vb k]> (<[k +:+ sa := va k]> row)) row0 l !! (k +:+ sa)
  = Some (va k).
Proof.
  induction l as [|k0 l IH]; intros row0 k Hk Hne; [by apply elem_of_nil in Hk|].
  cbn [foldl]. destruct (decide (k ∈ l)) as [Hin|Hnotin].
  { apply IH; [done|]. intros k' Hk'. apply Hne. by right. }
  apply elem_of_cons in Hk as [->|?]; [|done].
  rewrite lookup_foldl_suffix_notin.
  - rewrite lookup_insert_ne by (apply Hne; by left). apply lookup_insert_eq.
  - intros k' Hk'. split; [|apply Hne; by right].
    intros Heq%append_inj_l. by subst.
Qed.

Lemma lookup_foldl_suffix_b (va vb : string → val) (sa sb : string) (l : list string) :
  ∀ (row0 : TRow) k,
  k ∈ l → (∀ k', k' ∈ l → k' +:+ sa ≠ k +:+ sb) →
  foldl (λ row k, <[k +:+ sb := vb k]> (<[k +:+ sa := va k]> row)) row0 l !! (k +:+ sb)
  = Some (vb k).
Proof.
  induction l as [|k0 l IH]; intros row0 k Hk Hne; [by apply elem_of_nil in Hk|].
  cbn [foldl]. destruct (decide (k ∈ l)) as [Hin|Hnotin].
  { apply IH; [done|]. intros k' Hk'. apply Hne. by right. }
  apply elem_of_cons in Hk as [->|?]; [|done].
  rewrite lookup_foldl_suffix_notin.
  - apply lookup_insert_eq.
  - intros k' Hk'. split; [apply Hne; by right|].
    intros Heq%append_inj_l. by subst.
Qed.

Section prod_row.
Context (set_order : gset string → list string) (Hso : set_order_ok set_order).
Context (sa sb : string) (keys : list string) (a b : TRow).

Lemma elem_of_set_order (s : gset string) k : k ∈ set_order s ↔ k ∈ s.
Proof. by rewrite (Hso s), elem_of_elements. Qed.

Lemma elem_of_common k :
  k ∈ set_order ((dom a ∩ dom b) ∖ list_to_set keys) ↔ common_column keys a b k.
Proof.
  rewrite elem_of_set_order, elem_of_difference, elem_of_intersection, !elem_of_dom,
    elem_of_list_to_set. unfold common_column. tauto.
Qed.

Lemma elem_of_only_a k :
  k ∈ set_order (dom a ∖ (dom a ∩ dom b)) ↔ only_in a b k.
Proof.
  rewrite elem_of_set_order, elem_of_difference, elem_of_intersection, !elem_of_dom.
  unfold only_in. rewrite eq_None_not_Some. tauto.
Qed.

Lemma elem_of_only_b k :
  k ∈ set_order (dom b ∖ (dom a ∩ dom b)) ↔ only_in b a k.
Proof.
  rewrite elem_of_set_order, elem_of_difference, elem_of_intersection, !elem_of_dom.
  unfold only_in. rewrite eq_None_not_Some. tauto.
Qed.

Lemma prod_row_value :
  has_keys keys a →
  prod_row set_order sa sb keys a b = ([], Ok (prod_row_fold set_order sa sb keys a b)).
Proof.
  intros Hk. unfold prod_row, dict_of_keys.
  rewrite for_each_inserts by (intros k Hin; by eapply Forall_forall in Hk).
  rewrite G_bind_pure. cbn zeta.
  rewrite for_each_suffix_inserts by (intros k (_ & ? & ?)%elem_of_common; done).
  rewrite G_bind_pure.
  rewrite for_each_inserts by (intros k [? _]%elem_of_only_a; done).
  rewrite G_bind_pure.
  rewrite for_each_inserts by (intros k [? _]%elem_of_only_b; done).
  done.
Qed.

Lemma prod_row_fold_spec :
  keys_agree keys a b → no_collision sa sb keys a b →
  prod_row_spec sa sb keys a b (prod_row_fold set_order sa sb keys a b) ∧
  ∀ j, is_Some (prod_row_fold set_order sa sb keys a b !! j) →
    j ∈ keys ∨ (∃ k, common_column keys a b k ∧ (j = k +:+ sa ∨ j = k +:+ sb)) ∨
    only_in a b j ∨ only_in b a j.
Proof.
  intros Hagree Hnc.
  assert (∀ k, k ∈ keys → is_Some (a !! k) ∧ is_Some (b !! k)) as Hkeys.
  { intros k Hk. eapply Forall_forall in Hagree as [Ha Hab]; [|done].
    split; [done|]. by rewrite <-Hab. }
  assert (∀ v : option val, is_Some v → Some (default VNone v) = v) as Hdef.
  { by intros ? [? ->]. }
  unfold prod_row_fold. split; [split_and!|].
  - intros k Hk. destruct (Hkeys k Hk) as [Ha Hb].
    rewrite lookup_foldl_insert_notin.
    2:{ intros [_ Hn]%elem_of_only_b. rewrite Hn in Ha. by destruct Ha. }
    rewrite lookup_foldl_insert_notin.
    2:{ intros [_ Hn]%elem_of_only_a. rewrite Hn in Hb. by destruct Hb. }
    rewrite lookup_foldl_suffix_notin.
    2:{ intros k' Hk'%elem_of_common. apply (Hnc k' Hk'). by left. }
    rewrite lookup_foldl_insert_in by done. by apply Hdef.
  - intros k Hk. pose proof Hk as (Hnk & Ha & Hb). destruct (Hnc k Hk) as [Hother Hcross].
    split.
    + rewrite lookup_foldl_insert_notin.
      2:{ intros Hin%elem_of_only_b. destruct (Hother (k +:+ sa)); [by right; right|done]. }
      rewrite lookup_foldl_insert_notin.
      2:{ intros Hin%elem_of_only_a. destruct (Hother (k +:+ sa)); [by right; left|done]. }
      rewrite lookup_foldl_suffix_a; [by apply Hdef|by apply elem_of_common|].
      intros k' Hk'%elem_of_common Heq. by apply (Hcross k' Hk').
    + rewrite lookup_foldl_insert_notin.
      2:{ intros Hin%elem_of_only_b. destruct (Hother (k +:+ sb)); [by right; right|done]. }
      rewrite lookup_foldl_insert_notin.
      2:{ intros Hin%elem_of_only_a. destruct (Hother (k +:+ sb)); [by right; left|done]. }
      rewrite lookup_foldl_suffix_b; [by apply Hdef|by apply elem_of_common|].
      intros k' Hk'%elem_of_common Heq. destruct (Hnc k' Hk') as [_ Hc]. by apply (Hc k Hk).
  - intros k Hnk Hk. pose proof Hk as [Ha Hb].
    rewrite lookup_foldl_insert_notin.
    2:{ intros [Hb' _]%elem_of_only_b. rewrite Hb in Hb'. by destruct Hb'. }
    rewrite lookup_foldl_insert_in by (by apply elem_of_only_a). by apply Hdef.
  - intros k Hnk Hk. pose proof Hk as [Hb Ha].
    rewrite lookup_foldl_insert_in by (by apply elem_of_only_b). by apply Hdef.
  - intros j Hj.
    destruct (decide (j ∈ set_order (dom b ∖ (dom a ∩ dom b)))) as [Hin|Hnb].
    { right; right; right. by apply elem_of_only_b. }
    rewrite lookup_foldl_insert_notin in Hj by done.
    destruct (decide (j ∈ set_order (dom a ∖ (dom a ∩ dom b)))) as [Hin|Hna].
    { right; right; left. by apply elem_of_only_a. }
    rewrite lookup_foldl_insert_notin in Hj by done.
    set (lC := set_order ((dom a ∩ dom b) ∖ list_to_set keys)) in *.
    destruct (decide (Exists (λ k, j = k +:+ sa ∨ j = k +:+ sb) lC)) as [Hex|Hnex].
    { apply Exists_exists in Hex as (k & Hk%elem_of_common & Hjk). right; left. eauto. }
    rewrite lookup_foldl_suffix_notin in Hj.
    2:{ intros k Hk. split; intros <-; apply Hnex, Exists_exists; eauto. }
    destruct (decide (j ∈ keys)) as [?|Hnk]; [by left|].
    rewrite lookup_foldl_insert_notin in Hj by done.
    rewrite lookup_empty in Hj. by destruct Hj.
Qed.
End prod_row.



Lemma prod_row_of_fold set_order sa sb keys a b :
  set_order_ok set_order → has_keys keys a →
  prod_row_of set_order sa sb keys a b = prod_row_fold set_order sa sb keys a b.
Proof.
  intros Hso Hk. unfold prod_row_of. by rewrite prod_row_value.
Qed.

Lemma prod_tables_rows set_order sa sb keys (A B : list TRow) :
  set_order_ok set_order → Forall (has_keys keys) A →
  prod_tables set_order sa sb keys (A, None) B
  = (A ≫= λ a, prod_row_of set_order sa sb keys a <$> B, Ok tt).
Proof.
  intros Hso HA. unfold prod_tables. case_decide as HB.
  { subst B. unfold mret, G_ret. f_equal. clear HA.
    induction A as [|a A IH]; [done|]. cbn [mbind list_bind fmap list_fmap app]. done. }
  unfold for_in. cbn [fst snd]. rewrite G_bind_ret_r.
  induction HA as [|a A Ha HA IH]; [done|].
  cbn [for_each mbind list_bind].
  rewrite (for_each_single_yields
             (λ b, row ← prod_row set_order sa sb keys a b; yield row)
             (prod_row_of set_order sa sb keys a)).
  - by rewrite G_bind_yields, IH.
  - apply Forall_forall. intros b _.
    rewrite (prod_row_value set_order Hso sa sb keys a b Ha), G_bind_pure.
    unfold yield. by rewrite (prod_row_of_fold _ _ _ _ _ _ Hso Ha).
Qed.

(** C1 (amended): for matched left and right groups whose left rows carry
    the keys, [InnerJoiner] yields exactly the rows [prod_tables] makes of
    the pairs [(a, b)], [a] in the left group and [b] in the right one, one
    row for each pair.  When the key columns of a pair agree and no suffixed
    name of a common column is the name of a key, of a one-sided column or
    of a column suffixed the other way, that row maps every key to [a[k]],
    every common non-key column [k] to [k+suffix_a = a[k]] and
    [k+suffix_b = b[k]], copies every one-sided non-key column, and has no
    other field. *)
Theorem InnerJoiner_product_rows
    (set_order : gset string → list string) (suffix_a suffix_b : string)
    (keys : list string) (rows_a rows_b : list TRow) :
  set_order_ok set_order →
  Forall (has_keys keys) rows_a →
  InnerJoiner set_order suffix_a suffix_b keys (rows_a, None) (rows_b, None)
    = (rows_a ≫= λ a, prod_row_of set_order suffix_a suffix_b keys a <$> rows_b, Ok tt) ∧
  ∀ a b, a ∈ rows_a → b ∈ rows_b →
    keys_agree keys a b → no_collision suffix_a suffix_b keys a b →
    let row := prod_row_of set_order suffix_a suffix_b keys a b in
    prod_row set_order suffix_a suffix_b keys a b = ([], Ok row) ∧
    prod_row_spec suffix_a suffix_b keys a b row ∧
    ∀ j, is_Some (row !! j) →
      j ∈ keys ∨
      (∃ k, common_column keys a b k ∧ (j = k +:+ suffix_a ∨ j = k +:+ suffix_b)) ∨
      only_in a b j ∨ only_in b a j.
Proof.
  intros Hso HA. split.
  - unfold InnerJoiner, to_list. cbn [fst snd]. rewrite G_bind_ret.
    by apply prod_tables_rows.
  - intros a b Ha Hb Hagree Hnc row.
    assert (has_keys keys a) as Hka by (by eapply Forall_forall in HA).
    unfold row. rewrite (prod_row_of_fold _ _ _ _ _ _ Hso Hka).
    split; [by apply prod_row_value|].
    by apply prod_row_fold_spec.
Qed.

Lemma elements_set_order_ok : set_order_ok elements.
Proof. by intros s. Qed.

Lemma join_left_has_k : Forall (has_keys ["k"]) join_left.
Proof. repeat constructor; by eexists. Qed.

Lemma pair_common_column k : common_column ["k"] pair_a pair_b k → k = "c".
Proof.
  intros (Hk & Ha & _). apply elem_of_dom in Ha.
  unfold pair_a in Ha. rewrite !dom_insert_L, ?dom_singleton_L, ?dom_empty_L in Ha.
  apply not_elem_of_cons in Hk as [Hk _]. set_solver.
Qed.

Lemma pair_no_collision : no_collision "_1" "_2" ["k"] pair_a pair_b.
Proof.
  intros k ->%pair_common_column. split.
  - intros j [Hj|[[Ha _]|[Hb Ha]]].
    + apply list_elem_of_singleton in Hj as ->. done.
    + apply elem_of_dom in Ha. unfold pair_a in Ha.
      rewrite !dom_insert_L, ?dom_singleton_L, ?dom_empty_L in Ha.
      split; intros <-; set_solver.
    + apply elem_of_dom in Hb. unfold pair_b in Hb.
      rewrite !dom_insert_L, ?dom_singleton_L, ?dom_empty_L in Hb.
      split; intros <-; set_solver.
  - intros k' ->%pair_common_column. done.
Qed.

Lemma InnerJoiner_product_rows_witness :
  InnerJoiner elements "_1" "_2" ["k"] ([pair_a], None) ([pair_b], None)
    = ([prod_row_of elements "_1" "_2" ["k"] pair_a pair_b], Ok tt) ∧
  prod_row_spec "_1" "_2" ["k"] pair_a pair_b
    (prod_row_of elements "_1" "_2" ["k"] pair_a pair_b).
Proof.
  destruct (InnerJoiner_product_rows elements "_1" "_2" ["k"] [pair_a] [pair_b])
    as [Hrows Hrow].
  - exact elements_set_order_ok.
  - repeat constructor; by eexists.
  - split; [exact Hrows|].
    apply (Hrow pair_a pair_b).
    + by left.
    + by left.
    + repeat constructor; by eexists.
    + exact pair_no_collision.
Defined.

(** C1 as stated fails: the left row has a column [x_1] of its own, which
    overwrites the field [x + "_1"] made for the common column [x], so the
    row does not map [x_1] to [a[x]]. *)
Lemma prod_tables_suffix_collision :
  keys_agree [] clash_a clash_b ∧
  ∃ row, prod_row elements "_1" "_2" [] clash_a clash_b = ([], Ok row) ∧
         ¬ prod_row_spec "_1" "_2" [] clash_a clash_b row.
Proof.
  split; [constructor|].
  eexists. split; [vm_compute; reflexivity|].
  intros (_ & Hcommon & _).
  destruct (Hcommon "x") as [Hx _].
  { split_and!; [apply not_elem_of_nil|by eexists|by eexists]. }
  vm_compute in Hx. discriminate.
Qed.
(** ** The sort-merge join *)

Lemma groupby_comparator keys rows :
  Forall (has_keys keys) rows →
  groupby (_comparator keys) (rows, None) = (group_runs (keyed (key_tuple keys) rows), None).
Proof.
  intros Hk. unfold groupby. cbn [fst snd].
  rewrite (pull_keys_keyed (key_tuple keys)); [done|].
  eapply Forall_impl; [exact Hk|]. intros r Hr. by apply mapM_row_get.
Qed.

Lemma group_runs_sorted_groups val_lt keys Ps rows :
  total_order_on (list_lt val_lt) (tuple_in Ps) →
  (∀ r, r ∈ rows → tuple_in Ps (key_tuple keys r)) →
  sorted_by val_lt keys rows →
  sorted_groups val_lt keys (tuple_in Ps) (group_runs (keyed (key_tuple keys) rows)) ∧
  concat (group_runs (keyed (key_tuple keys) rows)).*2 = rows.
Proof.
  intros Hord Hin [Hk Hs].
  destruct (group_runs_spec (key_tuple keys) rows) as (Hcat & Hall & _ & Hadj).
  set (gs := group_runs (keyed (key_tuple keys) rows)) in *.
  assert (∀ kg r, kg ∈ gs → r ∈ kg.2 → r ∈ rows) as Hrows.
  { intros kg r Hkg Hr. rewrite <-Hcat. apply elem_of_concat. exists kg.2.
    split; [|done]. apply list_elem_of_fmap. eauto. }
  assert (Forall (λ kg, tuple_in Ps kg.1 ∧ kg.2 ≠ [] ∧
            Forall (λ r, has_keys keys r ∧ key_tuple keys r = kg.1) kg.2) gs) as Hgood.
  { apply Forall_forall. intros kg Hkg.
    pose proof (proj1 (Forall_forall _ _) Hall kg Hkg) as [Hne Hsame].
    split_and!; [|done|].
    - destruct kg as [k [|r g]]; [done|]. simpl in *.
      apply Forall_cons in Hsame as [<- _]. apply Hin. apply (Hrows (key_tuple keys r, r :: g)); [done|by left].
    - apply Forall_forall. intros r Hr. split.
      + eapply Forall_forall in Hk; [done|]. by eapply Hrows.
      + by eapply Forall_forall in Hsame. }
  split; [|done]. split; [done|].
  (* strictly increasing keys *)
  assert (gs.*1 = group_tuple keys <$> gs.*2) as Hkeys.
  { rewrite <-list_fmap_compose. apply Forall_fmap_ext_1.
    eapply Forall_impl; [exact Hgood|]. intros [k [|r g]] (_ & Hne & Hsame); [done|].
    simpl in *. apply Forall_cons in Hsame as [[_ <-] _]. done. }
  assert (Forall (uniform_run keys) gs.*2) as Hu.
  { apply Forall_fmap. eapply Forall_impl; [exact Hgood|]. intros [k g] (_ & Hne & Hsame).
    simpl in *. split; [done|]. intros r r' Hr Hr'.
    rewrite Forall_forall in Hsame. destruct (Hsame r Hr) as [_ ->].
    by destruct (Hsame r' Hr') as [_ ->]. }
  assert (NoDup gs.*1) as Hnd.
  { rewrite Hkeys. eapply runs_tuples_NoDup; [done| |by rewrite Hcat|done|].
    - intros r Hr. rewrite Hcat in Hr. by apply Hin.
    - intros i g g' r r' Hg Hg' Hr Hr'.
      rewrite list_lookup_fmap in Hg, Hg'.
      destruct (gs !! i) as [[k g0]|] eqn:Hi; simplify_eq/=.
      destruct (gs !! S i) as [[k' g1]|] eqn:Hi'; simplify_eq/=.
      pose proof (Hadj i _ _ Hi Hi') as Hne. simpl in Hne.
      pose proof (Forall_lookup_1 _ _ _ _ Hgood Hi) as (_ & _ & H0).
      pose proof (Forall_lookup_1 _ _ _ _ Hgood Hi') as (_ & _ & H1). simpl in *.
      rewrite Forall_forall in H0, H1.
      destruct (H0 r) as [_ ->]; [by apply last_Some_elem_of|].
      destruct (H1 r') as [_ ->]; [destruct g'; simplify_eq/=; by left|]. done. }
  clear Hkeys Hu Hadj Hall.
  revert Hcat Hnd Hgood. generalize gs. clear gs Hrows.
  intros gs. revert rows Hin Hk Hs.
  induction gs as [|[k g] gs IH]; intros rows Hin Hk Hs Hcat Hnd Hgood; [constructor|].
  cbn in Hcat, Hnd |- *. subst rows.
  apply NoDup_cons in Hnd as [Hnotin Hnd].
  apply Forall_cons in Hgood as [(HPk & Hne & Hsame) Hgood]. simpl in *.
  constructor.
  - apply (IH (concat gs.*2)); [| | |done|done|done].
    + intros r Hr. apply Hin. apply elem_of_app. by right.
    + by apply Forall_app in Hk as [_ ?].
    + by apply StronglySorted_app_1_r in Hs.
  - apply Forall_forall. intros k' Hk'.
    apply list_elem_of_fmap in Hk' as ([k'' g'] & -> & Hkg'). simpl.
    pose proof (proj1 (Forall_forall _ _) Hgood _ Hkg') as (HPk' & Hne' & Hsame').
    simpl in *.
    destruct g as [|r g]; [done|]. destruct g' as [|r' g']; [done|].
    apply Forall_cons in Hsame as [[_ Hr] _]. apply Forall_cons in Hsame' as [[_ Hr'] _].
    assert (key_le val_lt keys r r') as Hle.
    { eapply StronglySorted_app_1_elem_of; [exact Hs|by left|].
      apply elem_of_concat. exists (r' :: g'). split; [|by left].
      apply list_elem_of_fmap. by exists (k'', r' :: g'). }
    unfold key_le in Hle. rewrite Hr, Hr' in Hle.
    destruct Hord as (_ & _ & _ & Htot).
    destruct (Htot k k'' HPk HPk') as [?|?]; [|done|congruence].
    intros ->. apply Hnotin. apply list_elem_of_fmap. by exists (k'', r' :: g').
Qed.

Section joiner_calls.
Context (set_order : gset string → list string) (Hso : set_order_ok set_order).
Context (sa sb : string) (keys : list string).

Lemma InnerJoiner_left_only (g : list TRow) :
  InnerJoiner set_order sa sb keys (g, None) ([], None) = ([], Ok tt).
Proof. done. Qed.

Lemma InnerJoiner_right_only (g : list TRow) :
  InnerJoiner set_order sa sb keys ([], None) (g, None) = ([], Ok tt).
Proof.
  unfold InnerJoiner, to_list. cbn [fst snd]. rewrite G_bind_ret.
  by rewrite prod_tables_rows.
Qed.

Lemma InnerJoiner_both (ga gb : list TRow) :
  Forall (has_keys keys) ga →
  InnerJoiner set_order sa sb keys (ga, None) (gb, None)
  = (ga ≫= λ a, prod_row_of set_order sa sb keys a <$> gb, Ok tt).
Proof.
  intros Hk. unfold InnerJoiner, to_list. cbn [fst snd]. rewrite G_bind_ret.
  by apply prod_tables_rows.
Qed.

Lemma OuterJoiner_left_only (g : list TRow) :
  g ≠ [] → OuterJoiner set_order sa sb keys (g, None) ([], None) = (g, Ok tt).
Proof.
  intros Hg. unfold OuterJoiner, to_list. cbn [fst snd]. rewrite !G_bind_ret.
  unfold prod_tables. destruct (decide (@nil TRow = [])) as [_|?]; [|done].
  rewrite G_bind_ret. destruct (decide (g = [])) as [?|_]; [done|].
  rewrite G_bind_ret. unfold yield_from. done.
Qed.

Lemma OuterJoiner_right_only (g : list TRow) :
  g ≠ [] → OuterJoiner set_order sa sb keys ([], None) (g, None) = (g, Ok tt).
Proof.
  intros Hg. unfold OuterJoiner, to_list. cbn [fst snd]. rewrite !G_bind_ret.
  rewrite prod_tables_rows by done. cbn [mbind list_bind].
  rewrite G_bind_pure.
  destruct (decide (@nil TRow = [])) as [_|?]; [|done].
  destruct (decide (g = [])) as [?|_]; [done|].
  unfold yield_from. cbn [fst snd]. by rewrite G_bind_unit_r.
Qed.

Lemma OuterJoiner_both (ga gb : list TRow) :
  Forall (has_keys keys) ga → ga ≠ [] → gb ≠ [] →
  OuterJoiner set_order sa sb keys (ga, None) (gb, None)
  = (ga ≫= λ a, prod_row_of set_order sa sb keys a <$> gb, Ok tt).
Proof.
  intros Hk Ha Hb. unfold OuterJoiner, to_list. cbn [fst snd]. rewrite !G_bind_ret.
  rewrite prod_tables_rows by done.
  destruct (decide (ga = [])) as [?|_]; [done|].
  destruct (decide (gb = [])) as [?|_]; [done|].
  rewrite G_bind_yields, G_bind_ret. cbn [fst snd]. by rewrite app_nil_r.
Qed.
End joiner_calls.

Lemma filter_ext_in {A : Type} (P Q : A → Prop) `{∀ x, Decision (P x), ∀ x, Decision (Q x)}
    (l : list A) :
  (∀ x, x ∈ l → P x ↔ Q x) → filter P l = filter Q l.
Proof.
  induction l as [|x l IH]; intros Hl; [done|].
  rewrite !filter_cons. rewrite IH by (intros y Hy; apply Hl; by right).
  destruct (decide (P x)) as [HP|HP], (decide (Q x)) as [HQ|HQ]; try done.
  - exfalso. apply HQ, Hl; [by left|done].
  - exfalso. apply HP, Hl; [by left|done].
Qed.

Lemma unmatched_groups_nil_l gb : unmatched_groups [] gb = [].
Proof. done. Qed.

Lemma unmatched_groups_cons_out kg ga gb :
  kg.1 ∉ gb.*1 → unmatched_groups (kg :: ga) gb = kg.2 ++ unmatched_groups ga gb.
Proof. intros H. unfold unmatched_groups. by rewrite filter_cons_True. Qed.

Lemma unmatched_groups_cons_in kg ga gb :
  kg.1 ∈ gb.*1 → unmatched_groups (kg :: ga) gb = unmatched_groups ga gb.
Proof.
  intros H. unfold unmatched_groups. rewrite filter_cons_False; [done|]. by intros ?.
Qed.

Lemma unmatched_groups_skip ga kg gb :
  (∀ x, x ∈ ga → x.1 ≠ kg.1) →
  unmatched_groups ga (kg :: gb) = unmatched_groups ga gb.
Proof.
  intros H. unfold unmatched_groups. do 2 f_equal. apply filter_ext_in.
  intros x Hx. cbn. rewrite not_elem_of_cons. naive_solver.
Qed.

Section join_loop.
Context (val_lt : val → val → result bool).
Context (set_order : gset string → list string) (Hso : set_order_ok set_order).
Context (sa sb : string) (keys : list string).
Context (T : list val → Prop) (Hord : total_order_on (list_lt val_lt) T).

Lemma sorted_groups_cons kg gs :
  sorted_groups val_lt keys T (kg :: gs) →
  T kg.1 ∧ kg.2 ≠ [] ∧ Forall (has_keys keys) kg.2 ∧
  sorted_groups val_lt keys T gs ∧
  (∀ x, x ∈ gs → T x.1 ∧ list_lt val_lt kg.1 x.1 = Ok true).
Proof.
  intros [Hall Hs]. apply Forall_cons in Hall as [(HT & Hne & Hrows) Hall].
  cbn in Hs. apply StronglySorted_inv in Hs as [Hs Hlt].
  split_and!; [done|done| |done|].
  - eapply Forall_impl; [exact Hrows|]. by intros r [? _].
  - intros x Hx. split.
    + by eapply Forall_forall in Hall as [? _].
    + eapply Forall_forall in Hlt; [done|]. apply list_elem_of_fmap. eauto.
Qed.

Lemma below_all_not_in k kg gs :
  T k → sorted_groups val_lt keys T (kg :: gs) →
  list_lt val_lt k kg.1 = Ok true → ∀ x, x ∈ kg :: gs → x.1 ≠ k.
Proof.
  intros Hk Hgs Hlt x Hx Heq.
  destruct (sorted_groups_cons _ _ Hgs) as (HT & _ & _ & _ & Hlater).
  pose proof Hord as (_ & Hirr & Htrans & _).
  apply elem_of_cons in Hx as [->|Hx].
  - rewrite Heq, Hirr in Hlt; [congruence|done].
  - destruct (Hlater x Hx) as [HTx Hx'].
    pose proof (Htrans _ _ _ Hk HT HTx Hlt Hx') as Hkx.
    rewrite Heq, Hirr in Hkx; [congruence|done].
Qed.

Lemma group_items_normal (g : list TRow) (later : list (list val * list TRow)) :
  group_items g later None = (g, None).
Proof. by destruct later. Qed.

Lemma _next_iter_normal (groups : list (list val * list TRow)) :
  _next_iter groups None = mret tt.
Proof. by destruct groups. Qed.

Lemma Join_loop_nil_cons (joiner : Joiner) bk bg gb :
  Join_loop val_lt joiner keys None None [] ((bk, bg) :: gb)
  = (joiner keys ([], None) (bg, None);; Join_loop val_lt joiner keys None None [] gb).
Proof.
  cbn [Join_loop]. rewrite group_items_normal, _next_iter_normal.
  apply G_bind_ext. intros _. by rewrite G_bind_ret.
Qed.

Lemma Join_loop_cons_nil (joiner : Joiner) ak ag ga :
  Join_loop val_lt joiner keys None None ((ak, ag) :: ga) []
  = (joiner keys (ag, None) ([], None);; Join_loop val_lt joiner keys None None ga []).
Proof.
  cbn [Join_loop]. rewrite group_items_normal, _next_iter_normal.
  apply G_bind_ext. intros _. by rewrite G_bind_ret.
Qed.

Lemma Join_loop_cons_cons (joiner : Joiner) ak ag ga bk bg gb :
  Join_loop val_lt joiner keys None None ((ak, ag) :: ga) ((bk, bg) :: gb)
  = (a_first ← lift (list_lt val_lt ak bk);
    if a_first : bool then
      joiner keys (ag, None) ([], None);;
      Join_loop val_lt joiner keys None None ga ((bk, bg) :: gb)
    else
      b_first ← lift (list_lt val_lt bk ak);
      if b_first : bool then
        joiner keys ([], None) (bg, None);;
        Join_loop val_lt joiner keys None None ((ak, ag) :: ga) gb
      else
        joiner keys (ag, None) (bg, None);;
        Join_loop val_lt joiner keys None None ga gb).
Proof.
  cbn [Join_loop]. rewrite !group_items_normal, !_next_iter_normal.
  apply G_bind_ext. intros [].
  - apply G_bind_ext. intros _. by rewrite G_bind_ret.
  - apply G_bind_ext. intros [].
    + apply G_bind_ext. intros _. by rewrite G_bind_ret.
    + apply G_bind_ext. intros _. by rewrite !G_bind_ret.
Qed.

Lemma Join_loop_outer_inner : ∀ ga gb,
  sorted_groups val_lt keys T ga → sorted_groups val_lt keys T gb →
  ∃ inner outer,
    Join_loop val_lt (InnerJoiner set_order sa sb) keys None None ga gb = (inner, Ok tt) ∧
    Join_loop val_lt (OuterJoiner set_order sa sb) keys None None ga gb = (outer, Ok tt) ∧
    outer ≡ₚ inner ++ unmatched_groups ga gb ++ unmatched_groups gb ga.
Proof.
  induction ga as [|[ak ag] ga IHa]; intros gb; induction gb as [|[bk bg] gb IHb];
    intros Hga Hgb.
  - exists [], []. done.
  - destruct (sorted_groups_cons _ _ Hgb) as (HTb & Hneb & Hkb & Hgb' & Hlater).
    destruct (IHb Hga Hgb') as (inner & outer & Hi & Ho & Hperm).
    exists inner, (bg ++ outer). rewrite !Join_loop_nil_cons.
    rewrite InnerJoiner_right_only by done. rewrite G_bind_pure.
    rewrite OuterJoiner_right_only by done.
    rewrite G_bind_yields, Ho. cbn [fst snd].
    split_and!; [done|done|].
    rewrite unmatched_groups_nil_l in *. cbn [app] in *.
    rewrite unmatched_groups_cons_out by apply not_elem_of_nil. cbn [snd].
    rewrite Hperm. apply Permutation_app_swap_app.
  - destruct (sorted_groups_cons _ _ Hga) as (HTa & Hnea & Hka & Hga' & Hlater).
    destruct (IHa [] Hga' Hgb) as (inner & outer & Hi & Ho & Hperm).
    exists inner, (ag ++ outer). rewrite !Join_loop_cons_nil.
    rewrite InnerJoiner_left_only. rewrite G_bind_pure.
    rewrite OuterJoiner_left_only by done.
    rewrite G_bind_yields, Ho. cbn [fst snd].
    split_and!; [done|done|].
    rewrite unmatched_groups_nil_l, app_nil_r in *.
    rewrite unmatched_groups_cons_out by apply not_elem_of_nil. cbn [snd].
    rewrite Hperm. apply Permutation_app_swap_app.
  - destruct (sorted_groups_cons _ _ Hga) as (HTa & Hnea & Hka & Hga' & Hlater_a).
    destruct (sorted_groups_cons _ _ Hgb) as (HTb & Hneb & Hkb & Hgb' & Hlater_b).
    simpl in HTa, HTb, Hnea, Hneb, Hka, Hkb.
    rewrite !Join_loop_cons_cons.
    pose proof Hord as (Hdef & Hirr & Htrans & Htot).
    destruct (Hdef ak bk HTa HTb) as [a_first Hab]. rewrite Hab, !G_bind_lift_ok.
    destruct a_first.
    { (* the left group has no match *)
      destruct (IHa ((bk, bg) :: gb) Hga' Hgb) as (inner & outer & Hi & Ho & Hperm).
      exists inner, (ag ++ outer).
      rewrite InnerJoiner_left_only, G_bind_pure.
      rewrite OuterJoiner_left_only by done.
      rewrite G_bind_yields, Ho. cbn [fst snd].
      split_and!; [done|done|].
      pose proof (below_all_not_in ak (bk, bg) gb HTa Hgb Hab) as Hnot.
      rewrite unmatched_groups_cons_out.
      2:{ intros (x & Heq & Hx)%list_elem_of_fmap. by apply (Hnot x). }
      rewrite (unmatched_groups_skip ((bk, bg) :: gb) (ak, ag) ga) by done. cbn [snd].
      rewrite Hperm, <-app_assoc. apply Permutation_app_swap_app. }
    destruct (Hdef bk ak HTb HTa) as [b_first Hba]. rewrite Hba, !G_bind_lift_ok.
    destruct b_first.
    { (* the right group has no match *)
      destruct (IHb Hga Hgb') as (inner & outer & Hi & Ho & Hperm).
      exists inner, (bg ++ outer).
      rewrite InnerJoiner_right_only by done. rewrite G_bind_pure.
      rewrite OuterJoiner_right_only by done.
      rewrite G_bind_yields, Ho. cbn [fst snd].
      split_and!; [done|done|].
      pose proof (below_all_not_in bk (ak, ag) ga HTb Hga Hba) as Hnot.
      rewrite (unmatched_groups_cons_out (bk, bg)).
      2:{ intros (x & Heq & Hx)%list_elem_of_fmap. by apply (Hnot x). }
      rewrite (unmatched_groups_skip ((ak, ag) :: ga) (bk, bg) gb) by done. cbn [snd].
      rewrite Hperm.
      rewrite (Permutation_app_swap_app bg inner). apply Permutation_app_head.
      apply Permutation_app_swap_app. }
    (* the groups match *)
    assert (ak = bk) as <-.
    { destruct (decide (ak = bk)) as [|Hne]; [done|].
      destruct (Htot ak bk HTa HTb Hne); congruence. }
    destruct (IHa gb Hga' Hgb') as (inner & outer & Hi & Ho & Hperm).
    set (P := ag ≫= λ a, prod_row_of set_order sa sb keys a <$> bg).
    exists (P ++ inner), (P ++ outer).
    rewrite InnerJoiner_both by done.
    rewrite OuterJoiner_both by done.
    rewrite !G_bind_yields, Hi, Ho. cbn [fst snd].
    split_and!; [done|done|].
    rewrite unmatched_groups_cons_in by (cbn; by left).
    rewrite (unmatched_groups_cons_in (ak, bg)) by (cbn; by left).
    rewrite (unmatched_groups_skip ga (ak, bg) gb).
    2:{ intros x Hx Heq. destruct (Hlater_a x Hx) as [HTx Hlt].
        rewrite Heq in Hlt. cbn in Hlt. rewrite Hirr in Hlt; [congruence|done]. }
    rewrite (unmatched_groups_skip gb (ak, ag) ga).
    2:{ intros x Hx Heq. destruct (Hlater_b x Hx) as [HTx Hlt].
        rewrite Heq in Hlt. cbn in Hlt. rewrite Hirr in Hlt; [congruence|done]. }
    rewrite Hperm. by rewrite <-app_assoc.
Qed.
End join_loop.

Lemma group_keys_iff val_lt keys T gs k :
  sorted_groups val_lt keys T gs →
  k ∈ gs.*1 ↔ k ∈ key_tuple keys <$> concat gs.*2.
Proof.
  intros [Hall _]. rewrite !list_elem_of_fmap. split.
  - intros ([k' g] & -> & Hkg).
    pose proof (proj1 (Forall_forall _ _) Hall _ Hkg) as (_ & Hne & Hrows). simpl in *.
    destruct g as [|r g]; [done|]. apply Forall_cons in Hrows as [[_ Hr] _].
    exists r. split; [done|]. apply elem_of_concat. exists (r :: g). split; [|by left].
    apply list_elem_of_fmap. by exists (k', r :: g).
  - intros (r & -> & (g & Hg & Hr)%elem_of_concat).
    apply list_elem_of_fmap in Hg as ([k' g'] & -> & Hkg).
    pose proof (proj1 (Forall_forall _ _) Hall _ Hkg) as (_ & _ & Hrows). simpl in *.
    exists (k', g'). split; [|done]. simpl.
    rewrite Forall_forall in Hrows. by destruct (Hrows r Hr) as [_ ->].
Qed.

Lemma unmatched_groups_rows val_lt keys T ga gb :
  sorted_groups val_lt keys T ga → sorted_groups val_lt keys T gb →
  unmatched_groups ga gb = unmatched_rows keys (concat ga.*2) (concat gb.*2).
Proof.
  intros Hga Hgb. unfold unmatched_rows.
  destruct Hga as [Hall _]. induction Hall as [|[k g] ga (_ & _ & Hrows) Hall IH]; [done|].
  cbn [fmap list_fmap concat snd]. rewrite filter_app, <-IH. simpl in Hrows.
  destruct (decide (k ∈ gb.*1)) as [Hin|Hnotin].
  - rewrite unmatched_groups_cons_in by done.
    rewrite filter_none; [done|]. intros r Hr Hne. apply Hne.
    rewrite Forall_forall in Hrows. destruct (Hrows r Hr) as [_ ->].
    by apply (group_keys_iff val_lt keys T gb).
  - rewrite unmatched_groups_cons_out by done. cbn [snd]. f_equal.
    symmetry. apply filter_all. intros r Hr Hin. apply Hnotin.
    rewrite Forall_forall in Hrows. destruct (Hrows r Hr) as [_ <-].
    by apply (group_keys_iff val_lt keys T gb).
Qed.

Lemma columns_ordered_app_tuple keys (A B : list TRow) r :
  r ∈ A ++ B → has_keys keys r →
  tuple_in ((λ k, column_values k (A ++ B)) <$> keys) (key_tuple keys r).
Proof. apply key_tuple_in. Qed.

(** C3: for two tables sorted ascending by the join keys, with every key
    column totally ordered over both, [Join] ends normally with either
    joiner, and the rows it yields with [OuterJoiner] are, as a multiset,
    those it yields with [InnerJoiner] together with the rows of either
    table whose key tuple does not occur in the other, unchanged. *)
Theorem OuterJoiner_is_inner_plus_unmatched
    (val_lt : val → val → result bool) (set_order : gset string → list string)
    (suffix_a suffix_b : string) (keys : list string) (rows_a rows_b : list TRow) :
  set_order_ok set_order →
  sorted_by val_lt keys rows_a →
  sorted_by val_lt keys rows_b →
  columns_ordered val_lt keys (rows_a ++ rows_b) →
  ∃ inner outer : list TRow,
    Join val_lt (InnerJoiner set_order suffix_a suffix_b) keys (rows_a, None) (rows_b, None)
      = (inner, Ok tt) ∧
    Join val_lt (OuterJoiner set_order suffix_a suffix_b) keys (rows_a, None) (rows_b, None)
      = (outer, Ok tt) ∧
    outer ≡ₚ inner ++ unmatched_rows keys rows_a rows_b ++ unmatched_rows keys rows_b rows_a.
Proof.
  intros Hso Ha Hb Hcols.
  set (T := tuple_in ((λ k, column_values k (rows_a ++ rows_b)) <$> keys)).
  pose proof (columns_ordered_tuples _ _ _ Hcols) as Hord. fold T in Hord.
  destruct (group_runs_sorted_groups val_lt keys _ rows_a Hord) as [Hga Hcat_a]; [|done|].
  { intros r Hr. apply key_tuple_in; [apply elem_of_app; by left|].
    destruct Ha as [Hk _]. by eapply Forall_forall in Hk. }
  destruct (group_runs_sorted_groups val_lt keys _ rows_b Hord) as [Hgb Hcat_b]; [|done|].
  { intros r Hr. apply key_tuple_in; [apply elem_of_app; by right|].
    destruct Hb as [Hk _]. by eapply Forall_forall in Hk. }
  destruct (Join_loop_outer_inner val_lt set_order Hso suffix_a suffix_b keys T Hord _ _ Hga Hgb)
    as (inner & outer & Hi & Ho & Hperm).
  exists inner, outer.
  unfold Join. rewrite !groupby_comparator by (by destruct Ha, Hb).
  cbn [fst snd]. rewrite !_next_iter_normal, !G_bind_ret.
  split_and!; [done|done|].
  by rewrite Hperm, (unmatched_groups_rows val_lt keys T), (unmatched_groups_rows val_lt keys T),
    Hcat_a, Hcat_b.
Qed.

Lemma join_rows_k_ints v :
  column_values "k" (join_left ++ join_right) v → ∃ z, v = VInt z.
Proof.
  intros (r & Hr & Hv). unfold join_left, join_right in Hr. cbn [app] in Hr.
  repeat (apply elem_of_cons in Hr as [->|Hr]; [vm_compute in Hv; simplify_eq; eauto|]).
  by apply elem_of_nil in Hr.
Qed.

Lemma join_left_sorted : sorted_by py_lt ["k"] join_left.
Proof.
  split; [exact join_left_has_k|].
  unfold join_left. repeat (constructor; [|repeat constructor]); constructor.
Qed.

Lemma join_right_sorted : sorted_by py_lt ["k"] join_right.
Proof.
  split; [repeat constructor; by eexists|].
  unfold join_right. repeat (constructor; [|repeat constructor]); constructor.
Qed.

Lemma OuterJoiner_is_inner_plus_unmatched_witness :
  ∃ inner outer : list TRow,
    Join py_lt (InnerJoiner elements "_1" "_2") ["k"] (join_left, None) (join_right, None)
      = (inner, Ok tt) ∧
    Join py_lt (OuterJoiner elements "_1" "_2") ["k"] (join_left, None) (join_right, None)
      = (outer, Ok tt) ∧
    outer ≡ₚ inner ++ unmatched_rows ["k"] join_left join_right
                   ++ unmatched_rows ["k"] join_right join_left.
Proof.
  apply OuterJoiner_is_inner_plus_unmatched.
  - exact elements_set_order_ok.
  - exact join_left_sorted.
  - exact join_right_sorted.
  - constructor; [apply py_lt_total_order_int, join_rows_k_ints|constructor].
Defined.
(** ** TermFrequency *)


Lemma elem_of_first_seen v vs : v ∈ first_seen vs ↔ v ∈ vs.
Proof.
  induction vs as [|x vs IH]; [done|]. cbn.
  rewrite !elem_of_cons, list_elem_of_filter, IH.
  destruct (decide (v = x)); naive_solver.
Qed.

Lemma NoDup_first_seen vs : NoDup (first_seen vs).
Proof.
  induction vs as [|x vs IH]; [constructor|]. cbn. constructor.
  - rewrite list_elem_of_filter. naive_solver.
  - by apply NoDup_filter.
Qed.

Lemma first_seen_snoc vs w :
  first_seen (vs ++ [w]) = if decide (w ∈ vs) then first_seen vs else first_seen vs ++ [w].
Proof.
  induction vs as [|x vs IH]; [done|]. cbn. rewrite IH.
  destruct (decide (w ∈ vs)) as [Hin|Hnotin].
  - rewrite decide_True by (by right). done.
  - rewrite filter_app. destruct (decide (w = x)) as [->|Hne].
    + rewrite decide_True by (by left).
      rewrite (filter_none (λ y, y ≠ x) [x]); [by rewrite app_nil_r|].
      intros y ->%list_elem_of_singleton. naive_solver.
    + rewrite decide_False by (by intros [?|?]%elem_of_cons).
      rewrite (filter_all (λ y, y ≠ x) [w]); [done|].
      by intros y ->%list_elem_of_singleton.
Qed.

Lemma occurrences_snoc v vs w :
  occurrences v (vs ++ [w]) = occurrences v vs + (if decide (w = v) then 1 else 0).
Proof.
  unfold occurrences. rewrite filter_app, length_app.
  destruct (decide (w = v)) as [->|Hne].
  - rewrite (filter_all _ [v]) by (by intros y ->%list_elem_of_singleton). simpl. lia.
  - rewrite (filter_none _ [w]) by (by intros y ->%list_elem_of_singleton). simpl. lia.
Qed.

Lemma occurrences_notin v vs : v ∉ vs → occurrences v vs = 0.
Proof.
  intros Hv. unfold occurrences. rewrite filter_none; [done|]. by intros x Hx ->.
Qed.

Lemma counts_incr_known (c : val → Z) fs w :
  w ∈ fs → NoDup fs →
  counts_incr ((λ v, (v, c v)) <$> fs) w
  = (λ v, (v, c v + (if decide (w = v) then 1 else 0))) <$> fs.
Proof.
  induction fs as [|x fs IH]; intros Hw Hnd; [by apply elem_of_nil in Hw|].
  apply NoDup_cons in Hnd as [Hx Hnd]. cbn.
  destruct (decide (x = w)) as [->|Hne].
  - rewrite decide_True by done. f_equal.
    apply list_fmap_ext. intros i v Hv. f_equal.
    rewrite decide_False; [lia|]. intros ->. apply Hx. by eapply list_elem_of_lookup_2.
  - rewrite (decide_False (P := w = x)) by done. rewrite Z.add_0_r. f_equal.
    apply IH; [|done]. apply elem_of_cons in Hw as [?|?]; [congruence|done].
Qed.

Lemma counts_incr_new (c : val → Z) fs w :
  w ∉ fs → counts_incr ((λ v, (v, c v)) <$> fs) w = ((λ v, (v, c v)) <$> fs) ++ [(w, 1)].
Proof.
  induction fs as [|x fs IH]; intros Hw; [done|]. cbn.
  apply not_elem_of_cons in Hw as [Hne Hw]. rewrite decide_False by done.
  by rewrite IH.
Qed.

Lemma tally_snoc vs w : counts_incr (tally vs) w = tally (vs ++ [w]).
Proof.
  unfold tally. rewrite first_seen_snoc. case_decide as Hw.
  - rewrite counts_incr_known; [|by apply elem_of_first_seen|apply NoDup_first_seen].
    apply list_fmap_ext. intros i v _. by rewrite occurrences_snoc.
  - rewrite counts_incr_new by (by rewrite elem_of_first_seen).
    rewrite fmap_app. cbn. rewrite occurrences_snoc, decide_True by done.
    rewrite (occurrences_notin w vs) by done. f_equal.
    apply list_fmap_ext. intros i v Hv. rewrite occurrences_snoc.
    rewrite decide_False; [by rewrite Z.add_0_r|].
    intros ->. apply Hw. apply elem_of_first_seen. by eapply list_elem_of_lookup_2.
Qed.

Lemma dict_of_keys_project keys (row : TRow) :
  has_keys keys row → dict_of_keys keys row = ([], Ok (project keys row)).
Proof.
  intros Hk. unfold dict_of_keys.
  rewrite for_each_inserts by (intros k Hin; by eapply Forall_forall in Hk).
  do 2 f_equal. apply (map_eq (M := gmap string)). intros j. rewrite project_lookup.
  case_decide as Hj.
  - rewrite lookup_foldl_insert_in by done.
    eapply Forall_forall in Hk as [v Hv]; [|done]. by rewrite Hv.
  - by rewrite lookup_foldl_insert_notin.
Qed.

Lemma project_empty_iff keys (row : TRow) :
  has_keys keys row → project keys row = ∅ ↔ keys = [].
Proof.
  intros Hk. split.
  - intros He. destruct keys as [|k keys]; [done|].
    apply Forall_cons in Hk as [[v Hv] _].
    assert (project (k :: keys) row !! k = Some v) as Hl.
    { rewrite project_lookup, decide_True by (by left). done. }
    rewrite He, lookup_empty in Hl. done.
  - intros ->. apply (map_eq (M := gmap string)). intros j.
    rewrite project_lookup, lookup_empty. by rewrite decide_False by apply not_elem_of_nil.
Qed.

Section term_frequency.
Context (w res : string) (keys : list string).

Lemma TermFrequency_loop rows : ∀ seen,
  Forall (has_keys keys) (seen ++ rows) →
  Forall (λ r, is_Some (r !! w)) rows →
  for_each rows (λ row (st : list (val * Z) * Z * TRow),
    let '(counts, counter, return_row) := st in
    return_row' ← (if decide (return_row = ∅) then dict_of_keys keys row
                   else mret return_row);
    word ← getitem row w;
    mret (counts_incr counts word, counter + 1, return_row'))
    (tally (column w seen), Z.of_nat (length seen),
     from_option (project keys) ∅ (head seen))
  = ([], Ok (tally (column w (seen ++ rows)), Z.of_nat (length (seen ++ rows)),
             from_option (project keys) ∅ (head (seen ++ rows)))).
Proof.
  induction rows as [|r rows IH]; intros seen Hk Hw.
  { by rewrite app_nil_r. }
  apply Forall_cons in Hw as [[v Hv] Hw].
  assert (has_keys keys r) as Hkr.
  { apply (proj1 (Forall_forall _ _) Hk). apply elem_of_app. right. by left. }
  cbn [for_each].
  assert ((if decide (from_option (project keys) ∅ (head seen) = ∅)
           then dict_of_keys keys r
           else mret (from_option (project keys) ∅ (head seen)))
          = ([], Ok (from_option (project keys) ∅ (head (seen ++ [r]))))) as ->.
  { destruct seen as [|r1 seen]; cbn.
    - rewrite decide_True by done. by apply dict_of_keys_project.
    - assert (has_keys keys r1) as Hk1.
      { apply (proj1 (Forall_forall _ _) Hk). by left. }
      case_decide as He; [|done].
      apply project_empty_iff in He; [|done]. subst keys.
      rewrite dict_of_keys_project by done.
      do 2 f_equal. apply (map_eq (M := gmap string)). intros j.
      rewrite !project_lookup. by rewrite !decide_False by apply not_elem_of_nil. }
  rewrite G_bind_pure, (getitem_Some _ _ _ Hv), G_bind_pure, G_bind_ret.
  specialize (IH (seen ++ [r])).
  rewrite <-!app_assoc in IH. cbn [app] in IH.
  rewrite <-IH by done.
  do 4 f_equal.
  - unfold column at 2. rewrite fmap_app. cbn. rewrite Hv. cbn. apply tally_snoc.
  - rewrite length_app. cbn. lia.
Qed.

Lemma TermFrequency_value rows :
  Forall (has_keys keys) rows →
  Forall (λ r, is_Some (r !! w)) rows →
  TermFrequency w res keys (rows, None)
  = ((λ v, <[res := VFloatDiv (occurrences v (column w rows)) (Z.of_nat (length rows))]>
             (<[w := v]> (from_option (project keys) ∅ (head rows))))
       <$> first_seen (column w rows), Ok tt).
Proof.
  intros Hk Hw. unfold TermFrequency, for_in. cbn [fst snd].
  pose proof (TermFrequency_loop rows [] Hk Hw) as Hloop.
  cbn [app head from_option length] in Hloop.
  change (tally (column w [])) with (@nil (val * Z)) in Hloop.
  change (Z.of_nat 0) with 0 in Hloop.
  rewrite Hloop, G_bind_pure, G_bind_ret.
  rewrite (for_each_yield_all (λ kv : val * Z,
    <[res := VFloatDiv kv.2 (Z.of_nat (length rows))]>
      (<[w := kv.1]> (from_option (project keys) ∅ (head rows))))).
  f_equal. unfold tally. by rewrite <-list_fmap_compose.
Qed.
End term_frequency.

Lemma key_tuple_eq_lookup keys (r r' : TRow) k :
  has_keys keys r → has_keys keys r' → key_tuple keys r = key_tuple keys r' →
  k ∈ keys → r !! k = r' !! k.
Proof.
  unfold key_tuple. induction keys as [|k0 keys IH]; intros Hr Hr' Heq Hk.
  { by apply elem_of_nil in Hk. }
  apply Forall_cons in Hr as [[v Hv] Hr]. apply Forall_cons in Hr' as [[v' Hv'] Hr'].
  cbn in Heq. rewrite Hv, Hv' in Heq. cbn in Heq. injection Heq as -> Heq.
  apply elem_of_cons in Hk as [->|Hk]; [congruence|]. by apply IH.
Qed.

Lemma dom_project keys (r : TRow) :
  has_keys keys r → dom (project keys r) = list_to_set keys.
Proof.
  intros Hk. apply set_eq. intros k.
  rewrite elem_of_dom, elem_of_list_to_set, project_lookup.
  destruct (decide (k ∈ keys)) as [Hin|Hin]; [|split; [by intros [? ?]|done]].
  split; [done|]. intros _. by apply (proj1 (Forall_forall _ _) Hk).
Qed.

Lemma elem_of_column col rows v :
  v ∈ column col rows → Forall (λ r, is_Some (r !! col)) rows →
  ∃ r, r ∈ rows ∧ r !! col = Some v.
Proof.
  intros (r & -> & Hr)%list_elem_of_fmap Hcol.
  exists r. split; [done|]. eapply Forall_forall in Hcol as [v Hv]; [|done].
  by rewrite Hv.
Qed.

(** C6 (amended): on a non-empty group whose rows carry the group keys and
    the word column, with [None], integers or strings for words,
    [TermFrequency(word_col, result)] with [result] different from
    [word_col] and not a group key ends normally and yields one row per
    distinct value [v] of the word column, in the order the values are first
    seen; the row for [v] has the group-key columns of the group,
    [word_col = v] and [result] the float [count(v) / |group|], and no other
    column. *)
Theorem TermFrequency_rows
    (words_column result_column : string) (keys : list string) (rows : list TRow) :
  uniform_run keys rows →
  Forall (has_keys keys) rows →
  Forall (λ r, is_Some (r !! words_column)) rows →
  Forall exact_val (column words_column rows) →
  result_column ≠ words_column →
  result_column ∉ keys →
  ∃ out : list TRow,
    TermFrequency words_column result_column keys (rows, None) = (out, Ok tt) ∧
    term_frequency_spec words_column result_column keys rows out.
Proof.
  intros [Hne Hu] Hk Hw _ Hrw Hrk.
  eexists. split; [by apply TermFrequency_value|].
  unfold term_frequency_spec. apply Forall2_fmap_r, Forall_Forall2_diag, Forall_forall.
  intros v Hv. apply (proj1 (elem_of_first_seen _ _)) in Hv.
  destruct rows as [|r0 rows]; [done|]. cbn [head default from_option].
  destruct (elem_of_column _ _ _ Hv Hw) as (r & Hr & Hrv).
  assert (has_keys keys r0) as Hk0 by (by apply Forall_cons in Hk as [? _]).
  assert (has_keys keys r) as Hkr by (by apply (proj1 (Forall_forall _ _) Hk)).
  split_and!.
  - intros k Hkk.
    assert (k ≠ result_column) as Hkres by (by intros ->).
    rewrite lookup_insert_ne by done.
    destruct (decide (k = words_column)) as [->|Hkw].
    + rewrite lookup_insert_eq, <-Hrv. apply key_tuple_eq_lookup with keys; try done.
      apply Hu; [done|by left].
    + rewrite lookup_insert_ne by done. rewrite project_lookup. by rewrite decide_True.
  - rewrite lookup_insert_ne by done. apply lookup_insert_eq.
  - apply lookup_insert_eq.
  - rewrite !dom_insert_L, (dom_project keys r0 Hk0). set_solver.
Qed.

Lemma TermFrequency_rows_witness :
  ∃ out : list TRow,
    TermFrequency "w" "tf" ["d"] (tf_group, None) = (out, Ok tt) ∧
    term_frequency_spec "w" "tf" ["d"] tf_group out.
Proof.
  apply TermFrequency_rows.
  - split; [done|]. intros r r' Hr Hr'. unfold tf_group in Hr, Hr'.
    repeat (apply elem_of_cons in Hr as [->|Hr]);
      repeat (apply elem_of_cons in Hr' as [->|Hr']);
      try done; by apply elem_of_nil in Hr || by apply elem_of_nil in Hr'.
  - repeat constructor; by eexists.
  - repeat constructor; by eexists.
  - repeat constructor.
  - done.
  - intros H. apply list_elem_of_singleton in H. discriminate.
Defined.

(** C6 as stated fails when the result column is the word column: the
    frequency overwrites the word. *)
Lemma TermFrequency_same_column_counterexample :
  ∃ out, TermFrequency "w" "w" [] ([ {["w" := VStr "a"]} ], None) = (out, Ok tt) ∧
         ¬ term_frequency_spec "w" "w" [] [ {["w" := VStr "a"]} ] out.
Proof.
  eexists. split; [vm_compute; reflexivity|].
  intros Hspec. unfold term_frequency_spec in Hspec. cbn in Hspec.
  apply Forall2_cons_1 in Hspec as [(_ & Hw & _ & _) _].
  vm_compute in Hw. discriminate.
Qed.

(** ** Split *)

(** C7, as stated, fails on the empty string: nothing matches in it, and
    [Split] yields no row, where the statement asks for one. *)
Lemma Split_empty_string_counterexample :
  ∃ ys σ', Split "text" default_separator 0%nat [ {["text" := VStr ""]} ] = (ys, Ok tt, σ') ∧
    ¬ split_claim "text" {["text" := VStr ""]} "" (default_separator "") (deref σ' <$> ys).
Proof.
  do 2 eexists. split; [vm_compute; reflexivity|].
  intros [_ Hone]. specialize (Hone eq_refl). discriminate.
Qed.

Lemma H_bind_ok {A B : Type} (m : H A) (f : A → H B) σ ys a σ1 :
  m σ = (ys, Ok a, σ1) →
  (m ≫= f) σ = ((ys ++ (f a σ1).1.1, (f a σ1).1.2), (f a σ1).2).
Proof. intros Hm. unfold mbind, H_bind. rewrite Hm. by destruct (f a σ1) as [[??]?]. Qed.

Lemma deref_app_last (σ : heap) (d : TRow) : deref (σ ++ [d]) (length σ) = d.
Proof. unfold deref. by rewrite lookup_app_r, Nat.sub_diag by lia. Qed.

Lemma alter_app_last (f : TRow → TRow) (σ : heap) (d : TRow) :
  alter f (length σ) (σ ++ [d]) = σ ++ [f d].
Proof.
  rewrite alter_app_r_alt by lia. by rewrite Nat.sub_diag.
Qed.

Section split.
Context (column : string) (text : string) (row : TRow).

Lemma Split_loop spans : ∀ prev (σ1 : heap) (d : TRow),
  same_off column row d →
  ∃ d', same_off column row d' ∧
    h_for_each spans (λ cur (st : nat * nat),
      let '(prev, row) := st in
      row_setitem row column (VStr (slice text prev cur.1));;
      h_yield row;;
      let prev := cur.2 in
      row ← row_copy row;
      mret (prev, row)) (prev, length σ1) (σ1 ++ [d])
    = (seq (length σ1) (length spans),
       Ok (last_end prev spans, (length σ1 + length spans)%nat),
       σ1 ++ ((λ tok, <[column := VStr tok]> row) <$> separator_tokens text prev spans)
          ++ [d']).
Proof.
  induction spans as [|[s e] spans IH]; intros prev σ1 d Hd.
  - exists d. split; [done|]. cbn. by rewrite Nat.add_0_r.
  - destruct (IH e (σ1 ++ [<[column := VStr (slice text prev s)]> row])
                (<[column := VStr (slice text prev s)]> row)) as (d' & Hd' & Hloop).
    { intros v. apply insert_insert_eq. }
    exists d'. split; [done|].
    cbn [h_for_each].
    erewrite H_bind_ok; last first.
    { unfold mbind, H_bind, row_setitem, h_yield, row_copy, new_row, mret, H_ret. cbn.
      rewrite alter_app_last, Hd, deref_app_last. reflexivity. }
    rewrite length_app in Hloop. cbn [length] in Hloop.
    rewrite length_app. cbn [length fst snd].
    replace (length σ1 + 1)%nat with (S (length σ1)) in * by lia.
    rewrite Hloop. cbn [fst snd].
    unfold last_end, separator_tokens. cbn [fmap list_fmap zip_with snd fst seq app].
    rewrite <-!app_assoc. cbn [app].
    assert (default e (last spans.*2) = default prev (last (e :: spans.*2))) as ->.
    2:{ by replace (S (length σ1) + length spans)%nat
          with (length σ1 + S (length spans))%nat by lia. }
    destruct (spans.*2) as [|x l] eqn:Hx; [done|].
    change (last (e :: x :: l)) with (last (x :: l)).
    destruct (last (x :: l)) eqn:Hl; [done|]. by apply last_None in Hl.
Qed.
End split.

Lemma substring_all (s : string) : String.substring 0 (String.length s) s = s.
Proof. induction s as [|c s IH]; [done|]. cbn. by rewrite IH. Qed.

Lemma length_separator_tokens text prev spans :
  length (separator_tokens text prev spans) = length spans.
Proof.
  unfold separator_tokens. rewrite length_zip_with. cbn [length].
  rewrite length_fmap. lia.
Qed.

Lemma deref_seq_app (σ R rest : heap) :
  deref (σ ++ R ++ rest) <$> seq (length σ) (length R) = R.
Proof.
  apply list_eq. intros i. rewrite list_lookup_fmap.
  destruct (R !! i) as [d|] eqn:Hd.
  - rewrite (lookup_seq_lt _ _ i) by (by eapply lookup_lt_Some). cbn.
    unfold deref. rewrite lookup_app_r by lia.
    replace (length σ + i - length σ)%nat with i by lia.
    rewrite lookup_app_l by (by eapply lookup_lt_Some). by rewrite Hd.
  - rewrite lookup_seq_ge; [done|]. by apply lookup_ge_None.
Qed.

Lemma deref_app_app_last (σ R : heap) (d : TRow) :
  deref (σ ++ R ++ [d]) (length σ + length R) = d.
Proof. rewrite app_assoc, <-length_app. apply deref_app_last. Qed.

Lemma alter_app_app_last (f : TRow → TRow) (σ R : heap) (d : TRow) :
  alter f (length σ + length R)%nat (σ ++ R ++ [d]) = σ ++ R ++ [f d].
Proof. rewrite !app_assoc, <-length_app. apply alter_app_last. Qed.

(** C7 (amended): for a row object whose column holds a string, [Split]
    ends normally, leaves the object as it was and yields fresh objects, all
    different, that are copies of the row with the column replaced by the
    tokens in order: the text before each separator match, then the tail
    after the last match if it is not empty.  When nothing matches, a
    non-empty string gives exactly one row, with the full string, and the
    empty string gives none. *)
Theorem Split_rows
    (column : string) (separator : string → list (nat * nat))
    (row : nat) (σ : heap) (d : TRow) (text : string) :
  σ !! row = Some d →
  d !! column = Some (VStr text) →
  ∃ (ys : list nat) (σ' : heap),
    Split column separator row σ = (ys, Ok tt, σ') ∧
    σ' !! row = Some d ∧
    Forall (λ y, length σ ≤ y)%nat ys ∧ NoDup ys ∧
    deref σ' <$> ys
      = (λ tok, <[column := VStr tok]> d) <$> split_tokens text (separator text) ∧
    (separator text = [] → text ≠ EmptyString →
       deref σ' <$> ys = [<[column := VStr text]> d]) ∧
    (separator text = [] → text = EmptyString → ys = []).
Proof.
  intros Hrow Hcol.
  assert (row < length σ)%nat as Hlt by (by eapply lookup_lt_Some).
  assert (deref σ row = d) as Hderef by (unfold deref; by rewrite Hrow).
  destruct (Split_loop column text d (separator text) 0%nat σ d) as (d' & Hd' & Hloop).
  { by intros v. }
  remember ((λ tok, <[column := VStr tok]> d) <$> separator_tokens text 0 (separator text))
    as R eqn:HeqR.
  assert (length R = length (separator text)) as HR.
  { rewrite HeqR. by rewrite length_fmap, length_separator_tokens. }
  assert (Split column separator row σ
          = if decide (String.length text ≠ last_end 0 (separator text)) then
              (seq (length σ) (length (separator text))
                 ++ [(length σ + length (separator text))%nat], Ok tt,
               σ ++ R ++ [<[column := VStr (slice_from text (last_end 0 (separator text)))]> d])
            else (seq (length σ) (length (separator text)), Ok tt, σ ++ R ++ [d'])) as Hsplit.
  { unfold Split.
    erewrite H_bind_ok; last first.
    { unfold row_getitem. rewrite Hderef. unfold row_get. rewrite Hcol. reflexivity. }
    erewrite H_bind_ok; last first.
    { unfold row_copy, new_row. rewrite Hderef. reflexivity. }
    erewrite H_bind_ok; last first.
    { reflexivity. }
    erewrite H_bind_ok; last first.
    { cbn [as_text]. exact Hloop. }
    cbn [fst snd app]. case_decide as Hlen.
    - unfold mbind, H_bind, row_setitem, h_yield. cbn.
      rewrite <-HR, alter_app_app_last, Hd'. by rewrite ?app_nil_r.
    - unfold mret, H_ret. cbn. by rewrite ?app_nil_r. }
  assert (row ∉ seq (length σ) (length (separator text))) as Hfresh.
  { rewrite elem_of_seq. lia. }
  destruct (decide (String.length text ≠ last_end 0 (separator text))) as [Hlen|Hlen].
  - do 2 eexists. split; [exact Hsplit|]. split_and!.
    + by rewrite lookup_app_l.
    + apply Forall_app. split; [|repeat constructor; lia].
      apply Forall_forall. intros y Hy%elem_of_seq. lia.
    + apply NoDup_app. split_and!; [apply NoDup_seq| |apply NoDup_singleton].
      intros y Hy%elem_of_seq ->%list_elem_of_singleton. lia.
    + rewrite fmap_app. rewrite <-HR at 1. rewrite deref_seq_app.
      cbn [fmap list_fmap]. rewrite <-HR, deref_app_app_last.
      unfold split_tokens, tail_token. rewrite decide_False by done.
      by rewrite fmap_app, HeqR.
    + intros Hnone Htext. rewrite Hnone in *. cbn in *. subst R. cbn.
      unfold deref. rewrite lookup_app_r by lia. rewrite Nat.add_0_r, Nat.sub_diag. cbn.
      unfold slice_from. by rewrite Nat.sub_0_r, substring_all.
    + intros Hnone ->. rewrite Hnone in Hlen. done.
  - do 2 eexists. split; [exact Hsplit|]. split_and!.
    + by rewrite lookup_app_l.
    + apply Forall_forall. intros y Hy%elem_of_seq. lia.
    + apply NoDup_seq.
    + rewrite <-HR, deref_seq_app.
      unfold split_tokens, tail_token. rewrite decide_True by (by apply dec_stable).
      by rewrite app_nil_r, HeqR.
    + intros Hnone Htext. exfalso. apply Htext. rewrite Hnone in Hlen.
      apply dec_stable in Hlen. cbn in Hlen. by destruct text.
    + intros Hnone _. by rewrite Hnone.
Qed.

Lemma Split_rows_witness :
  ∃ (ys : list nat) (σ' : heap),
    Split "text" default_separator 0%nat split_heap = (ys, Ok tt, σ') ∧
    σ' !! 0%nat = Some {["text" := VStr "a b"; "doc" := VInt 1]} ∧
    Forall (λ y, length split_heap ≤ y)%nat ys ∧ NoDup ys ∧
    deref σ' <$> ys
      = (λ tok, <["text" := VStr tok]> {["text" := VStr "a b"; "doc" := VInt 1]})
          <$> split_tokens "a b" (default_separator "a b") ∧
    (default_separator "a b" = [] → "a b" ≠ EmptyString →
       deref σ' <$> ys = [<["text" := VStr "a b"]> {["text" := VStr "a b"; "doc" := VInt 1]}]) ∧
    (default_separator "a b" = [] → "a b" = EmptyString → ys = []).
Proof.
  apply Split_rows; reflexivity.
Defined.

(** ** Mappers and the row they are given *)

Section keeps.
Context {A B : Type} (n : nat).

Lemma keeps_ret (a : A) (Q : A → Prop) : Q a → keeps n (mret a) Q.
Proof. intros HQ σ Hn. split_and!; [done..|]. by intros a' [= <-]. Qed.

Lemma keeps_bind (m : H A) (f : A → H B) (Q : A → Prop) (R : B → Prop) :
  keeps n m Q → (∀ a, Q a → keeps n (f a) R) → keeps n (m ≫= f) R.
Proof.
  intros Hm Hf σ Hn. destruct (Hm σ Hn) as (Ht & Hl & HQ).
  unfold mbind, H_bind. destruct (m σ) as [[ys [a|e]] σ1]; cbn in *; [|done].
  destruct (Hf a (HQ a eq_refl) σ1 Hl) as (Ht' & Hl' & HR).
  destruct (f a σ1) as [[ys' r] σ2]; cbn in *. split_and!; [congruence|done..].
Qed.

Lemma keeps_weaken (m : H A) (Q Q' : A → Prop) :
  keeps n m Q → (∀ a, Q a → Q' a) → keeps n m Q'.
Proof.
  intros Hm HQ σ Hn. destruct (Hm σ Hn) as (Ht & Hl & Ha). split_and!; [done..|].
  intros a Hr. by apply HQ, Ha.
Qed.

Lemma keeps_h_lift (r : result A) : keeps n (h_lift r) (λ _, True).
Proof. by intros σ Hn. Qed.

End keeps.

Lemma keeps_h_for_each {X S : Type} n (xs : list X) (body : X → S → H S) (I : S → Prop) :
  (∀ x s, I s → keeps n (body x s) I) → ∀ s, I s → keeps n (h_for_each xs body s) I.
Proof.
  intros Hbody. induction xs as [|x xs IH]; intros s Hs; cbn [h_for_each].
  - by apply keeps_ret.
  - apply (keeps_bind n _ _ I I); [by apply Hbody|]. intros s' Hs'. by apply IH.
Qed.

Lemma keeps_h_yield n row : keeps n (h_yield row) (λ _, True).
Proof. by intros σ Hn. Qed.

Lemma keeps_get_row n row : keeps n (get_row row) (λ _, True).
Proof. by intros σ Hn. Qed.

Lemma keeps_row_getitem n row k : keeps n (row_getitem row k) (λ _, True).
Proof. by intros σ Hn. Qed.

Lemma keeps_row_setitem n row k v :
  (n ≤ row)%nat → keeps n (row_setitem row k v) (λ _, True).
Proof.
  intros Hrow σ Hn. cbn. split_and!; [by apply take_alter_ge| |done].
  by rewrite length_alter.
Qed.

Lemma keeps_new_row n d : keeps n (new_row d) (λ row, (n ≤ row)%nat).
Proof.
  intros σ Hn. cbn. split_and!.
  - by apply take_app_le.
  - rewrite length_app. lia.
  - by intros a [= <-].
Qed.

Lemma keeps_row_copy n row : keeps n (row_copy row) (λ row', (n ≤ row')%nat).
Proof. intros σ Hn. unfold row_copy. by apply keeps_new_row. Qed.

Lemma keeps_read_only (mapper : nat → H unit) :
  (∀ n row, keeps n (mapper row) (λ _, True)) → read_only mapper.
Proof.
  intros Hm σ row. destruct (Hm (length σ) row σ) as (Ht & _); [done|].
  by rewrite Ht, take_ge.
Qed.

Create HintDb keeps.
#[local] Hint Resolve keeps_h_yield keeps_get_row keeps_row_getitem keeps_row_setitem
  keeps_new_row keeps_row_copy keeps_h_lift keeps_ret : keeps.

Ltac keeps_step :=
  first
    [ eapply keeps_bind; [solve [eauto with keeps]|]; intros ? ?
    | solve [eauto with keeps] ].

Lemma DummyMapper_read_only : read_only DummyMapper.
Proof. apply keeps_read_only. intros n row. apply keeps_h_yield. Qed.

Lemma Split_read_only column separator : read_only (Split column separator).
Proof.
  apply keeps_read_only. intros n row. unfold Split.
  do 3 keeps_step.
  eapply keeps_bind.
  { apply (keeps_h_for_each n _ _ (λ st, (n ≤ st.2)%nat)); [|done].
    intros cur [prev r] Hr. cbn in Hr. repeat keeps_step. }
  intros [prev r] Hr. cbn in Hr. case_decide; repeat keeps_step.
Qed.

Section mappers.
Context (val_mul : val → val → result val).
Context (condition : TRow → result bool).
Context (func : list val → result val).
Context (_make_datetime : val → result val).
Context (_haversine_dist : val → val → result val).

Lemma Product_read_only columns result_column :
  read_only (Product val_mul columns result_column).
Proof.
  apply keeps_read_only. intros n row. unfold Product.
  keeps_step.
  eapply keeps_bind.
  { apply (keeps_h_for_each n _ _ (λ _, True)); [|done].
    intros col p _. repeat keeps_step. }
  intros p _. repeat keeps_step.
Qed.

Lemma Filter_read_only : read_only (Filter condition).
Proof.
  apply keeps_read_only. intros n row. unfold Filter.
  do 2 keeps_step. destruct a0; keeps_step.
Qed.

Lemma Project_read_only columns : read_only (Project columns).
Proof.
  apply keeps_read_only. intros n row. unfold Project.
  eapply keeps_bind.
  { apply (keeps_h_for_each n _ _ (λ _, True)); [|done].
    intros k d _. repeat keeps_step. }
  intros d _. repeat keeps_step.
Qed.

Lemma Apply_read_only columns result_column :
  read_only (Apply func columns result_column).
Proof.
  apply keeps_read_only. intros n row. unfold Apply.
  eapply keeps_bind.
  { apply (keeps_h_for_each n _ _ (λ _, True)); [|done].
    intros k d _. repeat keeps_step. }
  intros d _. repeat keeps_step.
Qed.

Lemma StringToDateTime_read_only columns :
  read_only (StringToDateTime _make_datetime columns).
Proof.
  apply keeps_read_only. intros n row. unfold StringToDateTime.
  keeps_step.
  eapply keeps_bind.
  { apply (keeps_h_for_each n _ _ (λ _, True)); [|done].
    intros k d _. repeat keeps_step. }
  intros d _. repeat keeps_step.
Qed.

Lemma HaversineDist_read_only start_column end_column column :
  read_only (HaversineDist _haversine_dist start_column end_column column).
Proof.
  apply keeps_read_only. intros n row. unfold HaversineDist. repeat keeps_step.
Qed.

Lemma Remove_read_only columns : read_only (Remove columns).
Proof.
  apply keeps_read_only. intros n row. unfold Remove. repeat keeps_step.
Qed.
End mappers.

Lemma FilterPunctuation_assigns column (σ : heap) row (d : TRow) s :
  σ !! row = Some d → d !! column = Some (VStr s) →
  FilterPunctuation column row σ
  = ([row], Ok tt, alter (<[column := VStr (remove_punctuation s)]>) row σ).
Proof.
  intros Hrow Hcol. unfold FilterPunctuation, mbind, H_bind, row_getitem, deref.
  rewrite Hrow. cbn. unfold row_get. by rewrite Hcol.
Qed.

Lemma LowerCase_assigns column (σ : heap) row (d : TRow) s :
  σ !! row = Some d → d !! column = Some (VStr s) →
  LowerCase column row σ = ([row], Ok tt, alter (<[column := VStr (lower s)]>) row σ).
Proof.
  intros Hrow Hcol. unfold LowerCase, mbind, H_bind, row_getitem, deref.
  rewrite Hrow. cbn. unfold row_get. by rewrite Hcol.
Qed.

(** C8 fails on the code: [FilterPunctuation] and [LowerCase] assign into
    the row object they are given and yield that object.  On the row
    [{text: Hello, World!}] the first leaves [Hello World] in it and the
    second [hello, world!], so neither is read-only, unlike the other
    mappers, which copy the row or make a new one. *)
Theorem FilterPunctuation_LowerCase_modify_input :
  FilterPunctuation "text" 0%nat punct_heap
    = ([0%nat], Ok tt, [ {["text" := VStr "Hello World"]} ]) ∧
  LowerCase "text" 0%nat punct_heap
    = ([0%nat], Ok tt, [ {["text" := VStr "hello, world!"]} ]) ∧
  ¬ read_only (FilterPunctuation "text") ∧
  ¬ read_only (LowerCase "text").
Proof.
  assert (punct_heap !! 0%nat = Some ({["text" := VStr "Hello, World!"]} : TRow)) as Hrow
    by reflexivity.
  assert (({["text" := VStr "Hello, World!"]} : TRow) !! "text" = Some (VStr "Hello, World!"))
    as Hcol by reflexivity.
  pose proof (FilterPunctuation_assigns "text" punct_heap 0 _ _ Hrow Hcol) as HF.
  pose proof (LowerCase_assigns "text" punct_heap 0 _ _ Hrow Hcol) as HL.
  split_and!.
  - rewrite HF. reflexivity.
  - rewrite HL. reflexivity.
  - intros Hro. specialize (Hro punct_heap 0%nat). rewrite HF in Hro.
    apply (f_equal (λ σ : heap, σ !! 0%nat ≫= (.!! "text"))) in Hro.
    vm_compute in Hro. discriminate.
  - intros Hro. specialize (Hro punct_heap 0%nat). rewrite HL in Hro.
    apply (f_equal (λ σ : heap, σ !! 0%nat ≫= (.!! "text"))) in Hro.
    vm_compute in Hro. discriminate.
Qed.

(** ** Graph *)

Lemma yield_from_generator (body : G unit) : yield_from (generator body) = body.
Proof. destruct body as [ys [[]|e]]; reflexivity. Qed.

Lemma ReadIterFactory_missing name (kwargs : gmap string (stream TRow)) :
  kwargs !! name = None → ReadIterFactory name kwargs = ([], Raise (KeyError name)).
Proof. intros Hk. unfold ReadIterFactory. by rewrite Hk. Qed.

Lemma Map_raises mapper e : Map mapper ([], Some e) = ([], Raise e).
Proof. reflexivity. Qed.

Lemma Reduce_raises reducer keys e : Reduce reducer keys ([], Some e) = ([], Raise e).
Proof. reflexivity. Qed.

Lemma Join_raises val_lt joiner keys e args0 :
  Join val_lt joiner keys ([], Some e) args0 = ([], Raise e).
Proof. reflexivity. Qed.

Lemma ExternalSort_model_consumes val_lt : consumes_input (ExternalSort_model val_lt).
Proof. intros keys e. reflexivity. Qed.

Section run.
Context (val_lt : val → val → result bool).
Context (open_file : string → result (list string)).
Context (ExternalSort : list string → stream TRow → G unit).

(** C9: a graph whose root source is [graph_from_iter name], run on inputs
    that lack [name], yields nothing and raises [KeyError name]: the builders
    are total and take no inputs, so the exception is the end of the stream
    [run] gives, which its consumer meets at the first row asked for.  A sort
    is taken to read its input before it yields.  A [Join] node without its
    left or its right graph raises [AssertionError] in the same way. *)
Theorem run_missing_input (name : string) (g : graph.Graph)
    (kwargs : gmap string (stream TRow)) :
  consumes_input ExternalSort →
  rooted_at name g →
  kwargs !! name = None →
  graph.run val_lt open_file ExternalSort g kwargs = ([], Raise (KeyError name)) ∧
  (∀ joiner keys prev,
     graph.run val_lt open_file ExternalSort
       (graph.Build_Graph (Some (graph.OpJoin joiner keys)) prev None) kwargs
     = ([], Raise AssertionError)) ∧
  (∀ joiner keys next,
     graph.run val_lt open_file ExternalSort
       (graph.Build_Graph (Some (graph.OpJoin joiner keys)) None next) kwargs
     = ([], Raise AssertionError)).
Proof.
  intros Hsort Hroot Hk. split_and!.
  - induction Hroot as [|g mapper _ IH|g reducer keys _ IH|g keys _ IH
                        |g joiner join_graph keys _ IH].
    + cbn. by rewrite yield_from_generator, ReadIterFactory_missing.
    + cbn [graph.run graph.map]. by rewrite yield_from_generator, IH.
    + cbn [graph.run graph.reduce]. by rewrite yield_from_generator, IH.
    + cbn [graph.run graph.sort]. rewrite yield_from_generator, IH. apply Hsort.
    + cbn [graph.run graph.join]. by rewrite yield_from_generator, IH.
  - intros joiner keys prev. by destruct prev.
  - intros joiner keys next. by destruct next.
Qed.
End run.

Lemma run_missing_input_witness :
  graph.run py_lt (λ _, Ok []) (ExternalSort_model py_lt) sample_graph sample_kwargs
  = ([], Raise (KeyError "docs")) ∧
  (∀ joiner keys prev,
     graph.run py_lt (λ _, Ok []) (ExternalSort_model py_lt)
       (graph.Build_Graph (Some (graph.OpJoin joiner keys)) prev None) sample_kwargs
     = ([], Raise AssertionError)) ∧
  (∀ joiner keys next,
     graph.run py_lt (λ _, Ok []) (ExternalSort_model py_lt)
       (graph.Build_Graph (Some (graph.OpJoin joiner keys)) None next) sample_kwargs
     = ([], Raise AssertionError)).
Proof.
  apply (run_missing_input py_lt (λ _, Ok []) (ExternalSort_model py_lt)
           "docs" sample_graph sample_kwargs).
  - apply ExternalSort_model_consumes.
  - unfold sample_graph. repeat constructor.
  - reflexivity.
Defined.

(** ** More reducers *)

(** ** Index *)

Lemma Index_loop col rows : ∀ (i : nat),
  for_each rows (λ row (index : Z),
    yield (<[col := VInt index]> row);; mret (index + 1)) (Z.of_nat i)
  = (imap (λ j r, <[col := VInt (Z.of_nat (i + j))]> r) rows,
     Ok (Z.of_nat (i + length rows))).
Proof.
  induction rows as [|r rows IH]; intros i.
  - cbn. by rewrite Nat.add_0_r.
  - cbn [for_each imap length].
    unfold yield. rewrite G_bind_yields. cbn [fst snd mret G_ret app].
    rewrite G_bind_yields. cbn [app].
    replace (Z.of_nat i + 1) with (Z.of_nat (S i)) by lia. rewrite IH. cbn [fst snd].
    rewrite Nat.add_0_r. f_equal.
    + f_equal. apply imap_ext. intros j x _. cbn. do 3 f_equal. lia.
    + do 2 f_equal. lia.
Qed.

Lemma Index_trace col keys rows fin :
  Index col keys (rows, fin)
  = (imap (λ i r, <[col := VInt (Z.of_nat i)]> r) rows, fin_result fin).
Proof.
  unfold Index, for_in. cbn [fst snd].
  pose proof (Index_loop col rows 0) as Hloop. change (Z.of_nat 0) with 0 in Hloop.
  rewrite Hloop. rewrite !G_bind_yields. cbn [fst snd].
  destruct fin as [e|]; cbn [mret G_ret raise fst snd fin_result]; rewrite ?app_nil_r;
    unfold mbind, G_bind; cbn [fst snd mret G_ret]; by rewrite ?app_nil_r.
Qed.

(** ** Sum and Mean *)

Lemma int_column_cons col r g :
  int_column col (r :: g) ↔ (∃ z, r !! col = Some (VInt z)) ∧ int_column col g.
Proof. unfold int_column. by rewrite Forall_cons. Qed.

Lemma column_total_cons col r g :
  column_total col (r :: g) = int_at col r + column_total col g.
Proof. done. Qed.

Lemma column_total_app col g g' :
  column_total col (g ++ g') = column_total col g + column_total col g'.
Proof.
  induction g as [|r g IH]; [done|]. cbn [app]. rewrite !column_total_cons, IH. lia.
Qed.

Lemma Sum_loop col keys g : ∀ (d : TRow) (j : Z),
  int_column col g →
  for_each g (λ row (result_row : TRow),
    if decide (result_row = ∅) then
      d ← dict_of_keys keys row;
      v ← getitem row col;
      mret (<[col := v]> d)
    else
      c ← getitem result_row col;
      v ← getitem row col;
      c' ← lift (val_add c v);
      mret (<[col := c']> result_row)) (<[col := VInt j]> d)
  = ([], Ok (<[col := VInt (j + column_total col g)]> d)).
Proof.
  induction g as [|r g IH]; intros d j Hg.
  - cbn. by rewrite Z.add_0_r.
  - apply int_column_cons in Hg as [[z Hz] Hg].
    cbn [for_each]. rewrite decide_False by apply insert_non_empty.
    rewrite (getitem_Some (<[col := VInt j]> d) col (VInt j)) by apply lookup_insert_eq.
    rewrite G_bind_pure, (getitem_Some _ _ _ Hz), G_bind_pure.
    cbn [val_add]. rewrite G_bind_lift_ok, G_bind_ret.
    rewrite insert_insert_eq, IH by done.
    rewrite column_total_cons. unfold int_at at 1. rewrite Hz.
    by rewrite Z.add_assoc.
Qed.

Lemma Sum_group col keys r g :
  has_keys keys r → int_column col (r :: g) →
  Sum col keys (r :: g, None) = ([sum_row col keys (r :: g)], Ok tt).
Proof.
  intros Hk Hg. pose proof Hg as [[z Hz] Hg']%int_column_cons.
  unfold Sum, for_in. cbn [fst snd for_each].
  rewrite decide_True by done.
  rewrite (dict_of_keys_project _ _ Hk), G_bind_pure, (getitem_Some _ _ _ Hz), G_bind_pure.
  rewrite G_bind_ret, Sum_loop by done.
  rewrite !G_bind_pure. unfold yield, sum_row. cbn [head default].
  rewrite column_total_cons. unfold int_at at 1. by rewrite Hz.
Qed.

Lemma sum_rows_total col keys gs :
  column_total col (sum_row col keys <$> gs) = column_total col (concat gs).
Proof.
  induction gs as [|g gs IH]; [done|]. cbn [fmap list_fmap concat].
  rewrite column_total_cons, column_total_app, IH.
  unfold int_at, sum_row. by rewrite lookup_insert_eq.
Qed.

Lemma int_column_concat col gs :
  int_column col (concat gs) → Forall (int_column col) gs.
Proof.
  induction gs as [|g gs IH]; [constructor|]. cbn [concat]. unfold int_column in *.
  rewrite Forall_app. intros [Hg Hgs]. constructor; [done|by apply IH].
Qed.

(** X3: [Reduce] with [Sum(col)], on rows that carry the group keys, hold
    no float in them and hold integers in [col], yields one row for each
    maximal run of equal key tuple: the key columns of the first row of the
    run and, in [col], the sum over the run.  The sums add up to the total
    of the input, in whatever order the rows come. *)
Theorem Reduce_Sum_totals (col : string) (keys : list string) (rows : list TRow) :
  Forall (has_keys keys) rows →
  exact_keys keys rows →
  int_column col rows →
  ∃ gs : list (list TRow),
    maximal_runs keys rows gs ∧
    Reduce (Sum col) keys (rows, None) = (sum_row col keys <$> gs, Ok tt) ∧
    column_total col (sum_row col keys <$> gs) = column_total col rows.
Proof.
  intros Hk _ Hint.
  pose proof (group_runs_maximal keys rows Hk) as Hmax.
  exists (group_runs (keyed (key_of keys) rows)).*2.
  set (gs := (group_runs (keyed (key_of keys) rows)).*2) in *.
  destruct Hmax as (Hcat & Hu & Hadj). split_and!; [done..| |].
  - rewrite (Reduce_normal_groups _ _ _ Hk). fold gs.
    apply (for_each_single_yields (λ g, Sum col keys (g, None))).
    rewrite <-Hcat in Hint, Hk. apply int_column_concat in Hint.
    apply Forall_forall. intros g Hg.
    pose proof (proj1 (Forall_forall _ _) Hu g Hg) as [Hne _].
    pose proof (proj1 (Forall_forall _ _) Hint g Hg) as Hig.
    destruct g as [|r g]; [done|]. apply Sum_group; [|done].
    apply (proj1 (Forall_forall _ _) Hk). apply elem_of_concat.
    exists (r :: g). split; [done|by left].
  - by rewrite sum_rows_total, Hcat.
Qed.

Lemma Mean_loop col keys g : ∀ (d : TRow) (j n : Z),
  int_column col g →
  for_each g (λ row (st : TRow * Z),
    let '(result_row, n) := st in
    let n := n + 1 in
    if decide (result_row = ∅) then
      d ← dict_of_keys keys row;
      v ← getitem row col;
      mret (<[col := v]> d, n)
    else
      c ← getitem result_row col;
      v ← getitem row col;
      c' ← lift (val_add c v);
      mret (<[col := c']> result_row, n)) (<[col := VInt j]> d, n)
  = ([], Ok (<[col := VInt (j + column_total col g)]> d, n + Z.of_nat (length g))).
Proof.
  induction g as [|r g IH]; intros d j n Hg.
  - cbn. by rewrite !Z.add_0_r.
  - apply int_column_cons in Hg as [[z Hz] Hg].
    cbn [for_each]. rewrite decide_False by apply insert_non_empty.
    rewrite (getitem_Some (<[col := VInt j]> d) col (VInt j)) by apply lookup_insert_eq.
    rewrite G_bind_pure, (getitem_Some _ _ _ Hz), G_bind_pure.
    cbn [val_add]. rewrite G_bind_lift_ok, G_bind_ret.
    rewrite insert_insert_eq, IH by done.
    rewrite column_total_cons. unfold int_at at 1. rewrite Hz.
    rewrite Z.add_assoc. do 3 f_equal. cbn [length]. lia.
Qed.

(** X4: on a non-empty group whose first row carries the group keys and
    whose rows hold integers in [col], [Mean(col)] divides the sum of the
    column by the number of rows.  When the quotient is too large for a
    float it yields nothing and raises [OverflowError]; otherwise it yields
    one row: the key columns of the first row and, in [col], the float
    quotient.  On an empty group it yields nothing and raises
    [KeyError col]: the result row has no such field to divide. *)
Theorem Mean_group (col : string) (keys : list string) (r : TRow) (g : list TRow) :
  has_keys keys r →
  int_column col (r :: g) →
  Mean col keys (r :: g, None)
    = (if truediv_overflows (column_total col (r :: g)) (Z.of_nat (length (r :: g)))
       then ([], Raise OverflowError)
       else ([<[col := VFloatDiv (column_total col (r :: g))
                                 (Z.of_nat (length (r :: g)))]> (project keys r)], Ok tt)) ∧
  Mean col keys ([], None) = ([], Raise (KeyError col)).
Proof.
  intros Hk Hg. split; [|reflexivity].
  pose proof Hg as [[z Hz] Hg']%int_column_cons.
  unfold Mean, for_in. cbn [fst snd for_each].
  rewrite decide_True by done.
  rewrite (dict_of_keys_project _ _ Hk), G_bind_pure, (getitem_Some _ _ _ Hz), G_bind_pure.
  rewrite G_bind_ret, Mean_loop by done.
  rewrite !G_bind_pure, G_bind_ret.
  rewrite (getitem_Some _ col (VInt (z + column_total col g))) by apply lookup_insert_eq.
  rewrite G_bind_pure.
  rewrite column_total_cons.
  assert (int_at col r = z) as -> by (unfold int_at; by rewrite Hz).
  replace (0 + 1 + Z.of_nat (length g)) with (Z.of_nat (length (r :: g)))
    by (cbn [length]; lia).
  unfold val_truediv.
  destruct (Z.eqb_spec (Z.of_nat (length (r :: g))) 0) as [Hz0|_].
  { cbn [length] in Hz0. lia. }
  destruct (truediv_overflows _ _); [reflexivity|].
  rewrite G_bind_lift_ok. unfold yield. by rewrite insert_insert_eq.
Qed.

(** ** FirstReducer *)

Lemma FirstReducer_group keys r g fin : FirstReducer keys (r :: g, fin) = ([r], Ok tt).
Proof. reflexivity. Qed.

Lemma sublist_first_rows gs : sublist (first_rows gs) (concat gs).
Proof.
  induction gs as [|g gs IH]; [constructor|].
  unfold first_rows. cbn [mbind list_bind concat].
  apply sublist_app; [apply sublist_take|done].
Qed.

Lemma first_rows_heads keys gs :
  Forall (uniform_run keys) gs →
  first_rows gs = (λ g, default ∅ (head g)) <$> gs.
Proof.
  induction 1 as [|g gs [Hne _] _ IH]; [done|].
  unfold first_rows in *. cbn [mbind list_bind fmap list_fmap]. rewrite IH.
  by destruct g.
Qed.

(** X6: on a stream sorted by the keys, [Reduce] with [FirstReducer] keeps
    one row for each key tuple of the input: the rows it yields are a
    subsequence of the input, no two of them have the same key tuple, every
    key tuple of the input is the tuple of one of them, and each is the
    first input row with its tuple. *)
Theorem Reduce_FirstReducer_distinct
    (val_lt : val → val → result bool) (keys : list string) (rows : list TRow) :
  sorted_by val_lt keys rows →
  columns_ordered val_lt keys rows →
  ∃ out : list TRow,
    Reduce FirstReducer keys (rows, None) = (out, Ok tt) ∧
    sublist out rows ∧
    NoDup (key_tuple keys <$> out) ∧
    (∀ t, t ∈ key_tuple keys <$> out ↔ t ∈ key_tuple keys <$> rows) ∧
    ∀ r, r ∈ out →
      head (filter (λ r', key_tuple keys r' = key_tuple keys r) rows) = Some r.
Proof.
  intros [Hk Hs] Hcols.
  pose proof (group_runs_maximal keys rows Hk) as (Hcat & Hu & Hadj).
  set (gs := (group_runs (keyed (key_of keys) rows)).*2) in *.
  assert (NoDup (group_tuple keys <$> gs)) as Hnd.
  { eapply runs_tuples_NoDup; [by apply columns_ordered_tuples| |by rewrite Hcat|done|done].
    intros r Hr. rewrite Hcat in Hr. apply key_tuple_in; [done|].
    by eapply Forall_forall in Hk. }
  assert (key_tuple keys <$> first_rows gs = group_tuple keys <$> gs) as Htup.
  { rewrite (first_rows_heads keys) by done. by rewrite <-list_fmap_compose. }
  exists (first_rows gs). split_and!.
  - rewrite (Reduce_normal_groups _ _ _ Hk). fold gs.
    rewrite (first_rows_heads keys) by done.
    apply (for_each_single_yields (λ g, FirstReducer keys (g, None))).
    eapply Forall_impl; [exact Hu|]. by intros [|r g] [Hne _].
  - rewrite <-Hcat. apply sublist_first_rows.
  - by rewrite Htup.
  - intros t. rewrite Htup, !list_elem_of_fmap. split.
    + intros (g & -> & Hg).
      eapply Forall_forall in Hu as [Hne _]; [|done].
      destruct g as [|r g]; [done|]. exists r. split; [done|].
      rewrite <-Hcat. apply elem_of_concat. exists (r :: g). split; [done|by left].
    + intros (r & -> & Hr). rewrite <-Hcat in Hr.
      apply elem_of_concat in Hr as (g & Hg & Hr). exists g. split; [|done].
      apply uniform_run_tuple; [|done]. by eapply Forall_forall in Hu.
  - intros r. rewrite (first_rows_heads keys) by done.
    intros (g & -> & Hg)%list_elem_of_fmap.
    pose proof (proj1 (Forall_forall _ _) Hu g Hg) as Hug.
    destruct g as [|r g]; [by destruct Hug|].
    change (default ∅ (head (r :: g))) with r.
    rewrite <-Hcat.
    change (key_tuple keys r) with (group_tuple keys (r :: g)).
    by rewrite (filter_group_tuple keys gs Hu Hnd (r :: g) Hg).
Qed.

(** ** A row without a key column *)

Lemma mapM_row_get_missing keys (row : TRow) k :
  first_missing keys row = Some k → mapM (row_get row) keys = Raise (KeyError k).
Proof.
  unfold first_missing. induction keys as [|k0 keys IH]; [done|].
  destruct (row !! k0) as [v|] eqn:Hv.
  - rewrite filter_cons_False by (rewrite Hv; done). intros Hk.
    cbn. rewrite (row_get_Some _ _ _ Hv). cbn. by rewrite (IH Hk).
  - rewrite filter_cons_True by done. intros [= <-].
    cbn. unfold row_get. by rewrite Hv.
Qed.

Lemma safe_itemgetter_missing keys (row : TRow) k :
  first_missing keys row = Some k → safe_itemgetter keys row = Raise (KeyError k).
Proof.
  intros Hk. pose proof (mapM_row_get_missing keys row k Hk) as HM.
  destruct keys as [|k0 [|k1 keys]]; [done| |].
  - unfold first_missing in Hk. unfold safe_itemgetter, row_get.
    destruct (row !! k0) as [v|] eqn:Hv.
    + by rewrite filter_cons_False in Hk by (rewrite Hv; done).
    + rewrite filter_cons_True in Hk by done. by injection Hk as ->.
  - unfold safe_itemgetter. by rewrite HM.
Qed.

Lemma pull_keys_raises {K : Type} (keyfunc : TRow → result K) (f : TRow → K)
    pre bad post fin e :
  Forall (λ r, keyfunc r = Ok (f r)) pre → keyfunc bad = Raise e →
  pull_keys keyfunc (pre ++ bad :: post) fin = pull_keys keyfunc pre (Some e).
Proof.
  intros Hpre Hbad. induction Hpre as [|r pre Hr _ IH]; cbn; [by rewrite Hbad|].
  by rewrite Hr, IH.
Qed.

(** X1: [Reduce] with one of the reducers of [reduce.py] looks at the rows
    one by one.  When a row lacks a key column, the stream ends for it at
    that row with [KeyError] of the first key that is missing: the rows
    after it are never read, and the output is that of the rows before it
    followed by the exception.  When it is the first row, nothing is yielded
    and the reducer is not called. *)
Theorem Reduce_missing_key (reducer : Reducer) (keys : list string)
    (pre : list TRow) (bad : TRow) (post : list TRow) (fin : option exn) (k : string) :
  library_reducer reducer →
  Forall (has_keys keys) pre →
  first_missing keys bad = Some k →
  Reduce reducer keys (pre ++ bad :: post, fin) = Reduce reducer keys (pre, Some (KeyError k)) ∧
  Reduce reducer keys (bad :: post, fin) = ([], Raise (KeyError k)) ∧
  (Reduce reducer keys (pre, Some (KeyError k))).2 ≠ Ok tt.
Proof.
  intros _ Hpre Hbad. pose proof (safe_itemgetter_missing _ _ _ Hbad) as Hraise.
  assert (∀ pre', Forall (has_keys keys) pre' →
    Reduce reducer keys (pre' ++ bad :: post, fin)
    = Reduce reducer keys (pre', Some (KeyError k))) as Hcut.
  { intros pre' Hpre'. unfold Reduce, groupby. cbn [fst snd].
    rewrite (pull_keys_raises _ (key_of keys) pre' bad post fin (KeyError k)); [done| |done].
    eapply Forall_impl; [exact Hpre'|]. intros r Hr. by apply safe_itemgetter_key_of. }
  split_and!.
  - by apply Hcut.
  - change (bad :: post) with ([] ++ bad :: post).
    rewrite (Hcut []) by constructor. reflexivity.
  - unfold Reduce, groupby. cbn [fst snd].
    rewrite (Forall_has_keys_pull keys pre _ Hpre). cbn [fst snd].
    generalize (group_runs (keyed (key_of keys) pre)). intros gs.
    induction gs as [|[kk g] gs IH]; [done|].
    cbn [Reduce_loop]. unfold mbind, G_bind.
    destruct (reducer keys (group_items g gs (Some (KeyError k)))) as [ys [[]|e]];
      cbn [fst snd]; [|done].
    by destruct (Reduce_loop reducer keys gs (Some (KeyError k))) as [ys' [[]|e']].
Qed.

(** ** Count *)

Lemma Count_body_total col keys rows :
  ∃ d : TRow,
    for_each rows (λ row (result_row : TRow),
      if decide (result_row = ∅) then
        d ← dict_of_present_keys keys row;
        mret (<[col := VInt 1]> d)
      else
        c ← getitem result_row col;
        c' ← lift (val_add c (VInt 1));
        mret (<[col := c']> result_row)) ∅
    = ([], Ok d) ∧
    d = match rows with
        | [] => ∅
        | r :: _ => <[col := VInt (Z.of_nat (length rows))]> (project keys r)
        end.
Proof.
  destruct rows as [|r g]; [by exists ∅|].
  eexists. split; [|reflexivity].
  cbn [for_each]. rewrite decide_True by done.
  rewrite dict_of_present_keys_project, G_bind_pure, G_bind_ret, Count_loop.
  replace (1 + Z.of_nat (length g)) with (Z.of_nat (length (r :: g)))
    by (cbn [length]; lia). done.
Qed.

(** X2: [Count(col)] never fails on a group that ends normally, whatever
    its rows hold: it yields one row, with the key columns the first row has
    (a key the row lacks is left out) and the number of rows in [col]; on an
    empty group the row is the empty dict.  When the group ends in an
    exception, nothing is yielded before it. *)
Theorem Count_any_group (col : string) (keys : list string) (rows : list TRow) (e : exn) :
  Count col keys (rows, None)
    = ([match rows with
        | [] => ∅
        | r :: _ => <[col := VInt (Z.of_nat (length rows))]> (project keys r)
        end], Ok tt) ∧
  Count col keys (rows, Some e) = ([], Raise e).
Proof.
  destruct (Count_body_total col keys rows) as (d & Hloop & ->).
  unfold Count, for_in. cbn [fst snd]. rewrite Hloop. split.
  - by rewrite !G_bind_pure.
  - rewrite G_bind_pure. reflexivity.
Qed.

(** *** Instances on the sample rows *)

Lemma sample_rows_b_ints : int_column "b" sample_rows.
Proof. repeat constructor; by eexists. Qed.

Lemma Reduce_Sum_totals_witness :
  ∃ gs : list (list TRow),
    maximal_runs ["a"] sample_rows gs ∧
    Reduce (Sum "b") ["a"] (sample_rows, None) = (sum_row "b" ["a"] <$> gs, Ok tt) ∧
    column_total "b" (sum_row "b" ["a"] <$> gs) = column_total "b" sample_rows.
Proof.
  apply Reduce_Sum_totals;
    [exact sample_rows_have_a|exact sample_rows_a_exact|exact sample_rows_b_ints].
Defined.

Lemma Mean_group_witness :
  Mean "b" ["a"] (sample_rows, None)
    = ([<["b" := VFloatDiv (column_total "b" sample_rows) (Z.of_nat (length sample_rows))]>
          (project ["a"] {["a" := VInt 1; "b" := VInt 5]})], Ok tt) ∧
  Mean "b" ["a"] ([], None) = ([], Raise (KeyError "b")).
Proof.
  assert (has_keys ["a"] ({["a" := VInt 1; "b" := VInt 5]} : TRow)) as Hk.
  { repeat constructor; by eexists. }
  exact (Mean_group "b" ["a"] {["a" := VInt 1; "b" := VInt 5]}
           [ {["a" := VInt 1; "b" := VInt 6]}; {["a" := VInt 2; "b" := VInt 5]} ]
           Hk sample_rows_b_ints).
Defined.

(** A sum too large for a float: [Mean] raises and yields nothing. *)
Example Mean_overflow :
  Mean "b" [] ([ {["b" := VInt (10 ^ 400)]} ], None) = ([], Raise OverflowError).
Proof. vm_compute. reflexivity. Qed.

Lemma Reduce_FirstReducer_distinct_witness :
  ∃ out : list TRow,
    Reduce FirstReducer ["a"] (sample_rows, None) = (out, Ok tt) ∧
    sublist out sample_rows ∧
    NoDup (key_tuple ["a"] <$> out) ∧
    (∀ t, t ∈ key_tuple ["a"] <$> out ↔ t ∈ key_tuple ["a"] <$> sample_rows) ∧
    ∀ r, r ∈ out →
      head (filter (λ r', key_tuple ["a"] r' = key_tuple ["a"] r) sample_rows) = Some r.
Proof.
  apply (Reduce_FirstReducer_distinct py_lt).
  - exact sample_rows_sorted_by_a.
  - constructor; [apply py_lt_total_order_int, sample_rows_a_ints|constructor].
Defined.

Lemma Reduce_missing_key_witness :
  Reduce (Count "n") ["a"] ([ {["a" := VInt 1]} ] ++ {["b" := VInt 5]} :: [], None)
    = Reduce (Count "n") ["a"] ([ {["a" := VInt 1]} ], Some (KeyError "a")) ∧
  Reduce (Count "n") ["a"] ({["b" := VInt 5]} :: [], None) = ([], Raise (KeyError "a")) ∧
  (Reduce (Count "n") ["a"] ([ {["a" := VInt 1]} ], Some (KeyError "a"))).2 ≠ Ok tt.
Proof.
  apply Reduce_missing_key.
  - apply library_Count.
  - repeat constructor. by eexists.
  - reflexivity.
Defined.


(** ** Joiners and the rows without a match *)

Section joiner_calls_more.
Context (set_order : gset string → list string) (Hso : set_order_ok set_order).
Context (sa sb : string) (keys : list string).

Lemma LeftJoiner_left_only (g : list TRow) :
  LeftJoiner set_order sa sb keys (g, None) ([], None) = (g, Ok tt).
Proof. unfold LeftJoiner, to_list, yield_from. cbn. by rewrite ?app_nil_r. Qed.

Lemma LeftJoiner_right_only (g : list TRow) :
  g ≠ [] → LeftJoiner set_order sa sb keys ([], None) (g, None) = ([], Ok tt).
Proof.
  intros Hg. unfold LeftJoiner, to_list. cbn [fst snd]. rewrite G_bind_ret.
  rewrite prod_tables_rows by done. cbn [mbind list_bind]. rewrite G_bind_pure.
  by destruct (decide (g = [])).
Qed.

Lemma LeftJoiner_both (ga gb : list TRow) :
  Forall (has_keys keys) ga → gb ≠ [] →
  LeftJoiner set_order sa sb keys (ga, None) (gb, None)
  = (ga ≫= λ a, prod_row_of set_order sa sb keys a <$> gb, Ok tt).
Proof.
  intros Hk Hb. unfold LeftJoiner, to_list. cbn [fst snd]. rewrite G_bind_ret.
  rewrite prod_tables_rows by done.
  destruct (decide (gb = [])) as [?|_]; [done|].
  rewrite G_bind_yields. cbn [fst snd mret G_ret]. by rewrite app_nil_r.
Qed.

Lemma RightJoiner_left_only (g : list TRow) :
  g ≠ [] → RightJoiner set_order sa sb keys (g, None) ([], None) = ([], Ok tt).
Proof.
  intros Hg. unfold RightJoiner, to_list. cbn [fst snd]. rewrite G_bind_ret.
  unfold prod_tables. destruct (decide (@nil TRow = [])) as [_|?]; [|done].
  rewrite G_bind_ret. cbn [fst]. by destruct (decide (g = [])).
Qed.

Lemma RightJoiner_right_only (g : list TRow) :
  RightJoiner set_order sa sb keys ([], None) (g, None) = (g, Ok tt).
Proof.
  unfold RightJoiner, to_list. cbn [fst snd]. rewrite G_bind_ret.
  rewrite prod_tables_rows by done. cbn [mbind list_bind]. rewrite G_bind_pure.
  cbn [fst]. destruct (decide (@nil TRow = [])) as [_|?]; [|done].
  unfold yield_from. by destruct g.
Qed.

Lemma RightJoiner_both (ga gb : list TRow) :
  Forall (has_keys keys) ga → ga ≠ [] →
  RightJoiner set_order sa sb keys (ga, None) (gb, None)
  = (ga ≫= λ a, prod_row_of set_order sa sb keys a <$> gb, Ok tt).
Proof.
  intros Hk Ha. unfold RightJoiner, to_list. cbn [fst snd]. rewrite G_bind_ret.
  rewrite prod_tables_rows by done.
  cbn [fst]. destruct (decide (ga = [])) as [?|_]; [done|].
  rewrite G_bind_yields. cbn [fst snd mret G_ret]. by rewrite app_nil_r.
Qed.
End joiner_calls_more.

Section join_policy.
Context (val_lt : val → val → result bool).
Context (set_order : gset string → list string) (Hso : set_order_ok set_order).
Context (sa sb : string) (keys : list string).
Context (T : list val → Prop) (Hord : total_order_on (list_lt val_lt) T).
(** A joiner that does what [InnerJoiner] does on a matched pair of groups
    and passes on, or drops, a group without a match. *)
Context (joiner : Joiner) (keep_a keep_b : bool).
Context (Hleft : ∀ g, g ≠ [] →
  joiner keys (g, None) ([], None) = (if keep_a then g else [], Ok tt)).
Context (Hright : ∀ g, g ≠ [] →
  joiner keys ([], None) (g, None) = (if keep_b then g else [], Ok tt)).
Context (Hboth : ∀ ga gb, Forall (has_keys keys) ga → ga ≠ [] → gb ≠ [] →
  joiner keys (ga, None) (gb, None)
  = (ga ≫= λ a, prod_row_of set_order sa sb keys a <$> gb, Ok tt)).

Lemma Join_loop_policy : ∀ ga gb,
  sorted_groups val_lt keys T ga → sorted_groups val_lt keys T gb →
  ∃ inner out,
    Join_loop val_lt (InnerJoiner set_order sa sb) keys None None ga gb = (inner, Ok tt) ∧
    Join_loop val_lt joiner keys None None ga gb = (out, Ok tt) ∧
    out ≡ₚ inner ++ (if keep_a then unmatched_groups ga gb else [])
                 ++ (if keep_b then unmatched_groups gb ga else []).
Proof.
  induction ga as [|[ak ag] ga IHa]; intros gb; induction gb as [|[bk bg] gb IHb];
    intros Hga Hgb.
  - exists [], []. split_and!; [done|done|]. by destruct keep_a, keep_b.
  - destruct (sorted_groups_cons _ _ _ _ _ Hgb) as (HTb & Hneb & Hkb & Hgb' & Hlater).
    destruct (IHb Hga Hgb') as (inner & out & Hi & Ho & Hperm).
    exists inner, ((if keep_b then bg else []) ++ out). rewrite !Join_loop_nil_cons.
    rewrite InnerJoiner_right_only by done. rewrite G_bind_pure.
    rewrite Hright by done.
    rewrite G_bind_yields, Ho. cbn [fst snd].
    split_and!; [done|done|].
    rewrite unmatched_groups_nil_l in *.
    rewrite unmatched_groups_cons_out by apply not_elem_of_nil. cbn [snd].
    rewrite Hperm. destruct keep_a, keep_b; cbn [app]; try done;
      apply Permutation_app_swap_app.
  - destruct (sorted_groups_cons _ _ _ _ _ Hga) as (HTa & Hnea & Hka & Hga' & Hlater).
    destruct (IHa [] Hga' Hgb) as (inner & out & Hi & Ho & Hperm).
    exists inner, ((if keep_a then ag else []) ++ out). rewrite !Join_loop_cons_nil.
    rewrite InnerJoiner_left_only. rewrite G_bind_pure.
    rewrite Hleft by done.
    rewrite G_bind_yields, Ho. cbn [fst snd].
    split_and!; [done|done|].
    rewrite unmatched_groups_nil_l in *.
    rewrite unmatched_groups_cons_out by apply not_elem_of_nil. cbn [snd].
    rewrite Hperm. destruct keep_a, keep_b; cbn [app]; rewrite ?app_nil_r; try done;
      apply Permutation_app_swap_app.
  - destruct (sorted_groups_cons _ _ _ _ _ Hga) as (HTa & Hnea & Hka & Hga' & Hlater_a).
    destruct (sorted_groups_cons _ _ _ _ _ Hgb) as (HTb & Hneb & Hkb & Hgb' & Hlater_b).
    simpl in HTa, HTb, Hnea, Hneb, Hka, Hkb.
    rewrite !Join_loop_cons_cons.
    pose proof Hord as (Hdef & Hirr & Htrans & Htot).
    destruct (Hdef ak bk HTa HTb) as [a_first Hab]. rewrite Hab, !G_bind_lift_ok.
    destruct a_first.
    { destruct (IHa ((bk, bg) :: gb) Hga' Hgb) as (inner & out & Hi & Ho & Hperm).
      exists inner, ((if keep_a then ag else []) ++ out).
      rewrite InnerJoiner_left_only, G_bind_pure.
      rewrite Hleft by done.
      rewrite G_bind_yields, Ho. cbn [fst snd].
      split_and!; [done|done|].
      pose proof (below_all_not_in val_lt keys T Hord ak (bk, bg) gb HTa Hgb Hab) as Hnot.
      rewrite unmatched_groups_cons_out.
      2:{ intros (x & Heq & Hx)%list_elem_of_fmap. by apply (Hnot x). }
      rewrite (unmatched_groups_skip ((bk, bg) :: gb) (ak, ag) ga) by done. cbn [snd].
      rewrite Hperm. destruct keep_a, keep_b; cbn [app]; rewrite ?app_nil_r, <-?app_assoc;
        try done; apply Permutation_app_swap_app. }
    destruct (Hdef bk ak HTb HTa) as [b_first Hba]. rewrite Hba, !G_bind_lift_ok.
    destruct b_first.
    { destruct (IHb Hga Hgb') as (inner & out & Hi & Ho & Hperm).
      exists inner, ((if keep_b then bg else []) ++ out).
      rewrite InnerJoiner_right_only by done. rewrite G_bind_pure.
      rewrite Hright by done.
      rewrite G_bind_yields, Ho. cbn [fst snd].
      split_and!; [done|done|].
      pose proof (below_all_not_in val_lt keys T Hord bk (ak, ag) ga HTb Hga Hba) as Hnot.
      rewrite (unmatched_groups_cons_out (bk, bg)).
      2:{ intros (x & Heq & Hx)%list_elem_of_fmap. by apply (Hnot x). }
      rewrite (unmatched_groups_skip ((ak, ag) :: ga) (bk, bg) gb) by done. cbn [snd].
      rewrite Hperm. destruct keep_a, keep_b; cbn [app]; rewrite ?app_nil_r; try done.
      - rewrite (Permutation_app_swap_app bg inner). apply Permutation_app_head.
        apply Permutation_app_swap_app.
      - apply Permutation_app_swap_app. }
    assert (ak = bk) as <-.
    { destruct (decide (ak = bk)) as [|Hne]; [done|].
      destruct (Htot ak bk HTa HTb Hne); congruence. }
    destruct (IHa gb Hga' Hgb') as (inner & out & Hi & Ho & Hperm).
    set (P := ag ≫= λ a, prod_row_of set_order sa sb keys a <$> bg).
    exists (P ++ inner), (P ++ out).
    rewrite InnerJoiner_both by done.
    rewrite Hboth by done.
    rewrite !G_bind_yields, Hi, Ho. cbn [fst snd].
    split_and!; [done|done|].
    rewrite unmatched_groups_cons_in by (cbn; by left).
    rewrite (unmatched_groups_cons_in (ak, bg)) by (cbn; by left).
    rewrite (unmatched_groups_skip ga (ak, bg) gb).
    2:{ intros x Hx Heq. destruct (Hlater_a x Hx) as [HTx Hlt].
        rewrite Heq in Hlt. cbn in Hlt. rewrite Hirr in Hlt; [congruence|done]. }
    rewrite (unmatched_groups_skip gb (ak, ag) ga).
    2:{ intros x Hx Heq. destruct (Hlater_b x Hx) as [HTx Hlt].
        rewrite Heq in Hlt. cbn in Hlt. rewrite Hirr in Hlt; [congruence|done]. }
    rewrite Hperm. by rewrite <-app_assoc.
Qed.
End join_policy.

Section join_tables.
Context (val_lt : val → val → result bool).
Context (set_order : gset string → list string) (Hso : set_order_ok set_order).
Context (sa sb : string) (keys : list string).
Context (rows_a rows_b : list TRow).
Context (Ha : sorted_by val_lt keys rows_a) (Hb : sorted_by val_lt keys rows_b).
Context (Hcols : columns_ordered val_lt keys (rows_a ++ rows_b)).

Lemma Join_policy (joiner : Joiner) (keep_a keep_b : bool) :
  (∀ g, g ≠ [] → joiner keys (g, None) ([], None) = (if keep_a then g else [], Ok tt)) →
  (∀ g, g ≠ [] → joiner keys ([], None) (g, None) = (if keep_b then g else [], Ok tt)) →
  (∀ ga gb, Forall (has_keys keys) ga → ga ≠ [] → gb ≠ [] →
     joiner keys (ga, None) (gb, None)
     = (ga ≫= λ a, prod_row_of set_order sa sb keys a <$> gb, Ok tt)) →
  ∃ inner out : list TRow,
    Join val_lt (InnerJoiner set_order sa sb) keys (rows_a, None) (rows_b, None)
      = (inner, Ok tt) ∧
    Join val_lt joiner keys (rows_a, None) (rows_b, None) = (out, Ok tt) ∧
    out ≡ₚ inner ++ (if keep_a then unmatched_rows keys rows_a rows_b else [])
                 ++ (if keep_b then unmatched_rows keys rows_b rows_a else []).
Proof.
  intros Hleft Hright Hboth.
  set (T := tuple_in ((λ k, column_values k (rows_a ++ rows_b)) <$> keys)).
  pose proof (columns_ordered_tuples _ _ _ Hcols) as Hord. fold T in Hord.
  destruct (group_runs_sorted_groups val_lt keys _ rows_a Hord) as [Hga Hcat_a]; [|done|].
  { intros r Hr. apply key_tuple_in; [apply elem_of_app; by left|].
    destruct Ha as [Hk _]. by eapply Forall_forall in Hk. }
  destruct (group_runs_sorted_groups val_lt keys _ rows_b Hord) as [Hgb Hcat_b]; [|done|].
  { intros r Hr. apply key_tuple_in; [apply elem_of_app; by right|].
    destruct Hb as [Hk _]. by eapply Forall_forall in Hk. }
  destruct (Join_loop_policy val_lt set_order Hso sa sb keys T Hord joiner keep_a keep_b
              Hleft Hright Hboth _ _ Hga Hgb) as (inner & out & Hi & Ho & Hperm).
  exists inner, out.
  unfold Join. rewrite !groupby_comparator by (by destruct Ha, Hb).
  cbn [fst snd]. rewrite !_next_iter_normal, !G_bind_ret.
  split_and!; [done|done|].
  rewrite Hperm, (unmatched_groups_rows val_lt keys T), (unmatched_groups_rows val_lt keys T),
    Hcat_a, Hcat_b; done.
Qed.
End join_tables.

(** X10: for two tables sorted ascending by the join keys, with every key
    column totally ordered over both, [Join] with [LeftJoiner] ends normally
    and yields, as a multiset, the rows of the inner join together with the
    rows of the left table whose key tuple does not occur in the right one,
    unchanged; no row of the right table is passed on by itself. *)
Theorem LeftJoiner_is_inner_plus_unmatched_left
    (val_lt : val → val → result bool) (set_order : gset string → list string)
    (suffix_a suffix_b : string) (keys : list string) (rows_a rows_b : list TRow) :
  set_order_ok set_order →
  sorted_by val_lt keys rows_a →
  sorted_by val_lt keys rows_b →
  columns_ordered val_lt keys (rows_a ++ rows_b) →
  ∃ inner left : list TRow,
    Join val_lt (InnerJoiner set_order suffix_a suffix_b) keys (rows_a, None) (rows_b, None)
      = (inner, Ok tt) ∧
    Join val_lt (LeftJoiner set_order suffix_a suffix_b) keys (rows_a, None) (rows_b, None)
      = (left, Ok tt) ∧
    left ≡ₚ inner ++ unmatched_rows keys rows_a rows_b.
Proof.
  intros Hso Ha Hb Hcols.
  destruct (Join_policy val_lt set_order Hso suffix_a suffix_b keys rows_a rows_b Ha Hb Hcols
              (LeftJoiner set_order suffix_a suffix_b) true false)
    as (inner & out & Hi & Ho & Hperm).
  - intros g _. apply LeftJoiner_left_only.
  - intros g Hg. by apply LeftJoiner_right_only.
  - intros ga gb Hk _ Hgb. by apply LeftJoiner_both.
  - exists inner, out. by rewrite app_nil_r in Hperm.
Qed.

(** X11: under the same conditions [Join] with [RightJoiner] yields, as a
    multiset, the rows of the inner join together with the rows of the right
    table whose key tuple does not occur in the left one, unchanged. *)
Theorem RightJoiner_is_inner_plus_unmatched_right
    (val_lt : val → val → result bool) (set_order : gset string → list string)
    (suffix_a suffix_b : string) (keys : list string) (rows_a rows_b : list TRow) :
  set_order_ok set_order →
  sorted_by val_lt keys rows_a →
  sorted_by val_lt keys rows_b →
  columns_ordered val_lt keys (rows_a ++ rows_b) →
  ∃ inner right : list TRow,
    Join val_lt (InnerJoiner set_order suffix_a suffix_b) keys (rows_a, None) (rows_b, None)
      = (inner, Ok tt) ∧
    Join val_lt (RightJoiner set_order suffix_a suffix_b) keys (rows_a, None) (rows_b, None)
      = (right, Ok tt) ∧
    right ≡ₚ inner ++ unmatched_rows keys rows_b rows_a.
Proof.
  intros Hso Ha Hb Hcols.
  destruct (Join_policy val_lt set_order Hso suffix_a suffix_b keys rows_a rows_b Ha Hb Hcols
              (RightJoiner set_order suffix_a suffix_b) false true)
    as (inner & out & Hi & Ho & Hperm).
  - intros g Hg. by apply RightJoiner_left_only.
  - intros g _. by apply RightJoiner_right_only.
  - intros ga gb Hk Hga _. by apply RightJoiner_both.
  - exists inner, out. done.
Qed.

Lemma LeftJoiner_is_inner_plus_unmatched_left_witness :
  ∃ inner left : list TRow,
    Join py_lt (InnerJoiner elements "_1" "_2") ["k"] (join_left, None) (join_right, None)
      = (inner, Ok tt) ∧
    Join py_lt (LeftJoiner elements "_1" "_2") ["k"] (join_left, None) (join_right, None)
      = (left, Ok tt) ∧
    left ≡ₚ inner ++ unmatched_rows ["k"] join_left join_right.
Proof.
  apply LeftJoiner_is_inner_plus_unmatched_left.
  - exact elements_set_order_ok.
  - exact join_left_sorted.
  - exact join_right_sorted.
  - constructor; [apply py_lt_total_order_int, join_rows_k_ints|constructor].
Defined.

Lemma RightJoiner_is_inner_plus_unmatched_right_witness :
  ∃ inner right : list TRow,
    Join py_lt (InnerJoiner elements "_1" "_2") ["k"] (join_left, None) (join_right, None)
      = (inner, Ok tt) ∧
    Join py_lt (RightJoiner elements "_1" "_2") ["k"] (join_left, None) (join_right, None)
      = (right, Ok tt) ∧
    right ≡ₚ inner ++ unmatched_rows ["k"] join_right join_left.
Proof.
  apply RightJoiner_is_inner_plus_unmatched_right.
  - exact elements_set_order_ok.
  - exact join_left_sorted.
  - exact join_right_sorted.
  - constructor; [apply py_lt_total_order_int, join_rows_k_ints|constructor].
Defined.

(** ** Joining with an empty table, and joining on no key *)

Section join_drain.
Context (val_lt : val → val → result bool) (keys : list string) (joiner : Joiner).

Lemma Join_loop_drain_left (f : list TRow → list TRow) (ga : list (list val * list TRow)) :
  (∀ kg, kg ∈ ga → joiner keys (kg.2, None) ([], None) = (f kg.2, Ok tt)) →
  Join_loop val_lt joiner keys None None ga [] = (ga.*2 ≫= f, Ok tt).
Proof.
  induction ga as [|[ak ag] ga IH]; intros Hj; [done|].
  rewrite Join_loop_cons_nil. pose proof (Hj (ak, ag)) as Hag. cbn [snd] in Hag.
  rewrite Hag by left.
  rewrite G_bind_yields, IH by (intros kg Hkg; apply Hj; by right). done.
Qed.

Lemma Join_loop_drain_right (f : list TRow → list TRow) (gb : list (list val * list TRow)) :
  (∀ kg, kg ∈ gb → joiner keys ([], None) (kg.2, None) = (f kg.2, Ok tt)) →
  Join_loop val_lt joiner keys None None [] gb = (gb.*2 ≫= f, Ok tt).
Proof.
  induction gb as [|[bk bg] gb IH]; intros Hj; [done|].
  rewrite Join_loop_nil_cons. pose proof (Hj (bk, bg)) as Hbg. cbn [snd] in Hbg.
  rewrite Hbg by left.
  rewrite G_bind_yields, IH by (intros kg Hkg; apply Hj; by right). done.
Qed.
End join_drain.

Lemma list_bind_id {A : Type} (ls : list (list A)) : ls ≫= id = concat ls.
Proof. induction ls as [|l ls IH]; [done|]. cbn. by rewrite IH. Qed.

Lemma list_bind_nil {A B : Type} (ls : list A) : ls ≫= (λ _, @nil B) = [].
Proof. by induction ls. Qed.

Lemma group_runs_nonempty keys rows kg :
  kg ∈ group_runs (keyed (key_tuple keys) rows) → kg.2 ≠ [].
Proof.
  intros Hkg. destruct (group_runs_spec (key_tuple keys) rows) as (_ & Hall & _).
  by apply (proj1 (Forall_forall _ _) Hall kg Hkg).
Qed.

Lemma group_runs_concat keys rows :
  concat (group_runs (keyed (key_tuple keys) rows)).*2 = rows.
Proof. by destruct (group_runs_spec (key_tuple keys) rows) as (? & _). Qed.

(** X12: joining a table whose rows carry the keys with an empty table never
    compares keys.  With the empty table on the right, [OuterJoiner] and
    [LeftJoiner] give the left table back, row for row and in order, and
    [InnerJoiner] and [RightJoiner] give nothing; with it on the left,
    [OuterJoiner] and [RightJoiner] give the right table back and the other
    two nothing. *)
Theorem Join_with_empty_table
    (val_lt : val → val → result bool) (set_order : gset string → list string)
    (suffix_a suffix_b : string) (keys : list string) (rows : list TRow) :
  set_order_ok set_order →
  Forall (has_keys keys) rows →
  let join joiner a b := Join val_lt (joiner set_order suffix_a suffix_b) keys a b in
  join OuterJoiner (rows, None) ([], None) = (rows, Ok tt) ∧
  join LeftJoiner (rows, None) ([], None) = (rows, Ok tt) ∧
  join InnerJoiner (rows, None) ([], None) = ([], Ok tt) ∧
  join RightJoiner (rows, None) ([], None) = ([], Ok tt) ∧
  join OuterJoiner ([], None) (rows, None) = (rows, Ok tt) ∧
  join RightJoiner ([], None) (rows, None) = (rows, Ok tt) ∧
  join InnerJoiner ([], None) (rows, None) = ([], Ok tt) ∧
  join LeftJoiner ([], None) (rows, None) = ([], Ok tt).
Proof.
  intros Hso Hk join. unfold join, Join.
  rewrite !groupby_comparator by (done || constructor).
  cbn [fst snd group_runs keyed fmap list_fmap].
  rewrite !_next_iter_normal, !G_bind_ret.
  pose proof (group_runs_nonempty keys rows) as Hne.
  pose proof (group_runs_concat keys rows) as Hcat.
  set (gs := group_runs (keyed (key_tuple keys) rows)) in *.
  split_and!.
  - rewrite (Join_loop_drain_left _ _ _ id).
    + by rewrite list_bind_id, Hcat.
    + intros kg Hkg. apply OuterJoiner_left_only. by apply Hne.
  - rewrite (Join_loop_drain_left _ _ _ id).
    + by rewrite list_bind_id, Hcat.
    + intros kg Hkg. apply LeftJoiner_left_only.
  - rewrite (Join_loop_drain_left _ _ _ (λ _, [])).
    + by rewrite list_bind_nil.
    + intros kg Hkg. apply InnerJoiner_left_only.
  - rewrite (Join_loop_drain_left _ _ _ (λ _, [])).
    + by rewrite list_bind_nil.
    + intros kg Hkg. apply RightJoiner_left_only. by apply Hne.
  - rewrite (Join_loop_drain_right _ _ _ id).
    + by rewrite list_bind_id, Hcat.
    + intros kg Hkg. apply OuterJoiner_right_only; [done|]. by apply Hne.
  - rewrite (Join_loop_drain_right _ _ _ id).
    + by rewrite list_bind_id, Hcat.
    + intros kg Hkg. by apply RightJoiner_right_only.
  - rewrite (Join_loop_drain_right _ _ _ (λ _, [])).
    + by rewrite list_bind_nil.
    + intros kg Hkg. by apply InnerJoiner_right_only.
  - rewrite (Join_loop_drain_right _ _ _ (λ _, [])).
    + by rewrite list_bind_nil.
    + intros kg Hkg. apply LeftJoiner_right_only; [done|]. by apply Hne.
Qed.

Lemma Join_with_empty_table_witness :
  let join joiner a b := Join py_lt (joiner elements "_1" "_2") ["k"] a b in
  join OuterJoiner (join_left, None) ([], None) = (join_left, Ok tt) ∧
  join LeftJoiner (join_left, None) ([], None) = (join_left, Ok tt) ∧
  join InnerJoiner (join_left, None) ([], None) = ([], Ok tt) ∧
  join RightJoiner (join_left, None) ([], None) = ([], Ok tt) ∧
  join OuterJoiner ([], None) (join_left, None) = (join_left, Ok tt) ∧
  join RightJoiner ([], None) (join_left, None) = (join_left, Ok tt) ∧
  join InnerJoiner ([], None) (join_left, None) = ([], Ok tt) ∧
  join LeftJoiner ([], None) (join_left, None) = ([], Ok tt).
Proof.
  apply (Join_with_empty_table py_lt elements "_1" "_2" ["k"] join_left).
  - exact elements_set_order_ok.
  - exact join_left_has_k.
Defined.

Lemma group_runs_no_keys r rows :
  group_runs (keyed (key_tuple []) (r :: rows)) = [([], r :: rows)].
Proof.
  revert r. induction rows as [|r' rows IH]; intros r; [done|].
  change (keyed (key_tuple []) (r :: r' :: rows))
    with (([] : list val, r) :: keyed (key_tuple []) (r' :: rows)).
  cbn [group_runs]. rewrite IH. by rewrite decide_True.
Qed.

Lemma has_keys_nil rows : Forall (has_keys []) rows.
Proof. apply Forall_forall. intros r _. constructor. Qed.

(** X13: joined on an empty list of keys, each table is one group, and
    [Join] with [InnerJoiner] yields the row of every pair of a left row and
    a right row, [|left| * |right|] rows in all, ordered by left row and then
    by right row; it compares no value. *)
Theorem Join_no_keys_cross_product
    (val_lt : val → val → result bool) (set_order : gset string → list string)
    (suffix_a suffix_b : string) (rows_a rows_b : list TRow) :
  set_order_ok set_order →
  ∃ out : list TRow,
    Join val_lt (InnerJoiner set_order suffix_a suffix_b) [] (rows_a, None) (rows_b, None)
      = (out, Ok tt) ∧
    out = rows_a ≫= (λ a, prod_row_of set_order suffix_a suffix_b [] a <$> rows_b) ∧
    length out = (length rows_a * length rows_b)%nat.
Proof.
  intros Hso. eexists. split_and!; [|reflexivity|].
  - unfold Join. rewrite !groupby_comparator by apply has_keys_nil.
    cbn [fst snd]. rewrite !_next_iter_normal, !G_bind_ret.
    destruct rows_a as [|a rows_a], rows_b as [|b rows_b].
    + done.
    + rewrite group_runs_no_keys. cbn [group_runs keyed fmap list_fmap].
      rewrite Join_loop_nil_cons.
      rewrite InnerJoiner_right_only by done. by rewrite G_bind_pure.
    + rewrite group_runs_no_keys. cbn [group_runs keyed fmap list_fmap].
      rewrite Join_loop_cons_nil, InnerJoiner_left_only, G_bind_pure.
      cbn [Join_loop]. f_equal. symmetry.
      generalize (a :: rows_a). intros l. induction l as [|x l IH]; [done|]. done.
    + rewrite !group_runs_no_keys. rewrite Join_loop_cons_cons.
      cbn [list_lt]. rewrite !G_bind_lift_ok.
      rewrite InnerJoiner_both by (done || apply has_keys_nil).
      rewrite G_bind_yields. cbn [Join_loop fst snd mret G_ret]. by rewrite app_nil_r.
  - induction rows_a as [|a rows_a IH]; [done|].
    cbn [mbind list_bind length]. rewrite length_app, length_fmap, IH. lia.
Qed.

Lemma Join_no_keys_cross_product_witness :
  ∃ out : list TRow,
    Join py_lt (InnerJoiner elements "_1" "_2") [] (join_left, None) (join_right, None)
      = (out, Ok tt) ∧
    out = join_left ≫= (λ a, prod_row_of elements "_1" "_2" [] a <$> join_right) ∧
    length out = (length join_left * length join_right)%nat.
Proof.
  apply Join_no_keys_cross_product. exact elements_set_order_ok.
Defined.


(** ** What the mappers yield *)

(** X17: every mapper of [map.py] but [FilterPunctuation] and [LowerCase]
    leaves all the row objects that exist when it is called as they were,
    the row it is given among them, whether it ends normally or raises: it
    only reads them, and writes to copies and new rows. *)
Theorem copying_mappers_read_only
    (val_mul : val → val → result val) (condition : TRow → result bool)
    (func : list val → result val) (_make_datetime : val → result val)
    (_haversine_dist : val → val → result val) :
  read_only DummyMapper ∧
  (∀ column separator, read_only (Split column separator)) ∧
  (∀ columns result_column, read_only (Product val_mul columns result_column)) ∧
  read_only (Filter condition) ∧
  (∀ columns, read_only (Project columns)) ∧
  (∀ columns result_column, read_only (Apply func columns result_column)) ∧
  (∀ columns, read_only (StringToDateTime _make_datetime columns)) ∧
  (∀ start_column end_column column,
     read_only (HaversineDist _haversine_dist start_column end_column column)) ∧
  (∀ columns, read_only (Remove columns)).
Proof.
  split_and!.
  - apply DummyMapper_read_only.
  - apply Split_read_only.
  - apply Product_read_only.
  - apply Filter_read_only.
  - apply Project_read_only.
  - apply Apply_read_only.
  - apply StringToDateTime_read_only.
  - apply HaversineDist_read_only.
  - apply Remove_read_only.
Qed.

(** *** Project and Remove *)

Lemma Project_loop (σ : heap) row (d : TRow) columns : ∀ acc : TRow,
  σ !! row = Some d →
  h_for_each columns (λ k (acc : TRow),
    v ← row_getitem row k; mret (<[k := v]> acc)) acc σ
  = match first_missing columns d with
    | Some k => ([], Raise (KeyError k), σ)
    | None => ([], Ok (project columns d ∪ acc), σ)
    end.
Proof.
  intros acc Hrow. revert acc. unfold first_missing.
  induction columns as [|k columns IH]; intros acc.
  - replace (project [] d ∪ acc) with acc; [done|].
    apply (map_eq (M := gmap string)). intros j.
    rewrite lookup_union, project_lookup. rewrite decide_False by apply not_elem_of_nil.
    by rewrite (left_id None _).
  - cbn [h_for_each]. unfold mbind at 1, H_bind at 1, mbind at 1, H_bind at 1.
    unfold row_getitem, deref. rewrite Hrow. cbn [default from_option id]. unfold row_get.
    destruct (d !! k) as [v|] eqn:Hv.
    + rewrite filter_cons_False by (rewrite Hv; done).
      cbn [mret H_ret app]. rewrite IH.
      destruct (head (filter (λ k0, d !! k0 = None) columns)); [done|].
      replace (project columns d ∪ <[k:=v]> acc) with (project (k :: columns) d ∪ acc);
        [done|].
      apply (map_eq (M := gmap string)). intros j.
      rewrite !lookup_union, !project_lookup.
      destruct (decide (j = k)) as [->|Hne].
      * rewrite lookup_insert_eq, Hv. rewrite (decide_True (P := k ∈ k :: columns)) by left.
        case_decide; by destruct (acc !! k).
      * rewrite lookup_insert_ne by done.
        destruct (decide (j ∈ columns)) as [Hj|Hj].
        -- by rewrite decide_True by (by right).
        -- rewrite decide_False; [done|]. by intros [?|?]%elem_of_cons.
    + by rewrite filter_cons_True by done.
Qed.

(** X20: [Project(columns)] on a row that has every listed column yields one
    new row with exactly these columns and their values; otherwise it yields
    nothing and raises [KeyError] for the first listed column that is
    missing.  No row object changes. *)
Theorem Project_columns (columns : list string) (σ : heap) (row : nat) (d : TRow) :
  σ !! row = Some d →
  Project columns row σ
  = match first_missing columns d with
    | Some k => ([], Raise (KeyError k), σ)
    | None => ([length σ], Ok tt, σ ++ [project columns d])
    end.
Proof.
  intros Hrow. unfold Project. unfold mbind at 1, H_bind at 1.
  rewrite (Project_loop σ row d columns ∅ Hrow).
  destruct (first_missing columns d); [done|].
  by rewrite (right_id ∅ _).
Qed.

Lemma first_missing_None columns (d : TRow) :
  first_missing columns d = None ↔ has_keys columns d.
Proof.
  unfold first_missing, has_keys. rewrite head_None. split.
  - intros Hf. apply Forall_forall. intros k Hk.
    destruct (d !! k) as [v|] eqn:Hv; [by eexists|].
    assert (k ∈ filter (λ k0, d !! k0 = None) columns) as Hin
      by (by apply list_elem_of_filter).
    rewrite Hf in Hin. by apply elem_of_nil in Hin.
  - intros Hall. apply filter_none. intros k Hk Hnone.
    apply (proj1 (Forall_forall _ _) Hall k) in Hk as [v Hv]. congruence.
Qed.

(** X21: on a row that has every listed column, [Project(columns)] and
    [Remove(columns)] split the row in two: the new rows they yield have no
    column in common and together they are the row; the first has exactly
    the listed columns. *)
Theorem Project_Remove_partition (columns : list string) (σ : heap) (row : nat) (d : TRow) :
  σ !! row = Some d →
  has_keys columns d →
  ∃ p r : TRow,
    Project columns row σ = ([length σ], Ok tt, σ ++ [p]) ∧
    Remove columns row σ = ([length σ], Ok tt, σ ++ [r]) ∧
    p ##ₘ r ∧ p ∪ r = d ∧ dom p = list_to_set columns.
Proof.
  intros Hrow Hk. exists (project columns d), (remove_columns columns d). split_and!.
  - unfold Project. unfold mbind at 1, H_bind at 1.
    rewrite (Project_loop σ row d columns ∅ Hrow).
    rewrite (proj2 (first_missing_None columns d) Hk). by rewrite (right_id ∅ _).
  - unfold Remove, mbind, H_bind, get_row, new_row, h_yield, deref. rewrite Hrow. done.
  - apply map_disjoint_spec. intros k v w Hp Hr.
    apply map_lookup_filter_Some in Hp as [_ Hin], Hr as [_ Hnotin]. done.
  - apply (map_eq (M := gmap string)). intros k. rewrite lookup_union, project_lookup.
    unfold remove_columns. case_decide as Hin.
    + destruct (d !! k) as [v|] eqn:Hv.
      * by rewrite (union_Some_l _ _).
      * rewrite (left_id None _). apply map_lookup_filter_None. by left.
    + rewrite (left_id None _). destruct (d !! k) as [v|] eqn:Hv.
      * by apply map_lookup_filter_Some.
      * apply map_lookup_filter_None. by left.
  - apply set_eq. intros k. rewrite elem_of_dom, elem_of_list_to_set, project_lookup.
    case_decide as Hin.
    + split; [done|]. intros _. by apply (proj1 (Forall_forall _ _) Hk).
    + split; [by intros [? ?]|done].
Qed.

(** *** FilterPunctuation and LowerCase *)

Lemma lower_ascii_idemp c : lower_ascii (lower_ascii c) = lower_ascii c.
Proof. destruct c as [[] [] [] [] [] [] [] []]; reflexivity. Qed.

Lemma is_punctuation_lower_ascii c : is_punctuation (lower_ascii c) = is_punctuation c.
Proof. destruct c as [[] [] [] [] [] [] [] []]; reflexivity. Qed.

Lemma lower_idemp s : lower (lower s) = lower s.
Proof. induction s as [|c s IH]; [done|]. cbn. by rewrite lower_ascii_idemp, IH. Qed.

Lemma remove_punctuation_idemp s :
  remove_punctuation (remove_punctuation s) = remove_punctuation s.
Proof.
  induction s as [|c s IH]; [done|]. cbn.
  destruct (is_punctuation c) eqn:Hc; [done|]. cbn. by rewrite Hc, IH.
Qed.

Lemma lower_remove_punctuation s :
  lower (remove_punctuation s) = remove_punctuation (lower s).
Proof.
  induction s as [|c s IH]; [done|]. cbn. rewrite is_punctuation_lower_ascii.
  destruct (is_punctuation c); [done|]. cbn. by rewrite IH.
Qed.

Lemma alter_alter_insert (σ : heap) row (d : TRow) k v w :
  σ !! row = Some d →
  alter (<[k := w]>) row (alter (<[k := v]>) row σ) = alter (<[k := w]>) row σ.
Proof.
  intros Hrow. rewrite list_alter_alter_eq. apply list_alter_ext; [|done].
  intros x _. cbn. apply insert_insert_eq.
Qed.

Lemma lookup_alter_insert (σ : heap) row (d : TRow) k v :
  σ !! row = Some d →
  alter (<[k := v]>) row σ !! row = Some (<[k := v]> d).
Proof. intros Hrow. by rewrite list_lookup_alter_eq, Hrow. Qed.

(** X18: on a row whose column holds ASCII text, [FilterPunctuation] and
    [LowerCase] can be applied in either order, and either of them twice or
    once, with the same row in the end: the string without its punctuation
    characters, in lower case. *)
Theorem FilterPunctuation_LowerCase_commute
    (column : string) (σ : heap) (row : nat) (d : TRow) (s : string) :
  σ !! row = Some d →
  d !! column = Some (VStr s) →
  isascii s = true →
  let final := alter (<[column := VStr (lower (remove_punctuation s))]>) row σ in
  (FilterPunctuation column row ;; LowerCase column row) σ = ([row; row], Ok tt, final) ∧
  (LowerCase column row ;; FilterPunctuation column row) σ = ([row; row], Ok tt, final) ∧
  (FilterPunctuation column row ;; FilterPunctuation column row) σ
    = ([row; row], Ok tt, (FilterPunctuation column row σ).2) ∧
  (LowerCase column row ;; LowerCase column row) σ
    = ([row; row], Ok tt, (LowerCase column row σ).2).
Proof.
  intros Hrow Hcol _ final. unfold final.
  assert (∀ v, <[column := v]> d !! column = Some v) as Hins
    by (intros v; apply lookup_insert_eq).
  pose proof (FilterPunctuation_assigns column σ row d s Hrow Hcol) as HF.
  pose proof (LowerCase_assigns column σ row d s Hrow Hcol) as HL.
  pose proof (lookup_alter_insert σ row d column (VStr (remove_punctuation s)) Hrow) as HrowF.
  pose proof (lookup_alter_insert σ row d column (VStr (lower s)) Hrow) as HrowL.
  pose proof (FilterPunctuation_assigns column _ row _ _ HrowF (Hins _)) as HFF.
  pose proof (LowerCase_assigns column _ row _ _ HrowF (Hins _)) as HFL.
  pose proof (FilterPunctuation_assigns column _ row _ _ HrowL (Hins _)) as HLF.
  pose proof (LowerCase_assigns column _ row _ _ HrowL (Hins _)) as HLL.
  rewrite (alter_alter_insert _ _ d) in HFF, HFL, HLF, HLL by done.
  split_and!.
  - rewrite (H_bind_ok _ _ _ _ _ _ HF), HFL. done.
  - rewrite (H_bind_ok _ _ _ _ _ _ HL), HLF. by rewrite lower_remove_punctuation.
  - rewrite (H_bind_ok _ _ _ _ _ _ HF), HFF, HF. by rewrite remove_punctuation_idemp.
  - rewrite (H_bind_ok _ _ _ _ _ _ HL), HLL, HL. by rewrite lower_idemp.
Qed.

Lemma FilterPunctuation_LowerCase_commute_witness :
  let final := alter (<["text" := VStr (lower (remove_punctuation "Hello, World!"))]>)
                 0%nat punct_heap in
  (FilterPunctuation "text" 0%nat ;; LowerCase "text" 0%nat) punct_heap
    = ([0%nat; 0%nat], Ok tt, final) ∧
  (LowerCase "text" 0%nat ;; FilterPunctuation "text" 0%nat) punct_heap
    = ([0%nat; 0%nat], Ok tt, final) ∧
  (FilterPunctuation "text" 0%nat ;; FilterPunctuation "text" 0%nat) punct_heap
    = ([0%nat; 0%nat], Ok tt, (FilterPunctuation "text" 0%nat punct_heap).2) ∧
  (LowerCase "text" 0%nat ;; LowerCase "text" 0%nat) punct_heap
    = ([0%nat; 0%nat], Ok tt, (LowerCase "text" 0%nat punct_heap).2).
Proof.
  apply (FilterPunctuation_LowerCase_commute "text" punct_heap 0
           {["text" := VStr "Hello, World!"]} "Hello, World!"); reflexivity.
Defined.

(** *** Product and Apply *)

Lemma Product_loop (val_mul : val → val → result val) (σ : heap) row (d : TRow) columns :
  (∀ a b, val_mul (VInt a) (VInt b) = Ok (VInt (a * b))) →
  σ !! row = Some d →
  int_column_of d columns →
  ∀ p : Z,
    h_for_each columns (λ col prod_val,
      v ← row_getitem row col;
      h_lift (val_mul prod_val v)) (VInt p) σ
    = ([], Ok (VInt (p * foldr Z.mul 1 ((λ c, int_at c d) <$> columns))), σ).
Proof.
  intros Hmul Hrow Hcols. induction Hcols as [|c columns [z Hz] _ IH]; intros p.
  - cbn. by rewrite Z.mul_1_r.
  - cbn [h_for_each]. unfold mbind at 1, H_bind at 1, mbind at 1, H_bind at 1.
    unfold row_getitem, deref. rewrite Hrow. cbn [default from_option id].
    rewrite (row_get_Some _ _ _ Hz). unfold h_lift. rewrite Hmul. cbn [app].
    rewrite IH. cbn [fmap list_fmap foldr]. unfold int_at at 2. rewrite Hz.
    by rewrite Z.mul_assoc.
Qed.

(** X22: with [*] the product of integers, [Product(columns, result)] on a
    row that holds an integer in every listed column yields one copy of the
    row with [result] set to the product of these integers, [1] for an empty
    list; the row itself is not changed. *)
Theorem Product_of_int_columns (val_mul : val → val → result val)
    (columns : list string) (result_column : string) (σ : heap) (row : nat) (d : TRow) :
  (∀ a b, val_mul (VInt a) (VInt b) = Ok (VInt (a * b))) →
  σ !! row = Some d →
  int_column_of d columns →
  Product val_mul columns result_column row σ
  = ([length σ], Ok tt,
     σ ++ [<[result_column := VInt (foldr Z.mul 1 ((λ c, int_at c d) <$> columns))]> d]).
Proof.
  intros Hmul Hrow Hcols. unfold Product.
  assert (deref σ row = d) as Hd by (unfold deref; by rewrite Hrow).
  erewrite H_bind_ok; last first.
  { unfold row_copy, new_row. rewrite Hd. reflexivity. }
  erewrite H_bind_ok; last first.
  { apply (Product_loop val_mul (σ ++ [d]) (length σ) d columns Hmul); [|done].
    by rewrite lookup_app_r, Nat.sub_diag by lia. }
  cbn [fst snd app]. unfold mbind, H_bind, row_setitem, h_yield. cbn [app].
  rewrite alter_app_last. by rewrite Z.mul_1_l.
Qed.

Lemma Apply_args (σ : heap) row (d : TRow) columns :
  σ !! row = Some d → has_keys columns d →
  ∀ args : list val,
    h_for_each columns (λ column args,
      v ← row_getitem row column; mret (args ++ [v])) args σ
    = ([], Ok (args ++ key_tuple columns d), σ).
Proof.
  intros Hrow Hk. induction Hk as [|c columns [v Hv] _ IH]; intros args.
  - cbn. by rewrite app_nil_r.
  - cbn [h_for_each]. unfold mbind at 1, H_bind at 1, mbind at 1, H_bind at 1.
    unfold row_getitem, deref. rewrite Hrow. cbn [default from_option id].
    rewrite (row_get_Some _ _ _ Hv). cbn [mret H_ret app]. rewrite IH.
    unfold key_tuple. cbn [fmap list_fmap]. rewrite Hv. by rewrite <-app_assoc.
Qed.

(** X23: [Apply(columns, result, func)] on a row that has the listed
    columns calls [func] on their values, in the order the columns are
    listed, and yields one copy of the row with [result] set to what [func]
    returns; the row itself is not changed. *)
Theorem Apply_result (func : list val → result val)
    (columns : list string) (result_column : string) (σ : heap) (row : nat) (d : TRow)
    (v : val) :
  σ !! row = Some d →
  has_keys columns d →
  func (key_tuple columns d) = Ok v →
  Apply func columns result_column row σ
  = ([length σ], Ok tt, σ ++ [<[result_column := v]> d]).
Proof.
  intros Hrow Hk Hf. unfold Apply.
  assert (deref σ row = d) as Hd by (unfold deref; by rewrite Hrow).
  erewrite H_bind_ok; last first.
  { apply (Apply_args σ row d columns Hrow Hk []). }
  erewrite H_bind_ok; last first.
  { unfold row_copy, new_row. rewrite Hd. reflexivity. }
  cbn [fst snd app]. rewrite Hf.
  unfold mbind, H_bind, h_lift, row_setitem, h_yield. cbn [app].
  by rewrite alter_app_last.
Qed.

Lemma Project_columns_witness :
  Project ["c"; "a"] 0%nat product_heap
  = match first_missing ["c"; "a"] {["a" := VInt 2; "b" := VInt 3; "c" := VInt 7]} with
    | Some k => ([], Raise (KeyError k), product_heap)
    | None => ([length product_heap], Ok tt,
               product_heap ++ [project ["c"; "a"] {["a" := VInt 2; "b" := VInt 3; "c" := VInt 7]}])
    end.
Proof. apply Project_columns. reflexivity. Defined.

Lemma Project_Remove_partition_witness :
  ∃ p r : TRow,
    Project ["c"; "a"] 0%nat product_heap = ([length product_heap], Ok tt, product_heap ++ [p]) ∧
    Remove ["c"; "a"] 0%nat product_heap = ([length product_heap], Ok tt, product_heap ++ [r]) ∧
    p ##ₘ r ∧ p ∪ r = {["a" := VInt 2; "b" := VInt 3; "c" := VInt 7]} ∧
    dom p = list_to_set ["c"; "a"].
Proof.
  apply Project_Remove_partition; [reflexivity|].
  repeat constructor; by eexists.
Defined.

Lemma Product_of_int_columns_witness :
  Product int_mul ["a"; "b"] "product" 0%nat product_heap
  = ([length product_heap], Ok tt,
     product_heap ++
       [<["product" := VInt (foldr Z.mul 1
           ((λ c, int_at c {["a" := VInt 2; "b" := VInt 3; "c" := VInt 7]}) <$> ["a"; "b"]))]>
          {["a" := VInt 2; "b" := VInt 3; "c" := VInt 7]}]).
Proof.
  apply Product_of_int_columns; [done|reflexivity|].
  repeat constructor; by eexists.
Defined.

Lemma Apply_result_witness :
  Apply (λ args, Ok (VInt (Z.of_nat (length args)))) ["a"; "b"] "arity" 0%nat product_heap
  = ([length product_heap], Ok tt,
     product_heap ++ [<["arity" := VInt 2]> {["a" := VInt 2; "b" := VInt 3; "c" := VInt 7]}]).
Proof.
  apply Apply_result; [reflexivity| |reflexivity].
  repeat constructor; by eexists.
Defined.


(** ** Split with the default separator *)

Lemma default_separator_from_S i text :
  default_separator_from (S i) text = shift_span <$> default_separator_from i text.
Proof.
  revert i. induction text as [|c text IH]; intros i; [done|].
  cbn [default_separator_from]. destruct (is_separator c).
  - cbn [fmap list_fmap]. by rewrite IH.
  - apply IH.
Qed.

Lemma separator_tokens_cons text prev s e spans :
  separator_tokens text prev ((s, e) :: spans)
  = slice text prev s :: separator_tokens text e spans.
Proof. done. Qed.

Lemma slice_S c text i j : slice (String c text) (S i) (S j) = slice text i j.
Proof. done. Qed.

Lemma slice_0_S c text j : slice (String c text) 0 (S j) = String c (slice text 0 j).
Proof. unfold slice. by rewrite !Nat.sub_0_r. Qed.

Lemma slice_from_S c text i : slice_from (String c text) (S i) = slice_from text i.
Proof. done. Qed.

Lemma slice_from_0 text : slice_from text 0 = text.
Proof. unfold slice_from. by rewrite Nat.sub_0_r, substring_all. Qed.

Lemma separator_tokens_shift c text spans : ∀ prev,
  separator_tokens (String c text) (S prev) (shift_span <$> spans)
  = separator_tokens text prev spans.
Proof.
  induction spans as [|[s e] spans IH]; intros prev; [done|].
  cbn [fmap list_fmap]. change (shift_span (s, e)) with (S s, S e).
  rewrite !separator_tokens_cons. by rewrite slice_S, IH.
Qed.

Lemma last_end_cons prev s e spans : last_end prev ((s, e) :: spans) = last_end e spans.
Proof.
  unfold last_end. cbn [fmap list_fmap snd].
  destruct (spans.*2) as [|x l]; [done|].
  change (last (e :: x :: l)) with (last (x :: l)).
  destruct (last (x :: l)) eqn:Hl; [done|]. by apply last_None in Hl.
Qed.

Lemma last_end_shift spans : ∀ prev,
  last_end (S prev) (shift_span <$> spans) = S (last_end prev spans).
Proof.
  induction spans as [|[s e] spans IH]; intros prev; [done|].
  cbn [fmap list_fmap]. change (shift_span (s, e)) with (S s, S e).
  by rewrite !last_end_cons, IH.
Qed.

Lemma default_tokens_nil text : default_tokens text = [] → text = EmptyString.
Proof.
  destruct text as [|c text]; [done|]. cbn.
  destruct (is_separator c); [done|]. by destruct (default_tokens text).
Qed.

Lemma split_tokens_default_cons c text :
  split_tokens (String c text) (default_separator (String c text))
  = if is_separator c then
      EmptyString :: split_tokens text (default_separator text)
    else
      match split_tokens text (default_separator text) with
      | [] => [String c EmptyString]
      | tok :: toks => String c tok :: toks
      end.
Proof.
  unfold default_separator. cbn [default_separator_from].
  rewrite default_separator_from_S. set (spans := default_separator_from 0 text).
  unfold split_tokens, tail_token. destruct (is_separator c).
  - rewrite separator_tokens_cons, last_end_cons.
    rewrite separator_tokens_shift, last_end_shift. cbn [String.length app].
    change (slice (String c text) 0 0) with EmptyString. f_equal. f_equal.
    destruct (decide (String.length text = last_end 0 spans)) as [Heq|Hne].
    + by rewrite decide_True by lia.
    + rewrite decide_False by lia. by rewrite slice_from_S.
  - destruct spans as [|[s e] spans].
    + cbn [fmap list_fmap separator_tokens zip_with app]. unfold last_end. cbn [fmap list_fmap last default from_option id String.length].
      rewrite decide_False by lia. rewrite slice_from_0.
      change (separator_tokens text 0 []) with (@nil string). cbn [app].
      destruct (decide (String.length text = 0%nat)) as [Heq|Hne].
      * by destruct text.
      * by rewrite slice_from_0.
    + cbn [fmap list_fmap]. change (shift_span (s, e)) with (S s, S e).
      rewrite !separator_tokens_cons, !last_end_cons.
      rewrite separator_tokens_shift, last_end_shift, slice_0_S. cbn [String.length app].
      f_equal. f_equal.
      destruct (decide (String.length text = last_end e spans)) as [Heq|Hne].
      * by rewrite decide_True by lia.
      * rewrite decide_False by lia. by rewrite slice_from_S.
Qed.

Lemma split_tokens_default text :
  split_tokens text (default_separator text) = default_tokens text.
Proof.
  induction text as [|c text IH]; [done|].
  rewrite split_tokens_default_cons, IH. done.
Qed.

Lemma default_tokens_no_separator text :
  Forall (λ tok, has_separator tok = false) (default_tokens text).
Proof.
  induction text as [|c text IH]; [constructor|]. cbn [default_tokens].
  destruct (is_separator c) eqn:Hc; [by constructor|].
  destruct (default_tokens text) as [|tok toks]; constructor.
  - cbn. by rewrite Hc.
  - constructor.
  - apply Forall_cons in IH as [Htok _]. cbn. by rewrite Hc.
  - by apply Forall_cons in IH as [_ ?].
Qed.

Lemma Split_trace (column : string) (separator : string → list (nat * nat))
    (row : nat) (σ : heap) (d : TRow) (text : string) :
  σ !! row = Some d →
  d !! column = Some (VStr text) →
  ∃ (ys : list nat) (σ' : heap),
    Split column separator row σ = (ys, Ok tt, σ') ∧
    deref σ' <$> ys
      = (λ tok, <[column := VStr tok]> d) <$> split_tokens text (separator text).
Proof.
  intros Hrow Hcol.
  assert (deref σ row = d) as Hderef by (unfold deref; by rewrite Hrow).
  destruct (Split_loop column text d (separator text) 0%nat σ d) as (d' & Hd' & Hloop).
  { by intros v. }
  remember ((λ tok, <[column := VStr tok]> d) <$> separator_tokens text 0 (separator text))
    as R eqn:HeqR.
  assert (length R = length (separator text)) as HR.
  { rewrite HeqR. by rewrite length_fmap, length_separator_tokens. }
  assert (Split column separator row σ
          = if decide (String.length text ≠ last_end 0 (separator text)) then
              (seq (length σ) (length (separator text))
                 ++ [(length σ + length (separator text))%nat], Ok tt,
               σ ++ R ++ [<[column := VStr (slice_from text (last_end 0 (separator text)))]> d])
            else (seq (length σ) (length (separator text)), Ok tt, σ ++ R ++ [d'])) as Hsplit.
  { unfold Split.
    erewrite H_bind_ok; last first.
    { unfold row_getitem. rewrite Hderef. unfold row_get. rewrite Hcol. reflexivity. }
    erewrite H_bind_ok; last first.
    { unfold row_copy, new_row. rewrite Hderef. reflexivity. }
    erewrite H_bind_ok; last first.
    { reflexivity. }
    erewrite H_bind_ok; last first.
    { cbn [as_text]. exact Hloop. }
    cbn [fst snd app]. case_decide as Hlen.
    - unfold mbind, H_bind, row_setitem, h_yield. cbn.
      rewrite <-HR, alter_app_app_last, Hd'. by rewrite ?app_nil_r.
    - unfold mret, H_ret. cbn. by rewrite ?app_nil_r. }
  destruct (decide (String.length text ≠ last_end 0 (separator text))) as [Hlen|Hlen].
  - do 2 eexists. split; [exact Hsplit|].
    rewrite fmap_app. rewrite <-HR at 1. rewrite deref_seq_app.
    cbn [fmap list_fmap]. rewrite <-HR, deref_app_app_last.
    unfold split_tokens, tail_token. rewrite decide_False by done.
    by rewrite fmap_app, HeqR.
  - do 2 eexists. split; [exact Hsplit|].
    rewrite <-HR, deref_seq_app.
    unfold split_tokens, tail_token. rewrite decide_True by (by apply dec_stable).
    by rewrite app_nil_r, HeqR.
Qed.

(** X19: [Split(column)] with its default separator cuts ASCII text at
    each white-space character and each plus sign, one character at a time:
    a token ends at every such character, so two of them in a row give an
    empty token, and the text after the last one is a token unless it is
    empty.  No token contains a separator character. *)
Theorem Split_default_separator_tokens
    (column : string) (row : nat) (σ : heap) (d : TRow) (text : string) :
  σ !! row = Some d →
  d !! column = Some (VStr text) →
  isascii text = true →
  ∃ (ys : list nat) (σ' : heap),
    Split column default_separator row σ = (ys, Ok tt, σ') ∧
    deref σ' <$> ys = (λ tok, <[column := VStr tok]> d) <$> default_tokens text ∧
    Forall (λ tok, has_separator tok = false) (default_tokens text).
Proof.
  intros Hrow Hcol _.
  destruct (Split_trace column default_separator row σ d text Hrow Hcol)
    as (ys & σ' & Hsplit & Hys).
  exists ys, σ'. split_and!; [done| |apply default_tokens_no_separator].
  by rewrite Hys, split_tokens_default.
Qed.

Lemma Split_default_separator_tokens_witness :
  ∃ (ys : list nat) (σ' : heap),
    Split "text" default_separator 0%nat split_heap = (ys, Ok tt, σ') ∧
    deref σ' <$> ys
      = (λ tok, <["text" := VStr tok]> {["text" := VStr "a b"; "doc" := VInt 1]})
          <$> default_tokens "a b" ∧
    Forall (λ tok, has_separator tok = false) (default_tokens "a b").
Proof.
  apply Split_default_separator_tokens; reflexivity.
Defined.


(** ** Map *)

Lemma G_bind_assoc {A B C : Type} (m : G A) (f : A → G B) (g : B → G C) :
  (m ≫= f) ≫= g = m ≫= (λ a, f a ≫= g).
Proof.
  destruct m as [ys [a|e]]; unfold mbind, G_bind; cbn [fst snd]; [|done].
  destruct (f a) as [zs [b|e]]; cbn [fst snd]; [|done].
  by rewrite app_assoc.
Qed.

Lemma for_each_app {X S : Type} (xs ys : list X) (body : X → S → G S) (s : S) :
  for_each (xs ++ ys) body s = for_each xs body s ≫= for_each ys body.
Proof.
  revert s. induction xs as [|x xs IH]; intros s; cbn [app for_each].
  - by rewrite G_bind_ret.
  - rewrite G_bind_assoc. apply G_bind_ext. intros s'. apply IH.
Qed.

Lemma Map_cons mapper r rows fin :
  Map mapper (r :: rows, fin) = (mapper r;; Map mapper (rows, fin)).
Proof.
  unfold Map, for_in. cbn [fst snd for_each]. rewrite G_bind_assoc.
  apply G_bind_ext. by intros [].
Qed.

Lemma Map_nil mapper fin : Map mapper ([], fin) = ([], fin_result fin).
Proof. by destruct fin. Qed.

Lemma Map_app mapper pre rows fin :
  Map mapper (pre ++ rows, fin) = (Map mapper (pre, None);; Map mapper (rows, fin)).
Proof.
  induction pre as [|r pre IH]; cbn [app].
  - rewrite Map_nil. cbn [fin_result]. by rewrite G_bind_pure.
  - rewrite !Map_cons, IH, G_bind_assoc. done.
Qed.

Lemma Map_generator_seq (g : Mapper) (m k : G unit) :
  Map g (generator (m;; k)) = (Map g (generator m);; Map g (generator k)).
Proof.
  destruct m as [ys [[]|e]], k as [zs r].
  - change (generator ((ys, Ok tt);; (zs, r))) with (ys ++ zs, (generator (zs, r)).2).
    change (generator (ys, Ok tt)) with (ys, @None exn).
    change (generator (zs, r)) with (zs, (generator (zs, r)).2).
    apply Map_app.
  - change (generator ((ys, Raise e);; (zs, r))) with (ys, Some e).
    change (generator (ys, Raise e)) with (ys, Some e).
    rewrite <-(app_nil_r ys) at 1 2. rewrite Map_app, Map_nil, G_bind_assoc.
    apply G_bind_ext. by intros [].
Qed.

(** X14: [Map] with [DummyMapper] gives its input back, rows and final
    exception alike; and two [Map]s in a row yield what one [Map] yields
    with the mapper that runs the second mapper on the rows the first one
    yields for a row, up to and including the exception that ends the
    stream. *)
Theorem Map_identity_and_fusion (f g : Mapper) (rows : stream TRow) :
  Map (run_mapper DummyMapper) rows = yield_from rows ∧
  Map g (generator (Map f rows)) = Map (compose_mappers f g) rows.
Proof.
  destruct rows as [rows fin]. split.
  - induction rows as [|r rows IH].
    + by destruct fin.
    + rewrite Map_cons, IH. unfold yield_from. by destruct fin.
  - induction rows as [|r rows IH].
    + rewrite !Map_nil. by destruct fin.
    + rewrite !Map_cons, Map_generator_seq, IH. done.
Qed.

(** X15: [Map] hands the rows to the mapper one by one and stops at the
    first row on which the mapper raises: what the earlier rows and this row
    yielded before the exception is delivered, the exception ends the
    stream, and the rows after it are never handed to the mapper. *)
Theorem Map_stops_at_first_failure (mapper : Mapper)
    (pre : list TRow) (r : TRow) (post : list TRow) (fin : option exn)
    (out ys : list TRow) (e : exn) :
  Map mapper (pre, None) = (out, Ok tt) →
  mapper r = (ys, Raise e) →
  Map mapper (pre ++ r :: post, fin) = (out ++ ys, Raise e).
Proof.
  intros Hpre Hr. by rewrite Map_app, Hpre, Map_cons, Hr.
Qed.

Lemma run_mapper_Filter condition row :
  run_mapper (Filter condition) row
  = match condition row with
    | Ok true => ([row], Ok tt)
    | Ok false => ([], Ok tt)
    | Raise e => ([], Raise e)
    end.
Proof.
  unfold run_mapper, Filter, mbind, H_bind, get_row, h_lift. cbn.
  by destruct (condition row) as [[]|e].
Qed.

(** X16: when the condition answers on every row, [Map] with
    [Filter(condition)] yields the rows on which it answers [True], in
    their order, and nothing else. *)
Theorem Map_Filter_keeps (condition : TRow → result bool) (rows : list TRow) :
  Forall (λ r, ∃ b, condition r = Ok b) rows →
  Map (run_mapper (Filter condition)) (rows, None)
  = (filter (holds condition) rows, Ok tt).
Proof.
  induction 1 as [|r rows [b Hb] _ IH]; [done|].
  rewrite Map_cons, IH, run_mapper_Filter, Hb.
  destruct b.
  - by rewrite filter_cons_True by exact Hb.
  - rewrite filter_cons_False; [done|]. unfold holds. by rewrite Hb.
Qed.

Lemma Map_stops_at_first_failure_witness :
  Map (run_mapper (LowerCase "text"))
      ([ {["text" := VStr "A"]} ] ++ {["text" := VInt 1]} :: [ {["text" := VStr "B"]} ], None)
  = ([ {["text" := VStr "a"]} ] ++ [], Raise AttributeError).
Proof.
  apply Map_stops_at_first_failure; reflexivity.
Defined.

Lemma Map_Filter_keeps_witness :
  Map (run_mapper (Filter (λ r, Ok (bool_decide (r !! "a" = Some (VInt 1))))))
      (sample_rows, None)
  = (filter (holds (λ r, Ok (bool_decide (r !! "a" = Some (VInt 1))))) sample_rows, Ok tt).
Proof.
  apply Map_Filter_keeps. repeat constructor; by eexists.
Defined.


(** ** Graphs and their inputs *)

Lemma Graph_ind (P : graph.Graph → Prop) :
  (∀ op prev next,
     (∀ p, prev = Some p → P p) → (∀ n, next = Some n → P n) →
     P (graph.Build_Graph op prev next)) →
  ∀ g, P g.
Proof.
  intros Hstep. fix IH 1. intros [op prev next]. apply Hstep.
  - destruct prev as [p|]; intros p' Heq; [|discriminate].
    injection Heq as <-. apply IH.
  - destruct next as [n|]; intros n' Heq; [|discriminate].
    injection Heq as <-. apply IH.
Qed.

Section run_inputs.
Context (val_lt : val → val → result bool).
Context (open_file : string → result (list string)).
Context (ExternalSort : list string → stream TRow → G unit).

Lemma ReadIterFactory_agree name (kwargs kwargs' : gmap string (stream TRow)) :
  kwargs !! name = kwargs' !! name →
  ReadIterFactory name kwargs = ReadIterFactory name kwargs'.
Proof. intros Heq. unfold ReadIterFactory. by rewrite Heq. Qed.

Lemma run_agree (kwargs kwargs' : gmap string (stream TRow)) : ∀ g : graph.Graph,
  (∀ name, name ∈ sources g → kwargs !! name = kwargs' !! name) →
  graph.run val_lt open_file ExternalSort g kwargs
  = graph.run val_lt open_file ExternalSort g kwargs'.
Proof.
  apply (Graph_ind (λ g, (∀ name, name ∈ sources g → kwargs !! name = kwargs' !! name) →
    graph.run val_lt open_file ExternalSort g kwargs
    = graph.run val_lt open_file ExternalSort g kwargs')).
  intros op prev next IHprev IHnext Hsrc.
  assert (∀ p, prev = Some p →
            graph.run val_lt open_file ExternalSort p kwargs
            = graph.run val_lt open_file ExternalSort p kwargs') as Hprev.
  { intros p Hp. apply (IHprev p Hp). intros name Hname. apply Hsrc. cbn [sources].
    rewrite Hp, !elem_of_app. right. by left. }
  assert (∀ n, next = Some n →
            graph.run val_lt open_file ExternalSort n kwargs
            = graph.run val_lt open_file ExternalSort n kwargs') as Hnext.
  { intros n Hn. apply (IHnext n Hn). intros name Hname. apply Hsrc. cbn [sources].
    rewrite Hn, !elem_of_app. right. by right. }
  clear IHprev IHnext.
  destruct op as [[name|filename parser|mapper|reducer keys|joiner keys|keys]|];
    destruct prev as [p|], next as [n|]; cbn [graph.run]; try reflexivity.
  - rewrite (ReadIterFactory_agree name kwargs kwargs'); [done|].
    apply Hsrc. cbn [sources]. rewrite !elem_of_app. left. by left.
  - by rewrite (Hprev p eq_refl).
  - by rewrite (Hprev p eq_refl).
  - by rewrite (Hprev p eq_refl), (Hnext n eq_refl).
  - by rewrite (Hprev p eq_refl).
Qed.
End run_inputs.

(** X25: what [run] gives depends on the inputs only through the streams
    named by the [ReadIterFactory] nodes of the graph: two sets of inputs
    that agree on these names give the same stream, so an input no node
    reads can be added, changed or left out. *)
Theorem run_reads_only_its_sources
    (val_lt : val → val → result bool) (open_file : string → result (list string))
    (ExternalSort : list string → stream TRow → G unit)
    (g : graph.Graph) (kwargs kwargs' : gmap string (stream TRow)) :
  (∀ name, name ∈ sources g → kwargs !! name = kwargs' !! name) →
  graph.run val_lt open_file ExternalSort g kwargs
  = graph.run val_lt open_file ExternalSort g kwargs'.
Proof. apply run_agree. Qed.

Lemma run_reads_only_its_sources_witness :
  graph.run py_lt (λ _, Ok []) (ExternalSort_model py_lt) sample_graph sample_kwargs
  = graph.run py_lt (λ _, Ok []) (ExternalSort_model py_lt) sample_graph
      (<["unused" := ([], None)]> sample_kwargs).
Proof.
  apply run_reads_only_its_sources. intros name Hname.
  assert (name ≠ "unused") as Hne.
  { intros ->. vm_compute in Hname.
    repeat (apply elem_of_cons in Hname as [Hname|Hname]; [discriminate|]).
    by apply elem_of_nil in Hname. }
  by rewrite lookup_insert_ne.
Defined.


(** ** Word count *)

Lemma total_order_on_weaken {A : Type} (lt : A → A → result bool) (P Q : A → Prop) :
  (∀ x, Q x → P x) → total_order_on lt P → total_order_on lt Q.
Proof.
  intros HQP (Hdef & Hirr & Htrans & Htot). split_and!.
  - intros x y Hx Hy. apply Hdef; by apply HQP.
  - intros x Hx. apply Hirr. by apply HQP.
  - intros x y z Hx Hy Hz. apply Htrans; by apply HQP.
  - intros x y Hx Hy. apply Htot; by apply HQP.
Qed.

Lemma string_ltb_lt a b : String.ltb a b = true ↔ OrderedTypeEx.String_as_OT.lt a b.
Proof.
  rewrite <-OrderedTypeEx.String_as_OT.cmp_lt. unfold String.ltb, OrderedTypeEx.String_as_OT.cmp.
  by destruct (String.compare a b).
Qed.

Lemma py_lt_total_order_str (P : val → Prop) :
  (∀ v, P v → ∃ s, v = VStr s) → total_order_on py_lt P.
Proof.
  intros Hstr. split_and!.
  - intros x y [a ->]%Hstr [b ->]%Hstr. simpl. eauto.
  - intros x [a ->]%Hstr. simpl. f_equal.
    destruct (String.ltb a a) eqn:Hlt; [|done].
    apply string_ltb_lt in Hlt. by apply OrderedTypeEx.String_as_OT.lt_not_eq in Hlt.
  - intros x y z [a ->]%Hstr [b ->]%Hstr [c ->]%Hstr. simpl. intros [= Hab] [= Hbc]. f_equal.
    apply string_ltb_lt. apply string_ltb_lt in Hab, Hbc.
    by eapply OrderedTypeEx.String_as_OT.lt_trans.
  - intros x y [a ->]%Hstr [b ->]%Hstr Hne. simpl.
    unfold String.ltb. rewrite (String.compare_antisym b a).
    destruct (String.compare a b) eqn:Hc; simpl; [|by left|by right].
    apply String.compare_eq_iff in Hc. congruence.
Qed.

(** *** The three mappers *)

Lemma Map_yields (mapper : Mapper) (F : TRow → list TRow) rows :
  Forall (λ d, mapper d = (F d, Ok tt)) rows →
  Map mapper (rows, None) = (rows ≫= F, Ok tt).
Proof.
  induction 1 as [|d rows Hd _ IH]; [done|].
  rewrite Map_cons, Hd, IH. done.
Qed.

Lemma text_of_Some c (d : TRow) s : d !! c = Some (VStr s) → text_of c d = s.
Proof. intros Hd. unfold text_of. by rewrite Hd. Qed.

Lemma text_of_insert c (d : TRow) s : text_of c (<[c := VStr s]> d) = s.
Proof. unfold text_of. by rewrite lookup_insert_eq. Qed.

Lemma run_mapper_FilterPunctuation c (d : TRow) s :
  d !! c = Some (VStr s) →
  run_mapper (FilterPunctuation c) d = ([<[c := VStr (remove_punctuation s)]> d], Ok tt).
Proof.
  intros Hd. unfold run_mapper.
  by rewrite (FilterPunctuation_assigns c [d] 0 d s eq_refl Hd).
Qed.

Lemma run_mapper_LowerCase c (d : TRow) s :
  d !! c = Some (VStr s) →
  run_mapper (LowerCase c) d = ([<[c := VStr (lower s)]> d], Ok tt).
Proof.
  intros Hd. unfold run_mapper.
  by rewrite (LowerCase_assigns c [d] 0 d s eq_refl Hd).
Qed.

Lemma run_mapper_Split_default c (d : TRow) s :
  d !! c = Some (VStr s) →
  run_mapper (Split c default_separator) d
  = ((λ tok, <[c := VStr tok]> d) <$> default_tokens s, Ok tt).
Proof.
  intros Hd. unfold run_mapper.
  destruct (Split_trace c default_separator 0 [d] d s eq_refl Hd) as (ys & σ' & -> & Hys).
  by rewrite Hys, split_tokens_default.
Qed.

Lemma split_words_stage c docs :
  string_column c docs →
  ∃ T : list TRow,
    Map (run_mapper (Split c default_separator))
      (generator (Map (run_mapper (LowerCase c))
         (generator (Map (run_mapper (FilterPunctuation c)) (docs, None)))))
    = (T, Ok tt) ∧
    text_of c <$> T = words_of c docs ∧
    string_column c T.
Proof.
  intros Hdocs.
  set (fp := λ d : TRow, <[c := VStr (remove_punctuation (text_of c d))]> d).
  set (lc := λ d : TRow, <[c := VStr (lower (text_of c d))]> d).
  set (sp := λ d : TRow, (λ tok, <[c := VStr tok]> d) <$> default_tokens (text_of c d)).
  rewrite (Map_yields _ (λ d, [fp d])); last first.
  { eapply Forall_impl; [exact Hdocs|]. intros d [s Hs]. cbn beta.
    rewrite (run_mapper_FilterPunctuation c d s Hs). unfold fp.
    by rewrite (text_of_Some _ _ _ Hs). }
  change (generator (docs ≫= (λ d, [fp d]), Ok tt)) with (docs ≫= (λ d, [fp d]), @None exn).
  rewrite (Map_yields _ (λ d, [lc d])); last first.
  { apply Forall_forall. intros r (d & Hr & Hd)%list_elem_of_bind.
    apply list_elem_of_singleton in Hr as ->.
    rewrite (run_mapper_LowerCase c (fp d) (text_of c (fp d))); [done|].
    unfold fp. by rewrite text_of_insert, lookup_insert_eq. }
  change (generator (?l, Ok tt)) with (l, @None exn).
  rewrite (Map_yields _ sp); last first.
  { apply Forall_forall. intros r (r1 & Hr & Hr1)%list_elem_of_bind.
    apply list_elem_of_singleton in Hr as ->.
    rewrite (run_mapper_Split_default c (lc r1) (text_of c (lc r1))); [done|].
    unfold lc. by rewrite text_of_insert, lookup_insert_eq. }
  eexists. split; [reflexivity|]. split.
  - unfold words_of. clear Hdocs. induction docs as [|d docs IH]; [done|].
    cbn [mbind list_bind app]. rewrite !fmap_app, IH. f_equal.
    unfold sp, lc, fp. rewrite !text_of_insert.
    rewrite <-list_fmap_compose.
    rewrite <-(list_fmap_id (default_tokens _)) at 2.
    apply list_fmap_ext. intros i tok _. cbn. by rewrite text_of_insert.
  - apply Forall_forall. intros r (r2 & Hr & Hr2)%list_elem_of_bind.
    unfold sp in Hr. apply list_elem_of_fmap in Hr as (tok & -> & _).
    exists tok. apply lookup_insert_eq.
Qed.

(** *** Counting the sorted words *)

Lemma Reduce_Count_runs val_lt col keys rows :
  sorted_by val_lt keys rows →
  columns_ordered val_lt keys rows →
  ∃ gs : list (list TRow),
    Reduce (Count col) keys (rows, None) = (count_row col keys <$> gs, Ok tt) ∧
    concat gs = rows ∧ Forall (uniform_run keys) gs ∧ NoDup (group_tuple keys <$> gs).
Proof.
  intros [Hk Hs] Hcols.
  pose proof (group_runs_maximal keys rows Hk) as (Hcat & Hu & Hadj).
  set (gs := (group_runs (keyed (key_of keys) rows)).*2) in *.
  exists gs. split_and!; [|done|done|].
  - rewrite (Reduce_normal_groups _ _ _ Hk). fold gs.
    apply (for_each_single_yields (λ g, Count col keys (g, None))).
    eapply Forall_impl; [exact Hu|]. intros [|r g] [Hne _]; [done|].
    apply Count_group.
  - eapply runs_tuples_NoDup; [by apply columns_ordered_tuples| |by rewrite Hcat|done|done].
    intros r Hr. rewrite Hcat in Hr. apply key_tuple_in; [done|].
    by eapply Forall_forall in Hk.
Qed.

Lemma length_filter_fmap {A B : Type} (f : A → B) (P : B → Prop) `{∀ y, Decision (P y)}
    (l : list A) :
  length (filter P (f <$> l)) = length (filter (λ x, P (f x)) l).
Proof.
  induction l as [|x l IH]; [done|]. cbn [fmap list_fmap].
  rewrite !filter_cons. destruct (decide (P (f x))); cbn [length]; by rewrite IH.
Qed.

Lemma key_tuple_text c (r : TRow) w :
  r !! c = Some (VStr w) → key_tuple [c] r = [VStr w].
Proof. intros Hr. unfold key_tuple. cbn. by rewrite Hr. Qed.

Lemma project_text c (r : TRow) w :
  r !! c = Some (VStr w) → project [c] r = {[c := VStr w]}.
Proof.
  intros Hr. apply (map_eq (M := gmap string)). intros j. rewrite project_lookup.
  destruct (decide (j = c)) as [->|Hne].
  - rewrite decide_True by left. by rewrite lookup_singleton_eq.
  - rewrite decide_False by (by intros ?%list_elem_of_singleton).
    by rewrite lookup_singleton_ne.
Qed.

Lemma count_words_stage val_lt c count S words :
  sorted_by val_lt [c] S →
  columns_ordered val_lt [c] S →
  string_column c S →
  text_of c <$> S ≡ₚ words →
  ∃ ws : list string,
    Reduce (Count count) [c] (S, None) = (word_row c count words <$> ws, Ok tt) ∧
    NoDup ws ∧ ∀ w, w ∈ ws ↔ w ∈ words.
Proof.
  intros Hs Hcols Hstr Hwords.
  destruct (Reduce_Count_runs val_lt count [c] S Hs Hcols) as (gs & Hred & Hcat & Hu & Hnd).
  set (h := λ g : list TRow, text_of c (default ∅ (head g))).
  assert (∀ g, g ∈ gs → ∃ r g', g = r :: g' ∧ r ∈ S ∧ r !! c = Some (VStr (h g))) as Hhead.
  { intros g Hg. pose proof (proj1 (Forall_forall _ _) Hu g Hg) as [Hne _].
    destruct g as [|r g']; [done|]. exists r, g'. split; [done|].
    assert (r ∈ S) as Hr.
    { rewrite <-Hcat. apply elem_of_concat. exists (r :: g'). split; [done|by left]. }
    split; [done|]. pose proof (proj1 (Forall_forall _ _) Hstr r Hr) as [w Hw].
    unfold h. cbn [head default from_option id]. by rewrite (text_of_Some _ _ _ Hw). }
  assert (group_tuple [c] <$> gs = (λ w, [VStr w]) <$> (h <$> gs)) as Htup.
  { rewrite <-list_fmap_compose. apply list_fmap_ext. intros i g Hg.
    destruct (Hhead g) as (r & g' & -> & _ & Hr); [by eapply list_elem_of_lookup_2|].
    unfold group_tuple. cbn [head default from_option id compose].
    by apply key_tuple_text. }
  exists (h <$> gs). split_and!.
  - rewrite Hred. f_equal. rewrite <-list_fmap_compose. apply list_fmap_ext. intros i g Hg.
    pose proof (list_elem_of_lookup_2 _ _ _ Hg) as Hin.
    destruct (Hhead g Hin) as (r & g' & -> & Hr & Hrc).
    unfold count_row, word_row, compose. cbn [head default from_option id].
    rewrite (project_text _ _ _ Hrc). do 3 f_equal.
    rewrite <-(filter_group_tuple [c] gs Hu Hnd (r :: g') Hin) at 1. rewrite Hcat.
    rewrite <-Hwords, length_filter_fmap. f_equal.
    apply filter_ext_in. intros r' Hr'.
    pose proof (proj1 (Forall_forall _ _) Hstr r' Hr') as [w' Hw'].
    rewrite (key_tuple_text _ _ _ Hw'), (text_of_Some _ _ _ Hw').
    unfold group_tuple. cbn [head default from_option id].
    rewrite (key_tuple_text _ _ _ Hrc). split; [by intros [= ->]|by intros ->].
  - rewrite Htup in Hnd. by apply NoDup_fmap_1 in Hnd.
  - intros w. rewrite <-Hwords, !list_elem_of_fmap. split.
    + intros (g & -> & Hg). destruct (Hhead g Hg) as (r & g' & _ & Hr & Hrc).
      exists r. split; [|done]. by rewrite (text_of_Some _ _ _ Hrc).
    + intros (r & -> & Hr). rewrite <-Hcat in Hr.
      apply elem_of_concat in Hr as (g & Hg & Hr). exists g. split; [|done].
      destruct (Hhead g Hg) as (r0 & g' & Hgeq & Hr0 & Hr0c).
      pose proof (proj1 (Forall_forall _ _) Hu g Hg) as [_ Hsame].
      assert (r0 ∈ g) as Hr0g by (rewrite Hgeq; by left).
      pose proof (Hsame r r0 Hr Hr0g) as Heq.
      assert (r ∈ S) as HrS.
      { rewrite <-Hcat. apply elem_of_concat. by exists g. }
      pose proof (proj1 (Forall_forall _ _) Hstr r HrS) as [w Hw].
      rewrite (key_tuple_text _ _ _ Hw), (key_tuple_text _ _ _ Hr0c) in Heq.
      rewrite (text_of_Some _ _ _ Hw). by injection Heq.
Qed.

(** *** The whole graph *)

Lemma ReadIterFactory_present name (kwargs : gmap string (stream TRow)) rows :
  kwargs !! name = Some ((rows, None) : stream TRow) →
  ReadIterFactory name kwargs = (rows, Ok tt).
Proof.
  intros Hk. unfold ReadIterFactory. rewrite Hk, G_bind_lift_ok.
  unfold for_in. cbn [fst snd]. rewrite G_bind_ret_r.
  rewrite (for_each_yield_all id). by rewrite list_fmap_id.
Qed.

Lemma string_column_has_keys c rows : string_column c rows → Forall (has_keys [c]) rows.
Proof.
  intros H. eapply Forall_impl; [exact H|]. intros r [s Hs].
  constructor; [by eexists|constructor].
Qed.

Lemma string_column_ordered val_lt c rows :
  total_order_on val_lt (λ v, ∃ s, v = VStr s) →
  string_column c rows → total_order_on val_lt (column_values c rows).
Proof.
  intros Hord Hstr. eapply total_order_on_weaken; [|exact Hord].
  intros v (r & Hr & Hv). pose proof (proj1 (Forall_forall _ _) Hstr r Hr) as [s Hs].
  exists s. congruence.
Qed.

Lemma word_row_lookup_text c count words w :
  c ≠ count → word_row c count words w !! c = Some (VStr w).
Proof.
  intros Hne. unfold word_row. rewrite lookup_insert_ne by done.
  by rewrite lookup_singleton_eq.
Qed.

Lemma word_row_lookup_count c count words w :
  word_row c count words w !! count
  = Some (VInt (Z.of_nat (length (filter (λ x, x = w) words)))).
Proof. unfold word_row. by rewrite lookup_insert_eq. Qed.

(** X26: [word_count_graph], run on documents that hold ASCII text in the
    text column, with a sort that sorts, ends normally and yields one row for
    each distinct word of the documents (the tokens of each text once its
    punctuation is removed and it is in lower case), holding the word and
    the number of times it occurs, in ascending order of count and then
    word. *)
Theorem word_count_graph_counts
    (val_lt : val → val → result bool) (open_file : string → result (list string))
    (ExternalSort : list string → stream TRow → G unit)
    (input_stream_name text_column count_column : string)
    (kwargs : gmap string (stream TRow)) (docs : list TRow) :
  sorts val_lt ExternalSort →
  total_order_on val_lt (λ v, ∃ s, v = VStr s) →
  total_order_on val_lt (λ v, ∃ z, v = VInt z) →
  text_column ≠ count_column →
  kwargs !! input_stream_name = Some ((docs, None) : stream TRow) →
  string_column text_column docs →
  ascii_column text_column docs →
  ∃ (out : list TRow) (ws : list string),
    graph.run val_lt open_file ExternalSort
      (word_count_graph input_stream_name text_column count_column) kwargs = (out, Ok tt) ∧
    NoDup ws ∧
    (∀ w, w ∈ ws ↔ w ∈ words_of text_column docs) ∧
    out ≡ₚ word_row text_column count_column (words_of text_column docs) <$> ws ∧
    sorted_by val_lt [count_column; text_column] out.
Proof.
  intros Hsort Hstr Hint Hne Hk Hdocs _.
  destruct (split_words_stage text_column docs Hdocs) as (T & Hmaps & Hwords & HT).
  destruct (Hsort [text_column] T) as (S & HS & HST & HSs).
  { by apply string_column_has_keys. }
  { constructor; [by apply string_column_ordered|constructor]. }
  assert (string_column text_column S) as HSstr.
  { unfold string_column. by rewrite HST. }
  destruct (count_words_stage val_lt text_column count_column S
              (words_of text_column docs)) as (ws & Hcount & Hnd & Hws).
  { done. }
  { constructor; [by apply string_column_ordered|constructor]. }
  { done. }
  { by rewrite HST, Hwords. }
  set (C := word_row text_column count_column (words_of text_column docs) <$> ws) in *.
  destruct (Hsort [count_column; text_column] C) as (out & Hout & Hperm & Hsorted).
  { apply Forall_forall. intros r (w & -> & _)%list_elem_of_fmap.
    constructor; [rewrite word_row_lookup_count; by eexists|].
    constructor; [rewrite word_row_lookup_text by done; by eexists|constructor]. }
  { constructor; [|constructor; [|constructor]].
    - eapply total_order_on_weaken; [|exact Hint].
      intros v (r & (w & -> & _)%list_elem_of_fmap & Hv).
      rewrite word_row_lookup_count in Hv. eexists. by injection Hv as <-.
    - eapply total_order_on_weaken; [|exact Hstr].
      intros v (r & (w & -> & _)%list_elem_of_fmap & Hv).
      rewrite word_row_lookup_text in Hv by done. eexists. by injection Hv as <-. }
  exists out, ws. split_and!; [|done|done|done|done].
  unfold word_count_graph.
  cbn [graph.run graph.sort graph.reduce graph.map graph.graph_from_iter].
  rewrite !yield_from_generator.
  rewrite (ReadIterFactory_present _ _ _ Hk).
  change (generator (docs, Ok tt)) with (docs, @None exn).
  rewrite Hmaps. change (generator (T, Ok tt)) with (T, @None exn).
  rewrite HS. change (generator (S, Ok tt)) with (S, @None exn).
  rewrite Hcount. fold C. change (generator (C, Ok tt)) with (C, @None exn).
  exact Hout.
Qed.

(** *** The modelled sort sorts *)

Section sort_model.
Context (val_lt : val → val → result bool) (T : list val → Prop).
Context (Hord : total_order_on (list_lt val_lt) T).

Lemma sort_insert_spec k row (L : list (list val * TRow)) :
  T k → Forall (λ kr, T kr.1) L → pairs_sorted val_lt L →
  ∃ L', sort_insert val_lt k row L = Ok L' ∧ L' ≡ₚ (k, row) :: L ∧ pairs_sorted val_lt L'.
Proof.
  intros Hk HL Hs. induction L as [|[k' row'] L IH].
  - exists [(k, row)]. split_and!; [done|done|]. repeat constructor.
  - apply Forall_cons in HL as [Hk' HL]. cbn [fst] in Hk'.
    apply StronglySorted_inv in Hs as [Hs Hall].
    pose proof Hord as (Hdef & _).
    cbn [sort_insert]. destruct (Hdef k k' Hk Hk') as [b Hb]. rewrite Hb.
    change (Ok b ≫= ?f) with (f b). cbn beta. destruct b.
    + eexists. split_and!; [done|done|].
      assert (list_lt val_lt k' k = Ok false) as Hk'k by (by eapply ord_asym).
      constructor; [by constructor|]. constructor; [done|].
      apply Forall_forall. intros y Hy.
      pose proof (proj1 (Forall_forall _ _) Hall y Hy) as Hyk'.
      pose proof (proj1 (Forall_forall _ _) HL y Hy) as HTy. cbn [fst] in Hyk'.
      by apply (ord_le_trans _ _ Hord k k' y.1).
    + destruct (IH HL Hs) as (L' & -> & Hperm & Hs').
      change (Ok L' ≫= ?f) with (f L'). cbn beta.
      eexists. split_and!; [done| |].
      * rewrite Hperm. apply perm_swap.
      * constructor; [done|]. rewrite Hperm. by constructor.
Qed.

Lemma sort_loop keys rows : ∀ L : list (list val * TRow),
  Forall (λ r, has_keys keys r ∧ T (key_tuple keys r)) rows →
  Forall (λ kr, kr.1 = key_tuple keys kr.2 ∧ T kr.1) L → pairs_sorted val_lt L →
  ∃ L', for_each rows (λ row sorted,
          k ← lift (_comparator keys row);
          lift (sort_insert val_lt k row sorted)) L = ([], Ok L') ∧
        L'.*2 ≡ₚ L.*2 ++ rows ∧
        Forall (λ kr, kr.1 = key_tuple keys kr.2 ∧ T kr.1) L' ∧ pairs_sorted val_lt L'.
Proof.
  induction rows as [|r rows IH]; intros L Hrows HL Hs.
  - exists L. by rewrite app_nil_r.
  - apply Forall_cons in Hrows as [[Hk HT] Hrows].
    destruct (sort_insert_spec (key_tuple keys r) r L HT) as (L1 & Hins & Hperm & Hs1);
      [|done|].
    { eapply Forall_impl; [exact HL|]. by intros kr [_ ?]. }
    destruct (IH L1 Hrows) as (L' & Hloop & Hperm' & HL' & Hs'); [|done|].
    { rewrite Hperm. by constructor. }
    exists L'. split_and!; [|by rewrite Hperm', Hperm, <-Permutation_middle|done|done].
    cbn [for_each]. unfold _comparator. rewrite (mapM_row_get _ _ Hk), G_bind_lift_ok.
    rewrite Hins. change (lift (Ok L1)) with (([], Ok L1) : G (list (list val * TRow))).
    by rewrite G_bind_pure.
Qed.

Lemma pairs_sorted_rows keys (L : list (list val * TRow)) :
  Forall (λ kr, kr.1 = key_tuple keys kr.2 ∧ T kr.1) L → pairs_sorted val_lt L →
  StronglySorted (key_le val_lt keys) L.*2.
Proof.
  intros HL Hs. induction Hs as [|kr L Hs IH Hall]; [constructor|].
  apply Forall_cons in HL as [[Hkr _] HL]. cbn [fmap list_fmap].
  constructor; [by apply IH|]. apply Forall_fmap, Forall_forall. intros y Hy.
  pose proof (proj1 (Forall_forall _ _) Hall y Hy) as Hle.
  pose proof (proj1 (Forall_forall _ _) HL y Hy) as [Hy1 _].
  unfold key_le. cbn. by rewrite <-Hkr, <-Hy1.
Qed.
End sort_model.

Lemma ExternalSort_model_sorts val_lt : sorts val_lt (ExternalSort_model val_lt).
Proof.
  intros keys rows Hk Hcols.
  pose proof (columns_ordered_tuples _ _ _ Hcols) as Hord.
  set (T := tuple_in ((λ k, column_values k rows) <$> keys)) in *.
  destruct (sort_loop val_lt T Hord keys rows []) as (L & Hloop & Hperm & HL & Hs).
  { apply Forall_forall. intros r Hr.
    pose proof (proj1 (Forall_forall _ _) Hk r Hr) as Hkr. split; [done|].
    by apply key_tuple_in. }
  { constructor. }
  { constructor. }
  exists L.*2. split_and!.
  - unfold ExternalSort_model, for_in. cbn [fst snd]. rewrite Hloop, !G_bind_pure, G_bind_ret.
    apply (for_each_yield_all snd).
  - done.
  - split; [by rewrite Hperm|]. by eapply pairs_sorted_rows.
Qed.

Lemma word_count_graph_counts_witness :
  ∃ (out : list TRow) (ws : list string),
    graph.run py_lt (λ _, Ok []) (ExternalSort_model py_lt)
      (word_count_graph "docs" "text" "count") word_kwargs = (out, Ok tt) ∧
    NoDup ws ∧
    (∀ w, w ∈ ws ↔ w ∈ words_of "text" word_docs) ∧
    out ≡ₚ word_row "text" "count" (words_of "text" word_docs) <$> ws ∧
    sorted_by py_lt ["count"; "text"] out.
Proof.
  apply (word_count_graph_counts py_lt (λ _, Ok []) (ExternalSort_model py_lt)
           "docs" "text" "count" word_kwargs word_docs).
  - apply ExternalSort_model_sorts.
  - by apply py_lt_total_order_str.
  - by apply py_lt_total_order_int.
  - done.
  - reflexivity.
  - repeat constructor; by eexists.
  - repeat constructor.
Defined.

Example word_count_graph_sample :
  graph.run py_lt (λ _, Ok []) (ExternalSort_model py_lt)
    (word_count_graph "docs" "text" "count") word_kwargs
  = ([ {["text" := VStr "hello"; "count" := VInt 2]};
       {["text" := VStr "world"; "count" := VInt 2]} ], Ok tt).
Proof. vm_compute. reflexivity. Qed.


(** ** The counts of TermFrequency, and Index on a whole stream *)

Lemma occurrences_cons x v vs :
  occurrences x (v :: vs) = (if decide (v = x) then 1 else 0) + occurrences x vs.
Proof.
  unfold occurrences. rewrite filter_cons.
  destruct (decide (v = x)); cbn [length]; lia.
Qed.

Lemma sum_filter_split (f : val → Z) (P : val → Prop) `{∀ x, Decision (P x)} l :
  foldr Z.add 0 (f <$> l)
  = foldr Z.add 0 (f <$> filter P l) + foldr Z.add 0 (f <$> filter (λ x, ¬ P x) l).
Proof.
  induction l as [|x l IH]; [done|]. cbn [fmap list_fmap foldr]. rewrite !filter_cons.
  destruct (decide (P x)) as [HP|HP].
  - rewrite decide_False by (by intros ?). cbn [fmap list_fmap foldr]. lia.
  - rewrite decide_True by done. cbn [fmap list_fmap foldr]. lia.
Qed.

Lemma sum_filter_eq (f : val → Z) v l :
  NoDup l → (v ∉ l → f v = 0) →
  foldr Z.add 0 (f <$> filter (λ x, x = v) l) = f v.
Proof.
  induction 1 as [|x l Hx Hnd IH]; intros Hv.
  - cbn. symmetry. apply Hv, not_elem_of_nil.
  - rewrite filter_cons. destruct (decide (x = v)) as [->|Hne].
    + cbn [fmap list_fmap foldr]. rewrite filter_none; [cbn; lia|].
      intros y Hy ->. done.
    + apply IH. intros Hnotin. apply Hv. by intros [?|?]%elem_of_cons.
Qed.

Lemma sum_occurrences vs :
  foldr Z.add 0 ((λ v, occurrences v vs) <$> first_seen vs) = Z.of_nat (length vs).
Proof.
  induction vs as [|v vs IH]; [done|].
  cbn [first_seen fmap list_fmap foldr length].
  rewrite occurrences_cons, decide_True by done.
  assert (foldr Z.add 0 ((λ x, occurrences x (v :: vs)) <$> filter (λ x, x ≠ v) (first_seen vs))
          = foldr Z.add 0 ((λ x, occurrences x vs) <$> filter (λ x, x ≠ v) (first_seen vs)))
    as ->.
  { f_equal. apply list_fmap_ext. intros i x Hx.
    apply list_elem_of_lookup_2, list_elem_of_filter in Hx as [Hne _].
    rewrite occurrences_cons, decide_False by done. lia. }
  rewrite (sum_filter_split _ (λ x, x = v)) in IH.
  rewrite sum_filter_eq in IH.
  - lia.
  - apply NoDup_first_seen.
  - intros Hv. apply occurrences_notin. by rewrite <-elem_of_first_seen.
Qed.

Lemma occurrences_pos v vs : v ∈ vs → 1 ≤ occurrences v vs.
Proof.
  intros Hv. unfold occurrences.
  assert (v ∈ filter (λ x, x = v) vs) as Hin by (by apply list_elem_of_filter).
  destruct (filter (λ x, x = v) vs); [by apply elem_of_nil in Hin|]. cbn [length]. lia.
Qed.

(** X8: on a group whose rows carry the group keys and the word column,
    with [None], integers or strings for words, [TermFrequency] ends
    normally, and its rows hold in the result column the floats [c / n] for
    integer counts [c], each at least one, and the number [n] of rows of the
    group; the integer counts add up to [n].  There are as many rows as
    distinct words. *)
Theorem TermFrequency_counts_add_up
    (words_column result_column : string) (keys : list string) (rows : list TRow) :
  Forall (has_keys keys) rows →
  Forall (λ r, is_Some (r !! words_column)) rows →
  Forall exact_val (column words_column rows) →
  ∃ (out : list TRow) (counts : list Z),
    TermFrequency words_column result_column keys (rows, None) = (out, Ok tt) ∧
    Forall2 (λ row c, row !! result_column = Some (VFloatDiv c (Z.of_nat (length rows))))
      out counts ∧
    Forall (λ c, 1 ≤ c) counts ∧
    foldr Z.add 0 counts = Z.of_nat (length rows) ∧
    length out = length (first_seen (column words_column rows)).
Proof.
  intros Hk Hw _.
  set (vs := column words_column rows).
  exists ((λ v, <[result_column := VFloatDiv (occurrences v vs) (Z.of_nat (length rows))]>
             (<[words_column := v]> (from_option (project keys) ∅ (head rows))))
          <$> first_seen vs),
         ((λ v, occurrences v vs) <$> first_seen vs).
  split_and!.
  - by apply TermFrequency_value.
  - apply Forall2_fmap, Forall_Forall2_diag, Forall_forall. intros v _.
    apply lookup_insert_eq.
  - apply Forall_fmap, Forall_forall. intros v Hv. apply occurrences_pos.
    by apply elem_of_first_seen.
  - rewrite sum_occurrences. unfold vs, column. by rewrite length_fmap.
  - by rewrite length_fmap.
Qed.

Lemma tf_group_has_d : Forall (has_keys ["d"]) tf_group.
Proof. repeat constructor; by eexists. Qed.

Lemma TermFrequency_counts_add_up_witness :
  ∃ (out : list TRow) (counts : list Z),
    TermFrequency "w" "tf" ["d"] (tf_group, None) = (out, Ok tt) ∧
    Forall2 (λ row c, row !! "tf" = Some (VFloatDiv c (Z.of_nat (length tf_group))))
      out counts ∧
    Forall (λ c, 1 ≤ c) counts ∧
    foldr Z.add 0 counts = Z.of_nat (length tf_group) ∧
    length out = length (first_seen (column "w" tf_group)).
Proof.
  apply TermFrequency_counts_add_up; [exact tf_group_has_d| |].
  - repeat constructor; by eexists.
  - repeat constructor.
Defined.

Lemma group_runs_no_keys_of r rows :
  group_runs (keyed (key_of []) (r :: rows)) = [(KList [], r :: rows)].
Proof.
  revert r. induction rows as [|r' rows IH]; intros r; [done|].
  change (keyed (key_of []) (r :: r' :: rows))
    with ((KList [], r) :: keyed (key_of []) (r' :: rows)).
  cbn [group_runs]. rewrite IH. by rewrite decide_True.
Qed.

(** X5: [Index(col)] yields each row of its group with [col] set to the
    position of the row, counted from [0], and ends as the group ends; with
    no group key, [Reduce] with [Index(col)] numbers in this way the rows of
    the whole stream, whatever they hold. *)
Theorem Index_numbers_rows
    (col : string) (keys : list string) (rows : list TRow) (fin : option exn) :
  Index col keys (rows, fin)
    = (imap (λ i r, <[col := VInt (Z.of_nat i)]> r) rows, fin_result fin) ∧
  Reduce (Index col) [] (rows, None)
    = (imap (λ i r, <[col := VInt (Z.of_nat i)]> r) rows, Ok tt).
Proof.
  split; [apply Index_trace|].
  rewrite Reduce_normal_groups by apply has_keys_nil.
  destruct rows as [|r rows]; [done|].
  rewrite group_runs_no_keys_of. cbn [fmap list_fmap snd for_each].
  rewrite Index_trace. cbn [fin_result]. rewrite G_bind_yields.
  cbn [fst snd mret G_ret]. by rewrite app_nil_r.
Qed.


(** ** The inner join as a nested loop *)

Section inner_loop.
Context (val_lt : val → val → result bool).
Context (set_order : gset string → list string) (Hso : set_order_ok set_order).
Context (sa sb : string) (keys : list string).
Context (T : list val → Prop) (Hord : total_order_on (list_lt val_lt) T).

Lemma bind_ext_in {A B : Type} (f g : A → list B) (l : list A) :
  (∀ x, x ∈ l → f x = g x) → l ≫= f = l ≫= g.
Proof.
  induction l as [|x l IH]; intros Hfg; [done|]. cbn [mbind list_bind].
  rewrite (Hfg x) by left. rewrite IH; [done|]. intros y Hy. apply Hfg. by right.
Qed.

Lemma matches_app a l1 l2 : matches keys a (l1 ++ l2) = matches keys a l1 ++ matches keys a l2.
Proof. apply filter_app. Qed.

Lemma matches_none a l :
  (∀ b, b ∈ l → key_tuple keys b ≠ key_tuple keys a) → matches keys a l = [].
Proof. intros H. by apply filter_none. Qed.

Lemma matches_all a l :
  (∀ b, b ∈ l → key_tuple keys b = key_tuple keys a) → matches keys a l = l.
Proof. intros H. by apply filter_all. Qed.

Lemma sorted_groups_row_key gs r :
  sorted_groups val_lt keys T gs → r ∈ concat gs.*2 →
  ∃ kg, kg ∈ gs ∧ r ∈ kg.2 ∧ key_tuple keys r = kg.1.
Proof.
  intros [Hall _] (g & Hg & Hr)%elem_of_concat.
  apply list_elem_of_fmap in Hg as (kg & -> & Hkg).
  exists kg. split_and!; [done..|].
  pose proof (proj1 (Forall_forall _ _) Hall kg Hkg) as (_ & _ & Hrows).
  by apply (proj1 (Forall_forall _ _) Hrows r Hr).
Qed.

Lemma Join_loop_inner_nested : ∀ ga gb,
  sorted_groups val_lt keys T ga → sorted_groups val_lt keys T gb →
  Join_loop val_lt (InnerJoiner set_order sa sb) keys None None ga gb
  = (nested_loop_join set_order sa sb keys (concat ga.*2) (concat gb.*2), Ok tt).
Proof.
  unfold nested_loop_join.
  induction ga as [|[ak ag] ga IHa]; intros gb; induction gb as [|[bk bg] gb IHb];
    intros Hga Hgb.
  - done.
  - destruct (sorted_groups_cons _ _ _ _ _ Hgb) as (HTb & Hneb & Hkb & Hgb' & Hlater).
    rewrite Join_loop_nil_cons, InnerJoiner_right_only, G_bind_pure by done.
    by rewrite (IHb Hga Hgb').
  - destruct (sorted_groups_cons _ _ _ _ _ Hga) as (HTa & Hnea & Hka & Hga' & Hlater).
    rewrite Join_loop_cons_nil, InnerJoiner_left_only, G_bind_pure.
    rewrite (IHa [] Hga' Hgb). cbn [fmap list_fmap concat snd]. f_equal.
    rewrite bind_app. cbn [fmap list_fmap concat].
    rewrite (bind_ext_in _ (λ _, []) ag) by done. by rewrite list_bind_nil.
  - destruct (sorted_groups_cons _ _ _ _ _ Hga) as (HTa & Hnea & Hka & Hga' & Hlater_a).
    destruct (sorted_groups_cons _ _ _ _ _ Hgb) as (HTb & Hneb & Hkb & Hgb' & Hlater_b).
    simpl in HTa, HTb, Hnea, Hneb, Hka, Hkb.
    assert (∀ a, a ∈ ag → key_tuple keys a = ak) as Hag.
    { intros a Ha. destruct Hga as [Hall _]. apply Forall_cons in Hall as [(_ & _ & Hrows) _].
      by apply (proj1 (Forall_forall _ _) Hrows a Ha). }
    assert (∀ b, b ∈ bg → key_tuple keys b = bk) as Hbg.
    { intros b Hb. destruct Hgb as [Hall _]. apply Forall_cons in Hall as [(_ & _ & Hrows) _].
      by apply (proj1 (Forall_forall _ _) Hrows b Hb). }
    rewrite Join_loop_cons_cons.
    pose proof Hord as (Hdef & Hirr & Htrans & Htot).
    destruct (Hdef ak bk HTa HTb) as [a_first Hab]. rewrite Hab, !G_bind_lift_ok.
    destruct a_first.
    { rewrite InnerJoiner_left_only, G_bind_pure. rewrite (IHa _ Hga' Hgb).
      f_equal. cbn [fmap list_fmap concat snd]. rewrite (bind_app _ ag).
      rewrite (bind_ext_in _ (λ _, []) ag); [by rewrite list_bind_nil|].
      intros a Ha. rewrite matches_none; [done|].
      intros b Hb Heq. rewrite (Hag a Ha) in Heq.
      change (bg ++ concat gb.*2) with (concat ((bk, bg) :: gb).*2) in Hb.
      destruct (sorted_groups_row_key _ b Hgb Hb) as (kg & Hkg & _ & Hkey).
      apply (below_all_not_in val_lt keys T Hord ak (bk, bg) gb HTa Hgb Hab kg Hkg).
      congruence. }
    destruct (Hdef bk ak HTb HTa) as [b_first Hba]. rewrite Hba, !G_bind_lift_ok.
    destruct b_first.
    { rewrite InnerJoiner_right_only, G_bind_pure by done. rewrite (IHb Hga Hgb').
      f_equal. apply bind_ext_in. intros a Ha.
      cbn [fmap list_fmap concat snd]. rewrite matches_app.
      rewrite (matches_none a bg); [done|].
      intros b Hb Heq. rewrite (Hbg b Hb) in Heq.
      destruct (sorted_groups_row_key _ a Hga Ha) as (kg & Hkg & _ & Hkey).
      apply (below_all_not_in val_lt keys T Hord bk (ak, ag) ga HTb Hga Hba kg Hkg).
      congruence. }
    assert (ak = bk) as <-.
    { destruct (decide (ak = bk)) as [|Hne]; [done|].
      destruct (Htot ak bk HTa HTb Hne); congruence. }
    rewrite InnerJoiner_both by done. rewrite G_bind_yields, (IHa gb Hga' Hgb').
    cbn [fst snd]. f_equal. cbn [fmap list_fmap concat snd]. rewrite (bind_app _ ag). f_equal.
    + apply bind_ext_in. intros a Ha. rewrite matches_app.
      rewrite (matches_all a bg) by (intros b Hb; by rewrite (Hbg b Hb), (Hag a Ha)).
      rewrite matches_none; [by rewrite app_nil_r|].
      intros b Hb Heq. rewrite (Hag a Ha) in Heq.
      destruct (sorted_groups_row_key _ b Hgb' Hb) as (kg & Hkg & _ & Hkey).
      destruct (Hlater_b kg Hkg) as [HTkg Hlt]. cbn in Hlt.
      rewrite <-Hkey, Heq, Hirr in Hlt; [congruence|done].
    + apply bind_ext_in. intros a Ha. rewrite matches_app.
      rewrite (matches_none a bg); [done|].
      intros b Hb Heq. rewrite (Hbg b Hb) in Heq.
      destruct (sorted_groups_row_key _ a Hga' Ha) as (kg & Hkg & _ & Hkey).
      destruct (Hlater_a kg Hkg) as [HTkg Hlt]. cbn in Hlt.
      rewrite <-Hkey, <-Heq, Hirr in Hlt; [congruence|done].
Qed.
End inner_loop.

(** X9: for two tables sorted ascending by the join keys, with every key
    column totally ordered over both, [Join] with [InnerJoiner] ends
    normally and yields what a nested loop yields: for each row of the left
    table in turn, the row it makes with each row of the right table that
    has the same key tuple, in the order of the right table. *)
Theorem InnerJoiner_is_nested_loop
    (val_lt : val → val → result bool) (set_order : gset string → list string)
    (suffix_a suffix_b : string) (keys : list string) (rows_a rows_b : list TRow) :
  set_order_ok set_order →
  sorted_by val_lt keys rows_a →
  sorted_by val_lt keys rows_b →
  columns_ordered val_lt keys (rows_a ++ rows_b) →
  Join val_lt (InnerJoiner set_order suffix_a suffix_b) keys (rows_a, None) (rows_b, None)
  = (nested_loop_join set_order suffix_a suffix_b keys rows_a rows_b, Ok tt).
Proof.
  intros Hso Ha Hb Hcols.
  set (T := tuple_in ((λ k, column_values k (rows_a ++ rows_b)) <$> keys)).
  pose proof (columns_ordered_tuples _ _ _ Hcols) as Hord. fold T in Hord.
  destruct (group_runs_sorted_groups val_lt keys _ rows_a Hord) as [Hga Hcat_a]; [|done|].
  { intros r Hr. apply key_tuple_in; [apply elem_of_app; by left|].
    destruct Ha as [Hk _]. by eapply Forall_forall in Hk. }
  destruct (group_runs_sorted_groups val_lt keys _ rows_b Hord) as [Hgb Hcat_b]; [|done|].
  { intros r Hr. apply key_tuple_in; [apply elem_of_app; by right|].
    destruct Hb as [Hk _]. by eapply Forall_forall in Hk. }
  unfold Join. rewrite !groupby_comparator by (by destruct Ha, Hb).
  cbn [fst snd]. rewrite !_next_iter_normal, !G_bind_ret.
  rewrite (Join_loop_inner_nested val_lt set_order Hso suffix_a suffix_b keys T Hord _ _ Hga Hgb).
  by rewrite Hcat_a, Hcat_b.
Qed.

Lemma InnerJoiner_is_nested_loop_witness :
  Join py_lt (InnerJoiner elements "_1" "_2") ["k"] (join_left, None) (join_right, None)
  = (nested_loop_join elements "_1" "_2" ["k"] join_left join_right, Ok tt).
Proof.
  apply InnerJoiner_is_nested_loop.
  - exact elements_set_order_ok.
  - exact join_left_sorted.
  - exact join_right_sorted.
  - constructor; [apply py_lt_total_order_int, join_rows_k_ints|constructor].
Defined.


(** ** Counting the distinct keys *)

Lemma Reduce_FirstReducer_runs val_lt keys rows :
  sorted_by val_lt keys rows →
  columns_ordered val_lt keys rows →
  ∃ gs : list (list TRow),
    Reduce FirstReducer keys (rows, None) = (first_rows gs, Ok tt) ∧
    concat gs = rows ∧ Forall (uniform_run keys) gs ∧ NoDup (group_tuple keys <$> gs).
Proof.
  intros [Hk Hs] Hcols.
  pose proof (group_runs_maximal keys rows Hk) as (Hcat & Hu & Hadj).
  set (gs := (group_runs (keyed (key_of keys) rows)).*2) in *.
  exists gs. split_and!; [|done|done|].
  - rewrite (Reduce_normal_groups _ _ _ Hk). fold gs.
    rewrite (first_rows_heads keys) by done.
    apply (for_each_single_yields (λ g, FirstReducer keys (g, None))).
    eapply Forall_impl; [exact Hu|]. by intros [|r g] [Hne _].
  - eapply runs_tuples_NoDup; [by apply columns_ordered_tuples| |by rewrite Hcat|done|done].
    intros r Hr. rewrite Hcat in Hr. apply key_tuple_in; [done|].
    by eapply Forall_forall in Hk.
Qed.

Lemma project_no_keys (r : TRow) : project [] r = ∅.
Proof.
  apply (map_eq (M := gmap string)). intros j.
  by rewrite project_lookup, decide_False by apply not_elem_of_nil.
Qed.

Lemma Reduce_Count_no_keys col r rows :
  Reduce (Count col) [] (r :: rows, None)
  = ([ {[col := VInt (Z.of_nat (length (r :: rows)))]} ], Ok tt).
Proof.
  rewrite Reduce_normal_groups by apply has_keys_nil.
  rewrite group_runs_no_keys_of. cbn [fmap list_fmap snd for_each].
  rewrite Count_group, project_no_keys, insert_empty. done.
Qed.

(** X7: on a stream sorted by the keys, [Reduce] with [FirstReducer] on
    the keys followed by [Reduce] with [Count(col)] on no key yields a
    single row that holds in [col] the number of distinct key tuples of the
    stream, and nothing else; on an empty stream it yields no row at all. *)
Theorem count_distinct_keys
    (val_lt : val → val → result bool) (col : string) (keys : list string)
    (rows : list TRow) :
  sorted_by val_lt keys rows →
  columns_ordered val_lt keys rows →
  Reduce (Count col) [] (generator (Reduce FirstReducer keys (rows, None)))
  = (match rows with
     | [] => []
     | _ :: _ =>
         [ {[col := VInt (Z.of_nat (length (remove_dups (key_tuple keys <$> rows))))]} ]
     end, Ok tt).
Proof.
  intros Hs Hcols.
  destruct (Reduce_FirstReducer_runs val_lt keys rows Hs Hcols) as (gs & -> & Hcat & Hu & Hnd).
  change (generator (first_rows gs, Ok tt)) with (first_rows gs, @None exn).
  assert (length (first_rows gs) = length (remove_dups (key_tuple keys <$> rows))) as Hlen.
  { rewrite (first_rows_heads keys) by done. rewrite length_fmap.
    rewrite <-(length_fmap (group_tuple keys) gs).
    apply Permutation_length, NoDup_Permutation; [done|apply NoDup_remove_dups|].
    intros t. rewrite elem_of_remove_dups, <-Hcat, !list_elem_of_fmap. split.
    - intros (g & -> & Hg).
      pose proof (proj1 (Forall_forall _ _) Hu g Hg) as [Hne _].
      destruct g as [|r g]; [done|]. exists r. split; [done|].
      apply elem_of_concat. exists (r :: g). split; [done|by left].
    - intros (r & -> & (g & Hg & Hr)%elem_of_concat). exists g. split; [|done].
      apply uniform_run_tuple; [|done]. by apply (proj1 (Forall_forall _ _) Hu g Hg). }
  destruct rows as [|r0 rows].
  - destruct gs as [|g gs]; [done|].
    apply Forall_cons in Hu as [[Hne _] _]. destruct g; [done|]. done.
  - destruct (first_rows gs) as [|r fs] eqn:Hfirst.
    + destruct gs as [|g gs]; [done|].
      apply Forall_cons in Hu as [[Hne _] _]. destruct g; [done|]. done.
    + rewrite Reduce_Count_no_keys. by rewrite Hlen.
Qed.

Lemma count_distinct_keys_witness :
  Reduce (Count "num_docs") [] (generator (Reduce FirstReducer ["a"] (sample_rows, None)))
  = (match sample_rows with
     | [] => []
     | _ :: _ =>
         [ {["num_docs" :=
               VInt (Z.of_nat (length (remove_dups (key_tuple ["a"] <$> sample_rows))))]} ]
     end, Ok tt).
Proof.
  apply (count_distinct_keys py_lt).
  - exact sample_rows_sorted_by_a.
  - constructor; [apply py_lt_total_order_int, sample_rows_a_ints|constructor].
Defined.
